(** * BookBridge asset generators: a verification development

    The repository holds two Python scripts, [create_beautiful_icon.py] and
    [create_app_assets.py], which draw PNG assets with Pillow.  This file
    embeds their arithmetic and control flow and proves properties of them.

    Python's [float] is IEEE 754 binary64.  It is modelled by the standard
    library's executable specification [SpecFloat] at precision 53 and
    maximal exponent 1024, so every float operation of the scripts is
    computed bit for bit. *)

From Stdlib Require Import ZArith List Bool Lia Lra Psatz Ascii String.
From Stdlib Require Import QArith Qabs Qpower Qround.
From Stdlib Require Import Floats.SpecFloat.
Import ListNotations.

Local Open Scope Z_scope.

(** ** Python floats *)

Module PyFloat.

Definition prec : Z := 53.
Definition emax : Z := 1024.

Definition float : Type := spec_float.

(** [float(n)] for a Python integer [n]; exact when [|n| < 2^53]. *)
Definition of_int (n : Z) : float := binary_normalize prec emax n 0 false.

Definition add : float -> float -> float := SFadd prec emax.
Definition sub : float -> float -> float := SFsub prec emax.
Definition mul : float -> float -> float := SFmul prec emax.
Definition div : float -> float -> float := SFdiv prec emax.

(** [a / b] on two Python integers (true division).  CPython returns the
    correctly rounded quotient; for operands below [2^53] in magnitude this
    is the binary64 quotient of the two converted operands.  The scripts
    only divide by positive literals or by a loop bound the loop has
    already found positive. *)
Definition int_truediv (a b : Z) : float := div (of_int a) (of_int b).

(** [int(x)]: truncation toward zero; [None] stands for the
    [ValueError]/[OverflowError] Python raises on NaN and infinities. *)
Definition to_int (x : float) : option Z :=
  match x with
  | S754_zero _ => Some 0
  | S754_finite s m e =>
      let a := match e with
               | Zneg p => Z.shiftr (Zpos m) (Zpos p)
               | _ => Z.shiftl (Zpos m) e
               end in
      Some (if s then - a else a)
  | _ => None
  end.

(** The exact rational value of a finite float. *)
Definition to_Q (x : float) : Q :=
  match x with
  | S754_finite s m e =>
      let v := match e with
               | Zneg p => Qmake (Zpos m) (Pos.shiftl 1 (Npos p))
               | _ => inject_Z (Z.shiftl (Zpos m) e)
               end in
      if s then Qopp v else v
  | _ => 0%Q
  end.

Definition is_finite (x : float) : bool :=
  match x with
  | S754_zero _ | S754_finite _ _ _ => true
  | _ => false
  end.

(** Same bit pattern (up to the payload of a NaN). *)
Definition same (x y : float) : bool :=
  match x, y with
  | S754_zero s1, S754_zero s2 => Bool.eqb s1 s2
  | S754_infinity s1, S754_infinity s2 => Bool.eqb s1 s2
  | S754_nan, S754_nan => true
  | S754_finite s1 m1 e1, S754_finite s2 m2 e2 =>
      Bool.eqb s1 s2 && Pos.eqb m1 m2 && Z.eqb e1 e2
  | _, _ => false
  end.

(** Python's [==] on floats. *)
Definition eqb : float -> float -> bool := SFeqb.

End PyFloat.

Declare Scope pyfloat_scope.
Delimit Scope pyfloat_scope with py.
Infix "+" := PyFloat.add : pyfloat_scope.
Infix "-" := PyFloat.sub : pyfloat_scope.
Infix "*" := PyFloat.mul : pyfloat_scope.
Infix "/" := PyFloat.div : pyfloat_scope.

(** ** Pillow's raster operations used by the scripts

    Pillow is an external collaborator.  Its images are modelled as a size
    and a pixel function; only coordinates inside the size are meaningful,
    which is how Pillow's clipping of out-of-range draws shows up here. *)

Module Pillow.

Definition RGB : Type := (Z * Z * Z)%type.
Definition RGBA : Type := (Z * Z * Z * Z)%type.

Record Image (P : Type) : Type := mkImage {
  im_width : Z;
  im_height : Z;
  im_px : Z -> Z -> P
}.
Arguments mkImage {P} _ _ _.
Arguments im_width {P} _.
Arguments im_height {P} _.
Arguments im_px {P} _ _ _.

(** [Image.new(mode, (w, h), color)] *)
Definition new {P} (w h : Z) (color : P) : Image P :=
  mkImage w h (fun _ _ => color).

Definition in_bounds {P} (im : Image P) (x y : Z) : bool :=
  (0 <=? x) && (x <? im_width im) && (0 <=? y) && (y <? im_height im).

(** Pillow stores an ink channel given as a Python integer clipped to one
    byte. *)
Definition clip8 (v : Z) : Z := Z.max 0 (Z.min 255 v).

Definition ink (c : RGB) : RGB :=
  let '(r, g, b) := c in (clip8 r, clip8 g, clip8 b).

(** Paint the pixels of [im] selected by [region]. *)
Definition paint {P} (im : Image P) (region : Z -> Z -> bool) (c : P) : Image P :=
  mkImage (im_width im) (im_height im)
          (fun x y => if in_bounds im x y && region x y then c
                      else im_px im x y).

(** [draw.line([(x0, y), (x1, y)], fill)], one pixel wide: both end
    points are drawn. *)
Definition line_h (im : Image RGB) (y x0 x1 : Z) (fill : RGB) : Image RGB :=
  paint im (fun x y' => (y' =? y) && (Z.min x0 x1 <=? x) && (x <=? Z.max x0 x1))
        (ink fill).

(** [draw.line([(x, y0), (x, y1)], fill)], one pixel wide. *)
Definition line_v (im : Image RGB) (x y0 y1 : Z) (fill : RGB) : Image RGB :=
  paint im (fun x' y => (x' =? x) && (Z.min y0 y1 <=? y) && (y <=? Z.max y0 y1))
        (ink fill).

(** The region of [draw.ellipse([(x0, y0), (x1, y1)], fill)]: the ellipse
    inscribed in the bounding box, tested at pixel centres with doubled
    coordinates.  Pillow's rasteriser differs from it on pixels along the
    border, where it paints some more; away from the border the two
    agree: both paint the centre of the box and neither paints outside
    of it.  What is proved of [Icon.glow] below looks at such pixels
    only; [GlowChannel.glow_on] takes the rasteriser as a parameter. *)
Definition in_ellipse (x0 y0 x1 y1 x y : Z) : bool :=
  let a := x1 - x0 in
  let b := y1 - y0 in
  let dx := 2 * x - (x0 + x1) in
  let dy := 2 * y - (y0 + y1) in
  (dx * b) * (dx * b) + (dy * a) * (dy * a) <=? (a * b) * (a * b).

Definition ellipse (im : Image RGBA) (x0 y0 x1 y1 : Z) (fill : RGBA) : Image RGBA :=
  paint im (in_ellipse x0 y0 x1 y1) fill.

(** [im.convert('RGBA')] and [im.convert('RGB')] *)
Definition to_rgba_px (c : RGB) : RGBA := let '(r, g, b) := c in (r, g, b, 255).
Definition to_rgb_px (c : RGBA) : RGB := let '(r, g, b, _) := c in (r, g, b).

Definition convert_rgba (im : Image RGB) : Image RGBA :=
  mkImage (im_width im) (im_height im) (fun x y => to_rgba_px (im_px im x y)).
Definition convert_rgb (im : Image RGBA) : Image RGB :=
  mkImage (im_width im) (im_height im) (fun x y => to_rgb_px (im_px im x y)).

(** Pillow's integer blend of one source pixel over one destination
    pixel ([ImagingAlphaComposite]): seven extra bits of precision and a
    rounded division by 255 done with shifts. *)
Definition shift_for_div255 (a : Z) : Z := Z.shiftr (Z.shiftr a 8 + a) 8.

Definition blend_px (dst src : RGBA) : RGBA :=
  let '(dr, dg, db, da) := dst in
  let '(sr, sg, sb, sa) := src in
  if sa =? 0 then dst
  else
    let blend := da * (255 - sa) in
    let outa255 := sa * 255 + blend in
    let coef1 := sa * 255 * 255 * 128 / outa255 in
    let coef2 := 255 * 128 - coef1 in
    let ch s d := Z.shiftr (shift_for_div255 (s * coef1 + d * coef2 + Z.shiftl 128 7)) 7 in
    (ch sr dr, ch sg dg, ch sb db, shift_for_div255 (outa255 + 128)).

(** [Image.alpha_composite(dst, src)]: [src] over [dst]. *)
Definition alpha_composite (dst src : Image RGBA) : Image RGBA :=
  mkImage (im_width dst) (im_height dst)
          (fun x y => blend_px (im_px dst x y) (im_px src x y)).

End Pillow.

(** ** [create_gradient] and [hex_to_rgb] *)

Module Gradient.

Import PyFloat Pillow.

(** [range(n)] for an integer [n]; empty when [n <= 0]. *)
Definition range (n : Z) : list Z := map Z.of_nat (seq 0 (Z.to_nat n)).

(** [int(c1 * (1 - ratio) + c2 * ratio)] *)
Definition channel (c1 c2 : Z) (ratio : float) : option Z :=
  to_int (of_int c1 * (of_int 1 - ratio) + of_int c2 * ratio)%py.

(** One iteration of the loop; [None] when one of the [int(...)] raises. *)
Definition gradient_row (width height : Z) (color1 color2 : RGB)
           (vertical : bool) (img : Image RGB) (i : Z) : option (Image RGB) :=
  let '(r1, g1, b1) := color1 in
  let '(r2, g2, b2) := color2 in
  let ratio := int_truediv i (if vertical then height else width) in
  match channel r1 r2 ratio, channel g1 g2 ratio, channel b1 b2 ratio with
  | Some r, Some g, Some b =>
      Some (if vertical then line_h img i 0 width (r, g, b)
            else line_v img i 0 height (r, g, b))
  | _, _, _ => None
  end.

(** [create_gradient(width, height, color1, color2, vertical)];
    [Image.new] rejects a negative size. *)
Definition create_gradient (width height : Z) (color1 color2 : RGB)
           (vertical : bool) : option (Image RGB) :=
  if (width <? 0) || (height <? 0) then None
  else
    fold_left
      (fun acc i =>
         match acc with
         | Some img => gradient_row width height color1 color2 vertical img i
         | None => None
         end)
      (range (if vertical then height else width))
      (Some (new width height (0, 0, 0))).

(** *** [hex_to_rgb]

    Strings are strings of ASCII characters: a character of a [string]
    here is one byte, a character of a Python [str] one code point, and
    the two agree up to U+007F. *)

Definition hex_digit (c : Ascii.ascii) : option Z :=
  let n := Z.of_nat (Ascii.nat_of_ascii c) in
  if (48 <=? n) && (n <=? 57) then Some (n - 48)
  else if (97 <=? n) && (n <=? 102) then Some (n - 87)
  else if (65 <=? n) && (n <=? 70) then Some (n - 55)
  else None.

(** [hex_color.lstrip('#')] *)
Fixpoint lstrip_hash (s : string) : string :=
  match s with
  | String "#"%char rest => lstrip_hash rest
  | _ => s
  end.

(** The characters [int] skips around a number: tab, line feed, vertical
    tab, form feed, carriage return and space. *)
Definition is_space (c : Ascii.ascii) : bool :=
  let n := Z.of_nat (Ascii.nat_of_ascii c) in
  ((9 <=? n) && (n <=? 13)) || (n =? 32).

Fixpoint all_space (s : string) : bool :=
  match s with
  | EmptyString => true
  | String c rest => is_space c && all_space rest
  end.

Fixpoint lstrip_space (s : string) : string :=
  match s with
  | String c rest => if is_space c then lstrip_space rest else s
  | EmptyString => s
  end.

(** The digits of a hexadecimal literal up to the end of the string: at
    least one digit, single underscores between digits only, white space
    after the last digit only.  [after_digit] tells whether the character
    before was a digit. *)
Fixpoint digits16 (s : string) (acc : Z) (after_digit : bool) : option Z :=
  match s with
  | EmptyString => if after_digit then Some acc else None
  | String c rest =>
      if is_space c then
        if after_digit && all_space rest then Some acc else None
      else if Ascii.eqb c "_" then
        if after_digit then digits16 rest acc false else None
      else
        match hex_digit c with
        | Some d => digits16 rest (16 * acc + d) true
        | None => None
        end
  end.

(** What follows the sign: an optional [0x] or [0X], after which one
    underscore may stand before the digits. *)
Definition unprefixed (s : string) : string :=
  match s with
  | String "0"%char (String x rest) =>
      if Ascii.eqb x "x" || Ascii.eqb x "X" then
        match rest with
        | String "_"%char rest' => rest'
        | _ => rest
        end
      else s
  | _ => s
  end.

(** [int(s, 16)] on a string of ASCII characters; [None] stands for
    [ValueError]. *)
Definition int16 (s : string) : option Z :=
  match lstrip_space s with
  | String "-"%char rest => option_map Z.opp (digits16 (unprefixed rest) 0 false)
  | String "+"%char rest => digits16 (unprefixed rest) 0 false
  | rest => digits16 (unprefixed rest) 0 false
  end.

(** [int(s[i:i+2], 16)]: the slice is shorter than two characters where
    the string ends before. *)
Definition hex_pair (s : string) (i : nat) : option Z :=
  int16 (String.substring i 2 s).

Definition hex_to_rgb (hex_color : string) : option RGB :=
  let s := lstrip_hash hex_color in
  match hex_pair s 0, hex_pair s 2, hex_pair s 4 with
  | Some r, Some g, Some b => Some (r, g, b)
  | _, _, _ => None
  end.

End Gradient.

(** ** Geometry of [create_beautiful_app_icon] *)

Module Icon.

Definition size : Z := 512.
Definition center_x : Z := size / 2.
Definition center_y : Z := size / 2.

Definition book_width : Z := 180.
Definition book_height : Z := 220.
Definition book_x : Z := center_x - book_width / 2.
Definition book_y : Z := center_y - book_height / 2 - 10.
Definition spine_width : Z := 25.
Definition bridge_y : Z := book_y + book_height + 40.

(** [range(start, stop, step)] for a negative [step], with fuel. *)
Fixpoint range_down (fuel : nat) (start stop step : Z) : list Z :=
  match fuel with
  | O => []
  | S k => if start >? stop then start :: range_down k (start + step) stop step
           else []
  end.

(** [range(220, 150, -10)] *)
Definition glow_radii : list Z := range_down 100 220 150 (-10).

(** [max(5, 30 - (220 - radius) // 10)] *)
Definition glow_alpha (radius : Z) : Z := Z.max 5 (30 - (220 - radius) / 10).

(** One iteration of the glow loop: a transparent overlay with one
    filled circle, composited over the background. *)
Definition glow_fill (radius : Z) : Pillow.RGBA := (59, 130, 246, glow_alpha radius).

Definition glow_overlay (radius : Z) : Pillow.Image Pillow.RGBA :=
  Pillow.ellipse (Pillow.new size size (0, 0, 0, 0))
                 (center_x - radius) (center_y - radius)
                 (center_x + radius) (center_y + radius)
                 (glow_fill radius).

Definition glow_step (bg : Pillow.Image Pillow.RGB) (radius : Z)
  : Pillow.Image Pillow.RGB :=
  Pillow.convert_rgb
    (Pillow.alpha_composite (Pillow.convert_rgba bg) (glow_overlay radius)).

(** The loop over an arbitrary radius sequence, and the script's loop. *)
Definition glow_loop (radii : list Z) (bg : Pillow.Image Pillow.RGB)
  : Pillow.Image Pillow.RGB :=
  fold_left glow_step radii bg.

Definition glow (bg : Pillow.Image Pillow.RGB) : Pillow.Image Pillow.RGB :=
  glow_loop glow_radii bg.

(** The background the icon starts from. *)
Definition dark_slate : option Pillow.RGB := Gradient.hex_to_rgb "#0f172a"%string.
Definition dark_blue : option Pillow.RGB := Gradient.hex_to_rgb "#1e293b"%string.

Definition background : option (Pillow.Image Pillow.RGB) :=
  match dark_slate, dark_blue with
  | Some c1, Some c2 => Gradient.create_gradient size size c1 c2 true
  | _, _ => None
  end.

(** *** The bridge arc *)

Import PyFloat.
Local Open Scope pyfloat_scope.

(** Loop body of [for i in range(101)]: the sample appended to
    [bridge_points]. *)
Definition bridge_x (i : Z) : float :=
  (of_int (book_x - 40) + int_truediv (i * (book_width + 80)) 100)%py.

Definition bridge_t (i : Z) : float := int_truediv (i - 50) 50.

Definition bridge_curve_y (t : float) : float :=
  (of_int bridge_y - of_int 30 * (of_int 1 - t * t))%py.

Definition bridge_point (i : Z) : float * float :=
  (bridge_x i, bridge_curve_y (bridge_t i)).

(** [range(n)] *)
Definition range (n : nat) : list Z := map Z.of_nat (seq 0 n).

(** [bridge_points], built by appending one sample per iteration. *)
Definition bridge_points : list (float * float) :=
  fold_left (fun pts i => pts ++ [bridge_point i]) (range 101) [].

(** *** The bridge supports *)

(** The literals [0.25], [0.75] and [0.5] are dyadic, hence exact. *)
Definition lit_0_25 : float := int_truediv 1 4.
Definition lit_0_75 : float := int_truediv 3 4.
Definition lit_0_5 : float := int_truediv 1 2.

Definition support_positions : list float := [lit_0_25; lit_0_75].

(** [x ** 2]; the squares taken here (of 1.5 and of 0.5) are exactly
    representable, so they do not depend on how [pow] rounds. *)
Definition pow2 (x : float) : float := (x * x)%py.

(** [x = book_x - 40 + pos * (book_width + 80)] *)
Definition support_x (pos : float) : float :=
  (of_int (book_x - 40) + pos * of_int (book_width + 80))%py.

(** [y = bridge_y - 30 * (1 - (pos - 0.5) * 2) ** 2]; Python's [**] binds
    tighter than [*], so the square is taken of [1 - (pos - 0.5) * 2]. *)
Definition support_y (pos : float) : float :=
  (of_int bridge_y
   - of_int 30 * pow2 (of_int 1 - (pos - lit_0_5) * of_int 2))%py.

(** The strut [draw.line([(x, y), (x, bridge_y + 30)], ...)] as its two
    end points. *)
Definition support_strut (pos : float) : (float * float) * (float * float) :=
  ((support_x pos, support_y pos), (support_x pos, of_int (bridge_y + 30))).

Definition support_struts : list ((float * float) * (float * float)) :=
  map support_strut support_positions.

End Icon.

(** ** The generation routines as programs

    A routine runs against a [World]: the host (which fonts can be opened,
    the metrics fonts report, the C library's sine, which files can be
    written and the bytes Pillow writes) and whatever else a process could
    observe (clock, entropy), and it leaves files and printed lines
    behind.  Exceptions are results, so an uncaught one ends the
    routine. *)

Module Script.

Import PyFloat.

Inductive exn : Type :=
| OSError       (* "cannot open resource" from [ImageFont.truetype]; a
                   failed [save] ([PermissionError] and the like are
                   [OSError]s) *)
| ValueError.   (* [int()] of a NaN or an infinity, a malformed colour, a
                   font that cannot be measured *)

Inductive Font : Type :=
| TrueType (path : string) (size : Z)
| DefaultFont.

(** A coordinate as Python holds it: an [int] or a [float]. *)
Inductive num : Type :=
| Int (n : Z)
| Flt (x : float).

Definition point : Type := (num * num)%type.

(** One [ImageDraw] call with the arguments the script computed. *)
Inductive DrawOp : Type :=
| Rectangle (p q : Z * Z) (fill : string) (outline : option string) (width : Z)
| Arc (p q : Z * Z) (start stop : Z) (fill : string) (width : Z)
| Ellipse (p q : point) (fill : string)
| Line (p q : point) (fill : string) (width : Z)
| Text (xy : Z * Z) (text : string) (fill : string) (font : Font)
| Polygon (pts : list (Z * Z)) (fill : string).

(** What a canvas starts from: [Image.new] with a colour, or pixels
    computed beforehand. *)
Inductive Base : Type :=
| Solid (w h : Z) (color : string)
| Raster (im : Pillow.Image Pillow.RGB).

Record Picture : Type := mkPicture {
  base : Base;
  ops : list DrawOp
}.

Definition draw (p : Picture) (op : DrawOp) : Picture :=
  mkPicture (base p) (ops p ++ [op]).

Definition picture_size (p : Picture) : Z * Z :=
  match base p with
  | Solid w h _ => (w, h)
  | Raster im => (Pillow.im_width im, Pillow.im_height im)
  end.

(** The image handed to [save]: a canvas as drawn, or a canvas pasted
    through a rounded-rectangle mask onto an opaque backing of the same
    size. *)
Inductive Output : Type :=
| Plain (p : Picture)
| Masked (p : Picture) (mask_p mask_q : Z * Z) (radius : Z) (backing : string).

Definition output_size (o : Output) : Z * Z :=
  match o with
  | Plain p => picture_size p
  | Masked p _ _ _ _ => picture_size p
  end.

Record File : Type := mkFile {
  file_name : string;
  file_format : string;
  file_quality : Z;
  file_image : Output
}.

Record Host : Type := mkHost {
  (** whether [ImageFont.truetype(path, _)] can open [path] *)
  font_file : string -> bool;
  (** [draw.textbbox((0, 0), text, font=font)]; [None] where the Pillow of
      the host cannot measure text in that font and raises [ValueError],
      as older versions do for the default bitmap font *)
  text_bbox : Font -> string -> option (Z * Z * Z * Z);
  (** [math.sin] *)
  libm_sin : float -> float;
  (** whether [img.save(name, ...)] can create and fill the file [name] in
      the working directory *)
  can_save : string -> bool;
  (** the bytes the Pillow of the host writes for a picture, given the
      format and the quality: it rasterises the draw calls recorded in the
      picture and encodes the pixels *)
  encoder : string -> Z -> Output -> list Z
}.

(** The bytes of a saved file on a host. *)
Definition file_bytes (h : Host) (f : File) : list Z :=
  encoder h (file_format f) (file_quality f) (file_image f).

Record World : Type := mkWorld {
  host : Host;
  clock : Z;
  entropy : list Z;
  files : list File;
  stdout : list string
}.

Inductive result (A : Type) : Type :=
| Ok (a : A)
| Raise (e : exn).
Arguments Ok {A} _.
Arguments Raise {A} _.

Definition M (A : Type) : Type := World -> result A * World.

Definition ret {A} (a : A) : M A := fun w => (Ok a, w).

Definition bind {A B} (m : M A) (k : A -> M B) : M B :=
  fun w => match m w with
           | (Ok a, w') => k a w'
           | (Raise e, w') => (Raise e, w')
           end.

Definition raise {A} (e : exn) : M A := fun w => (Raise e, w).

(** [try: body  except: handler] with a bare [except]. *)
Definition try_except {A} (body handler : M A) : M A :=
  fun w => match body w with
           | (Ok a, w') => (Ok a, w')
           | (Raise _, w') => handler w'
           end.

Declare Scope script_scope.
Delimit Scope script_scope with script.
Notation "x <- m ;; k" := (bind m (fun x => k))
  (at level 100, m at next level, right associativity) : script_scope.
Notation "m ;;; k" := (bind m (fun _ => k))
  (at level 100, right associativity) : script_scope.
Local Open Scope script_scope.
Local Open Scope string_scope.

(** [ImageFont.truetype(path, size)] *)
Definition truetype (path : string) (size : Z) : M Font :=
  fun w => if font_file (host w) path then (Ok (TrueType path size), w)
           else (Raise OSError, w).

(** [ImageFont.load_default()] *)
Definition load_default : M Font := ret DefaultFont.

(** [draw.textbbox((0, 0), text, font=font)] *)
Definition textbbox (text : string) (font : Font) : M (Z * Z * Z * Z) :=
  fun w => match text_bbox (host w) font text with
           | Some bbox => (Ok bbox, w)
           | None => (Raise ValueError, w)
           end.

Definition sin (x : float) : M float :=
  fun w => (Ok (libm_sin (host w) x), w).

(** Where the ink of [draw.text(xy, text, font=font)] lies, given the box
    [textbbox((0, 0), text, font=font)] reports: Pillow moves the box by
    [xy]. *)
Definition ink_box (xy : Z * Z) (bbox : Z * Z * Z * Z) : Z * Z * Z * Z :=
  let '(x, y) := xy in
  let '(l, t, r, b) := bbox in
  (x + l, y + t, x + r, y + b)%Z.

(** [img.save(name, 'PNG', quality=95)]: the write is left to the host,
    and a write that fails raises [OSError] and leaves no picture. *)
Definition save (o : Output) (name : string) : M unit :=
  fun w => if can_save (host w) name
           then (Ok tt, mkWorld (host w) (clock w) (entropy w)
                                (files w ++ [mkFile name "PNG" 95 o])
                                (stdout w))
           else (Raise OSError, w).

Definition print (line : string) : M unit :=
  fun w => (Ok tt, mkWorld (host w) (clock w) (entropy w) (files w)
                           (stdout w ++ [line])).

Definition of_option {A} (e : exn) (o : option A) : M A :=
  match o with
  | Some a => ret a
  | None => raise e
  end.

(** A [for] loop whose body may raise, threading the loop state. *)
Fixpoint for_each {A S} (xs : list A) (body : S -> A -> M S) (s : S) : M S :=
  match xs with
  | [] => ret s
  | x :: rest => s' <- body s x ;; for_each rest body s'
  end.

Definition helvetica : string := "/System/Library/Fonts/Helvetica.ttc".

(** *** [create_app_assets.py] *)

Definition DARK_SLATE : string := "#0f172a".
Definition WHITE : string := "#ffffff".
Definition ACCENT_BLUE : string := "#3b82f6".
Definition LIGHT_GRAY : string := "#e2e8f0".

Definition create_app_icon : M unit :=
  let img := mkPicture (Solid 512 512 DARK_SLATE) [] in
  let book_width := 200%Z in
  let book_height := 260%Z in
  let book_x := ((512 - book_width) / 2)%Z in
  let book_y := ((512 - book_height) / 2 - 20)%Z in
  let img := draw img (Rectangle (book_x, book_y)
                                 (book_x + book_width, book_y + book_height)%Z
                                 ACCENT_BLUE (Some WHITE) 4) in
  let spine_width := 20%Z in
  let img := draw img (Rectangle (book_x, book_y)
                                 (book_x + spine_width, book_y + book_height)%Z
                                 "#2563eb" None 1) in
  let arc_y := (book_y + book_height - 40)%Z in
  let img := draw img (Arc (book_x - 30, arc_y - 60)%Z
                           (book_x + book_width + 30, arc_y + 60)%Z
                           200 340 WHITE 8) in
  font <- try_except (truetype helvetica 120) load_default ;;
  let text := "BB" in
  bbox <- textbbox text font ;;
  let '(l, t, r, b) := bbox in
  let text_width := (r - l)%Z in
  let text_height := (b - t)%Z in
  let text_x := (book_x + (book_width - text_width) / 2)%Z in
  let text_y := (book_y + (book_height - text_height) / 2 - 20)%Z in
  let img := draw img (Text (text_x, text_y) text WHITE font) in
  save (Plain img) "app_icon_512x512.png" ;;;
  print "Created app_icon_512x512.png".

Definition book_colors : list string :=
  [ACCENT_BLUE; "#8b5cf6"; "#10b981"; "#f59e0b"].

Definition features : list string :=
  ["AI-Powered Text Simplification";
   "Professional Audio Narration";
   "Interactive Learning Tools"].

Definition create_feature_graphic : M unit :=
  let img := mkPicture (Solid 1024 500 DARK_SLATE) [] in
  let img :=
    fold_left
      (fun img ic =>
         let '(i, color) := ic in
         let x := (50 + i * 40)%Z in
         let y := (150 + i * 10)%Z in
         draw img (Rectangle (x, y) (x + 30, y + 200)%Z color (Some WHITE) 2))
      (combine (Gradient.range 4) book_colors) img in
  fonts <- try_except
             (title_font <- truetype helvetica 80 ;;
              subtitle_font <- truetype helvetica 36 ;;
              ret (title_font, subtitle_font))
             (title_font <- load_default ;;
              subtitle_font <- load_default ;;
              ret (title_font, subtitle_font)) ;;
  let '(title_font, subtitle_font) := fonts in
  let img := draw img (Text (350, 150)%Z "BookBridge" WHITE title_font) in
  let img := draw img (Text (350, 250)%Z "Classic Literature Made Accessible"
                            LIGHT_GRAY subtitle_font) in
  st <- for_each features
          (fun st feature =>
             let '(img, feature_y) := st in
             let img := draw img (Ellipse (Int 350, Int feature_y)
                                          (Int 360, Int (feature_y + 10))
                                          ACCENT_BLUE) in
             (* the font is loaded here, outside of any [try] *)
             font <- truetype helvetica 24 ;;
             let img := draw img (Text (380, feature_y - 5)%Z feature
                                       LIGHT_GRAY font) in
             ret (img, (feature_y + 40)%Z))
          (img, 320%Z) ;;
  let '(img, _) := st in
  let bridge_x := 800%Z in
  let bridge_y := 250%Z in
  let img := draw img (Arc (bridge_x, bridge_y - 100)%Z
                           (bridge_x + 150, bridge_y + 100)%Z
                           200 340 ACCENT_BLUE 6) in
  save (Plain img) "feature_graphic_1024x500.png" ;;;
  print "Created feature_graphic_1024x500.png".

(** *** [create_beautiful_icon.py] *)

(** [math.pi] *)
Definition pi : float := S754_finite false 7074237752028440 (-51).

(** [int(8 + 4 * math.sin(i * math.pi / len(bridge_points)))] *)
Definition bridge_thickness (i : Z) : M Z :=
  s <- sin (of_int i * pi
            / of_int (Z.of_nat (List.length Icon.bridge_points)))%py ;;
  of_option ValueError (to_int (of_int 8 + of_int 4 * s)%py).

(** The pairs [(bridge_points[i], bridge_points[i + 1])] with their [i]. *)
Definition bridge_segments : list (Z * ((float * float) * (float * float))) :=
  combine (Gradient.range (Z.of_nat (List.length Icon.bridge_points) - 1))
          (combine Icon.bridge_points (tl Icon.bridge_points)).

Definition sparkle_positions : list (Z * Z) :=
  [(100, 100); (400, 80); (150, 400); (450, 420); (80, 300)]%Z.

Definition create_beautiful_app_icon : M unit :=
  let size := Icon.size in
  bg <- of_option ValueError Icon.background ;;
  let accent_blue := "#3b82f6" in
  let gold := "#fbbf24" in
  let white := "#ffffff" in
  let light_blue := "#93c5fd" in
  let bg := Icon.glow bg in
  let img := mkPicture (Raster bg) [] in
  let book_width := Icon.book_width in
  let book_height := Icon.book_height in
  let book_x := Icon.book_x in
  let book_y := Icon.book_y in
  let shadow_offset := 8%Z in
  let img := draw img (Rectangle
                         (book_x + shadow_offset, book_y + shadow_offset)%Z
                         (book_x + book_width + shadow_offset,
                          book_y + book_height + shadow_offset)%Z
                         "#000000" None 1) in
  let img := draw img (Rectangle (book_x, book_y)
                                 (book_x + book_width, book_y + book_height)%Z
                                 accent_blue (Some white) 3) in
  let spine_width := Icon.spine_width in
  let img := draw img (Rectangle (book_x, book_y)
                                 (book_x + spine_width, book_y + book_height)%Z
                                 "#2563eb" None 1) in
  let img := draw img (Rectangle (book_x + 3, book_y + 3)%Z
                                 (book_x + spine_width - 3,
                                  book_y + book_height - 3)%Z
                                 "#3b82f6" None 1) in
  let img :=
    fold_left
      (fun img i =>
         let offset := (i * 3)%Z in
         draw img (Rectangle (book_x + book_width - offset, book_y + offset)%Z
                             (book_x + book_width - offset + 2,
                              book_y + book_height + offset)%Z
                             "#f8fafc" None 1))
      (Gradient.range 3) img in
  let bridge_y := Icon.bridge_y in
  img <- for_each bridge_segments
           (fun img seg =>
              let '(i, ((x1, y1), (x2, y2))) := seg in
              thickness <- bridge_thickness i ;;
              ret (draw img (Line (Flt x1, Flt y1) (Flt x2, Flt y2)
                                  gold thickness)))
           img ;;
  let img :=
    fold_left
      (fun img pos =>
         let x := Icon.support_x pos in
         let y := Icon.support_y pos in
         let img := draw img (Line (Flt x, Flt y) (Flt x, Int (bridge_y + 30))
                                   gold 6) in
         draw img (Ellipse (Flt (x - of_int 8)%py, Int (bridge_y + 25))
                           (Flt (x + of_int 8)%py, Int (bridge_y + 35))
                           gold))
      Icon.support_positions img in
  fonts <- try_except
             (font <- truetype helvetica 32 ;;
              small_font <- truetype helvetica 18 ;;
              ret (font, small_font))
             (font <- load_default ;;
              small_font <- load_default ;;
              ret (font, small_font)) ;;
  let '(font, small_font) := fonts in
  let text := "BookBridge" in
  bbox <- textbbox text font ;;
  let '(l, _, r, _) := bbox in
  let text_width := (r - l)%Z in
  let text_x := (book_x + spine_width
                 + (book_width - spine_width - text_width) / 2)%Z in
  let text_y := (book_y + 60)%Z in
  let img := draw img (Text (text_x + 2, text_y + 2)%Z text "#000000" font) in
  let img := draw img (Text (text_x, text_y) text white font) in
  let subtitle := "Learn • Listen • Explore" in
  bbox <- textbbox subtitle small_font ;;
  let '(l, _, r, _) := bbox in
  let sub_width := (r - l)%Z in
  let sub_x := (book_x + spine_width
                + (book_width - spine_width - sub_width) / 2)%Z in
  let sub_y := (text_y + 50)%Z in
  let img := draw img (Text (sub_x + 1, sub_y + 1)%Z subtitle "#000000"
                            small_font) in
  let img := draw img (Text (sub_x, sub_y) subtitle light_blue small_font) in
  let img :=
    fold_left
      (fun img xy =>
         let '(x, y) := xy in
         draw img (Polygon [(x, y - 12); (x + 4, y - 4); (x + 12, y);
                            (x + 4, y + 4); (x, y + 12); (x - 4, y + 4);
                            (x - 12, y); (x - 4, y - 4)]%Z
                           gold))
      sparkle_positions img in
  save (Masked img (0, 0)%Z (size, size) 80 "white")
       "beautiful_app_icon_512x512.png" ;;;
  print "Created beautiful_app_icon_512x512.png".

(** *** A host on which the icon routine meets no failure *)

(** The argument of [math.sin] for segment [i]. *)
Definition bridge_angle (i : Z) : float :=
  (of_int i * pi / of_int (Z.of_nat (List.length Icon.bridge_points)))%py.

(** A binary64 float that is [+0.0] or lies in [[2^-64, 1]], which is where
    the sine of an angle of [[0, pi)] that is not tiny lies: a mantissa of
    53 bits, and an exponent that puts the value there. *)
Definition unit_interval (x : float) : bool :=
  match x with
  | S754_zero false => true
  | S754_finite false m e =>
      (Z.pos (digits2_pos m) =? 53)%Z
      && (-116 <=? e)%Z
      && ((e <=? -53)%Z || ((Z.pos m =? 2 ^ 52)%Z && (e =? -52)%Z))
  | _ => false
  end.

(** The fonts the routine ends up with. *)
Definition icon_fonts (h : Host) : Font * Font :=
  if font_file h helvetica then (TrueType helvetica 32, TrueType helvetica 18)
  else (DefaultFont, DefaultFont).

(** The sine of each of the hundred angles is in the unit interval, the
    two texts can be measured and the file can be written. *)
Definition icon_host_ok (h : Host) : Prop :=
  (forall i, (0 <= i < 100)%Z ->
             unit_interval (libm_sin h (bridge_angle i)) = true)
  /\ text_bbox h (fst (icon_fonts h)) "BookBridge" <> None
  /\ text_bbox h (snd (icon_fonts h)) "Learn • Listen • Explore" <> None
  /\ can_save h "beautiful_app_icon_512x512.png" = true.

(** *** Example hosts

    A machine without the Helvetica file, as any Linux machine is.  Its
    default font is six pixels wide per byte and eleven high; its sine is
    a Taylor polynomial of degree 15 evaluated in binary64; it can write
    every file, and what it writes starts with the PNG signature and the
    size of the picture. *)

Definition taylor_sin (x : float) : float :=
let x2 := (x * x)%py in
let term (k : Z) (t : float) : float :=
  (t * x2 / of_int ((2 * k) * (2 * k + 1)))%py in
let t1 := term 1 x in
let t2 := term 2 t1 in
let t3 := term 3 t2 in
let t4 := term 4 t3 in
let t5 := term 5 t4 in
let t6 := term 6 t5 in
let t7 := term 7 t6 in
(x - t1 + t2 - t3 + t4 - t5 + t6 - t7)%py.

Definition header_encoder (format : string) (quality : Z) (o : Output)
  : list Z :=
let '(w, h) := output_size o in
[137; 80; 78; 71; 13; 10; 26; 10; w / 256; w mod 256; h / 256; h mod 256]%Z.

Definition linux_host : Host :=
mkHost (fun _ => false)
       (fun _ text => Some (0, 0, 6 * Z.of_nat (String.length text), 11)%Z)
       taylor_sin
       (fun _ => true)
       header_encoder.

Definition mac_host : Host :=
mkHost (fun path => String.eqb path helvetica)
       (fun font text =>
          match font with
          | TrueType _ size =>
              Some (0, 0, (size / 2) * Z.of_nat (String.length text), size)%Z
          | DefaultFont =>
              Some (0, 0, 6 * Z.of_nat (String.length text), 11)%Z
          end)
       taylor_sin
       (fun _ => true)
       header_encoder.


Definition fresh_world (h : Host) : World := mkWorld h 0 [] [] [].

(** The same host later, with another clock, other entropy and files and
    lines left by earlier runs. *)
Definition used_world (h : Host) : World :=
mkWorld h 1762246800 [4; 8; 15]%Z
        [mkFile "app_icon_512x512.png" "PNG" 95
                (Plain (mkPicture (Solid 512 512 DARK_SLATE) []))]
        ["Created app_icon_512x512.png"].

(** *** What a run leaves behind *)

(** [w] after a run that saved [fs] and printed [ls]. *)
Definition extend (w : World) (fs : list File) (ls : list string) : World :=
  mkWorld (host w) (clock w) (entropy w) (files w ++ fs) (stdout w ++ ls).


(** The files a run added to the world. *)
Definition new_files (before after : World) : list File :=
  skipn (List.length (files before)) (files after).

End Script.

(** ** Values of binary64 floats

    The vocabulary in which the rounding of the float operations is
    stated: exact rational values, and "equal up to one rounding". *)

Module Binary64.

(** [2^e] as a rational. *)
Definition pow2 (e : Z) : Q := (2 ^ e)%Q.
Arguments pow2 : simpl never.

(** The record [SpecFloat] threads through its right shifts, read as the
    position of a rational [y] in [[m, m + 1)]: on [m], below the middle,
    on the middle, or above it. *)
Definition inbetween (mrs : shr_record) (y : Q) : Prop :=
let m := inject_Z (shr_m mrs) in
match shr_r mrs, shr_s mrs with
| false, false => (y == m)%Q
| false, true => (m < y /\ y < m + (1#2))%Q
| true, false => (y == m + (1#2))%Q
| true, true => (m + (1#2) < y /\ y < m + 1)%Q
end.

(** The unit roundoff [2^-53]. *)
Definition ulp_rel : Q := pow2 (-53).

(** [x] is a positive normal float of value [v]. *)
Definition fin (x : PyFloat.float) (v : Q) : Prop :=
exists m e, x = S754_finite false m e
            /\ Z.pos (digits2_pos m) = 53
            /\ (v == inject_Z (Z.pos m) * pow2 e)%Q.

(** A range of values far from underflow and overflow. *)
Definition inwin (v : Q) : Prop := (pow2 (-64) <= v /\ v <= pow2 64)%Q.

(** [x] is [+0.0] or a positive normal float in that range, of value [v]. *)
Definition rep (x : PyFloat.float) (v : Q) : Prop :=
(x = S754_zero false /\ (v == 0)%Q) \/ (fin x v /\ inwin v).

(** [v] is [X] up to one rounding. *)
Definition near (X v : Q) : Prop :=
(X * (1 - ulp_rel) <= v /\ v <= X * (1 + ulp_rel))%Q.

(** The error the five roundings of one gradient channel can add up to, at
    most: [2^-40]. *)
Definition eps : Q := 1 # 1099511627776.

End Binary64.

(** ** The specification's wording

    Definitions that follow the specification's sentences rather than the
    code, to compare the code against. *)

Module Spec.

Local Open Scope Q_scope.

(** The parabola [y = bridge_y - amplitude * (1 - t^2)] with amplitude 30,
    over the rationals. *)
Definition parabola (t : Q) : Q :=
  inject_Z Icon.bridge_y - 30 * (1 - t * t).

(** [t] linearly spaced over [[-1, 1]] in 101 samples. *)
Definition sample_t (i : Z) : Q := (inject_Z i - 50) / 50.

Definition sample_x (i : Z) : Q :=
  inject_Z (Icon.book_x - 40)
  + inject_Z i * inject_Z (Icon.book_width + 80) / 100.

(** A float within [2^-40] of a rational. *)
Definition close (x : PyFloat.float) (q : Q) : bool :=
  PyFloat.is_finite x
  && Qle_bool (Qabs (PyFloat.to_Q x - q)) (1 # 1099511627776).

(** The ordering the specification words for the glow: the smallest
    radius carries the highest alpha of the sequence. *)
Definition smallest_radius_most_opaque : Prop :=
  forall radius, In radius Icon.glow_radii ->
                 (Icon.glow_alpha radius <= Icon.glow_alpha 160)%Z.

(** *** The gradient *)

Local Open Scope Z_scope.

(** A colour whose channels are bytes. *)
Definition byte_color (c : Pillow.RGB) : Prop :=
let '(r, g, b) := c in 0 <= r <= 255 /\ 0 <= g <= 255 /\ 0 <= b <= 255.

(** The colour the loop of [create_gradient] computes at index [i]. *)
Definition row_color (c1 c2 : Pillow.RGB) (i extent : Z) : Pillow.RGB :=
let '(r1, g1, b1) := c1 in
let '(r2, g2, b2) := c2 in
let ratio := PyFloat.int_truediv i extent in
match Gradient.channel r1 r2 ratio, Gradient.channel g1 g2 ratio,
      Gradient.channel b1 b2 ratio with
| Some r, Some g, Some b => (r, g, b)
| _, _, _ => (0, 0, 0)
end.

(** The numerator of the exact interpolation
    [c1 * (1 - i/extent) + c2 * (i/extent)] over the denominator [extent]. *)
Definition lerp_num (c1 c2 i extent : Z) : Z := c1 * (extent - i) + c2 * i.

(** What [int(c1 * (1 - i/extent) + c2 * (i/extent))] can be, against the
    exact interpolation [lerp_num c1 c2 i extent / extent]: its floor, or
    one less where the interpolation is an integer. *)
Definition truncated_lerp (c1 c2 i extent z : Z) : Prop :=
Gradient.channel c1 c2 (PyFloat.int_truediv i extent) = Some z
/\ lerp_num c1 c2 i extent / extent - 1 <= z <= lerp_num c1 c2 i extent / extent
/\ (lerp_num c1 c2 i extent mod extent <> 0
    -> z = lerp_num c1 c2 i extent / extent)
/\ 0 <= z <= 255
/\ Z.min c1 c2 - 1 <= z <= Z.max c1 c2
/\ (c1 <> c2 -> Z.min c1 c2 <= z).

(** Python's [round]: to nearest, ties to even. *)
Definition round_half_even (q : Q) : Z :=
let f := Qfloor q in
match Qcompare (q - inject_Z f) (1 # 2) with
| Lt => f
| Gt => f + 1
| Eq => if Z.even f then f else f + 1
end.

(** [round(c1 * (1 - t) + c2 * t)] clamped to [[0, 255]], [t = i / extent],
    over the rationals: the specification's value of a gradient channel. *)
Definition rounded_lerp (c1 c2 i extent : Z) : Z :=
let t := (inject_Z i / inject_Z extent)%Q in
Pillow.clip8 (round_half_even (inject_Z c1 * (1 - t) + inject_Z c2 * t)%Q).

End Spec.

(** ** The usual rendering of a colour

    [hex_to_rgb] reads colours; this is how they are written, to state
    what it reads back. *)

Module HexCodec.

(** The hexadecimal digit of [n], [0 <= n < 16]. *)
Definition digit_char (upper : bool) (n : Z) : ascii :=
ascii_of_nat
  (Z.to_nat (if n <? 10 then 48 + n
             else if upper then 55 + n else 87 + n)).

(** A byte as two digits, high nibble first. *)
Definition byte_hex (upper : bool) (v : Z) : string :=
String (digit_char upper (v / 16))
       (String (digit_char upper (v mod 16)) EmptyString).

(** ["#rrggbb"] *)
Definition color_hex (upper : bool) (c : Pillow.RGB) : string :=
let '(r, g, b) := c in
String "#"%char (byte_hex upper r ++ byte_hex upper g ++ byte_hex upper b).

(** A string of ASCII characters: its bytes are its characters, as in
    a Python [str] without characters beyond U+007F. *)
Fixpoint is_ascii (s : string) : bool :=
match s with
| EmptyString => true
| String c rest => (nat_of_ascii c <? 128)%nat && is_ascii rest
end.

End HexCodec.

(** ** The [__main__] block of [create_app_assets.py] *)

Module Assets.

Import Script.
Local Open Scope script_scope.
Local Open Scope string_scope.

Definition newline : string := String (ascii_of_nat 10) EmptyString.

(** [cwd] is what [os.getcwd()] returns. *)
Definition main (cwd : string) : M unit :=
create_app_icon ;;;
create_feature_graphic ;;;
print (newline ++ "Both assets have been created successfully!") ;;;
print ("Files saved in: " ++ cwd).

End Assets.

(** ** One channel of the glow *)

Module GlowChannel.

(** What Pillow's blend makes of one channel [d] of an opaque pixel under
    a source channel [s] of alpha [sa]. *)
Definition blend_channel (d s sa : Z) : Z :=
let '(r, _, _, _) := Pillow.blend_px (d, 0, 0, 255) (s, 0, 0, sa) in r.

(** [z] lies between [d] and [s], whichever is larger. *)
Definition between (d s z : Z) : Prop := Z.min d s <= z <= Z.max d s.

(** The glow loop over any rasteriser: [region radius x y] tells whether
    [overlay_draw.ellipse] paints pixel [(x, y)] of the overlay for that
    radius.  A pixel of the overlay is left transparent or set to the
    fill, nothing in between, since the overlay is drawn on without
    blending; which pixels along the border are set is the rasteriser's
    choice. *)
Definition glow_step_on (region : Z -> Z -> Z -> bool)
           (bg : Pillow.Image Pillow.RGB) (radius : Z)
  : Pillow.Image Pillow.RGB :=
Pillow.convert_rgb
  (Pillow.alpha_composite
     (Pillow.convert_rgba bg)
     (Pillow.paint (Pillow.new Icon.size Icon.size (0, 0, 0, 0))
                   (region radius) (Icon.glow_fill radius))).

Definition glow_on (region : Z -> Z -> Z -> bool)
           (bg : Pillow.Image Pillow.RGB) : Pillow.Image Pillow.RGB :=
fold_left (glow_step_on region) Icon.glow_radii bg.

(** The rasteriser of [Pillow.ellipse]: the exact disc. *)
Definition disc (radius x y : Z) : bool :=
Pillow.in_ellipse (Icon.center_x - radius) (Icon.center_y - radius)
                  (Icon.center_x + radius) (Icon.center_y + radius) x y.

End GlowChannel.

(** ** Ways a computation can behave *)

Module Effects.

Import Script.

(** [m] never ends with [OSError]. *)
Definition never_oserror {A} (m : M A) : Prop :=
forall w, fst (m w) <> Raise OSError.

(** [m] leaves the world as it found it. *)
Definition silent {A} (m : M A) : Prop :=
forall w, snd (m w) = w.

(** The ends a run from [w] can have when the routine computes, saves one
    picture as [name] and prints [line]: the picture, of size [size], is
    saved and the line printed; or a [ValueError] came before the save; or
    the host refused the save.  In the last two nothing is written. *)
Definition saved_or_failed (name line : string) (size : Z * Z) (w : World)
           (run : result unit * World) : Prop :=
(exists img,
   run = (Ok tt, extend w [mkFile name "PNG" 95 img] [line])
   /\ output_size img = size
   /\ can_save (host w) name = true)
\/ run = (Raise ValueError, w)
\/ (run = (Raise OSError, w) /\ can_save (host w) name = false).

End Effects.

(** * Theorems *)

(** ** Ranges and loops *)

Section RangeFacts.

Lemma range_In (n : Z) (i : Z) :
  In i (Gradient.range n) <-> 0 <= i < n.
Proof.
  unfold Gradient.range. rewrite in_map_iff. split.
  - intros [k [<- Hk]]. apply in_seq in Hk. lia.
  - intros Hi. exists (Z.to_nat i). split; [lia|]. apply in_seq. lia.
Qed.

Lemma range_nth_error (n : nat) (i : Z) :
  0 <= i < Z.of_nat n ->
  nth_error (Icon.range n) (Z.to_nat i) = Some i.
Proof.
  intros Hi. unfold Icon.range.
  rewrite nth_error_map, nth_error_seq.
  destruct (Nat.ltb_spec (Z.to_nat i) n) as [_|Hge]; [|lia].
  simpl. f_equal. lia.
Qed.

(** A checked property of every index of [range(n)] holds of each. *)
Lemma range_forallb (n : nat) (P : Z -> bool) :
  forallb P (Icon.range n) = true ->
  forall i, 0 <= i < Z.of_nat n -> P i = true.
Proof.
  intros Hall i Hi. rewrite forallb_forall in Hall. apply Hall.
  eapply nth_error_In, range_nth_error, Hi.
Qed.

(** A loop that appends one element per iteration builds a [map]. *)
Lemma append_loop_map {A B} (f : A -> B) (xs : list A) (acc : list B) :
  fold_left (fun pts i => pts ++ [f i]) xs acc = acc ++ map f xs.
Proof.
  revert acc. induction xs as [|x xs IH]; intros acc; simpl.
  - now rewrite app_nil_r.
  - rewrite IH, <- app_assoc. reflexivity.
Qed.

End RangeFacts.

Lemma same_eq (x y : PyFloat.float) : PyFloat.same x y = true -> x = y.
Proof.
  destruct x as [s1|s1| |s1 m1 e1], y as [s2|s2| |s2 m2 e2]; simpl;
    try discriminate; try reflexivity.
  - intros H. apply Bool.eqb_prop in H. now subst.
  - intros H. apply Bool.eqb_prop in H. now subst.
  - intros H. apply andb_prop in H. destruct H as [H He].
    apply andb_prop in H. destruct H as [Hs Hm].
    apply Bool.eqb_prop in Hs. apply Pos.eqb_eq in Hm. apply Z.eqb_eq in He.
    now subst.
Qed.

(** ** Rounding of the binary64 operations

    Each of [SpecFloat]'s operations returns its exact result up to one
    rounding to nearest, as long as the values stay far from underflow
    and overflow. *)

Import Binary64 Spec.

Section Pow2.
Local Open Scope Q_scope.

Lemma pow2_pos e : 0 < pow2 e.
Proof. apply Qpower_0_lt. reflexivity. Qed.

Lemma pow2_add a b : pow2 (a + b) == pow2 a * pow2 b.
Proof. apply Qpower_plus. discriminate. Qed.

Lemma pow2_0 : pow2 0 == 1.
Proof. reflexivity. Qed.

Lemma pow2_1 : pow2 1 == 2.
Proof. reflexivity. Qed.

Lemma pow2_succ a : pow2 (a + 1) == 2 * pow2 a.
Proof. rewrite pow2_add, pow2_1. ring. Qed.

Lemma pow2_pred a : pow2 (a - 1) == pow2 a / 2.
Proof.
  assert (H : pow2 a == 2 * pow2 (a - 1)).
  { rewrite <- pow2_succ. now replace (a - 1 + 1)%Z with a by lia. }
  rewrite H. field.
Qed.

Lemma pow2_le a b : (a <= b)%Z -> pow2 a <= pow2 b.
Proof. intros H. apply Qpower_le_compat_l; [exact H | discriminate]. Qed.

Lemma pow2_lt a b : (a < b)%Z -> pow2 a < pow2 b.
Proof. intros H. apply Qpower_lt_compat_l; [exact H | reflexivity]. Qed.

Lemma pow2_lt_inv a b : pow2 a < pow2 b -> (a < b)%Z.
Proof.
  intros H. destruct (Z.lt_ge_cases a b) as [Hlt|Hge]; [exact Hlt|].
  apply pow2_le in Hge. lra.
Qed.

Lemma pow2_Z e : (0 <= e)%Z -> pow2 e == inject_Z (2 ^ e).
Proof. intros H. unfold pow2. now rewrite Zpower_Qpower. Qed.

Lemma pow2_opp e : pow2 (- e) == / pow2 e.
Proof. apply Qpower_opp. Qed.

End Pow2.

Section ShiftStep.
Local Open Scope Q_scope.

Lemma inject_xO p : inject_Z (Z.pos p~0) == 2 * inject_Z (Z.pos p).
Proof. rewrite Pos2Z.inj_xO, inject_Z_mult. reflexivity. Qed.

Lemma inject_xI p : inject_Z (Z.pos p~1) == 2 * inject_Z (Z.pos p) + 1.
Proof. rewrite Pos2Z.inj_xI, inject_Z_plus, inject_Z_mult. reflexivity. Qed.

Lemma shr_1_inbetween mrs y :
  (0 <= shr_m mrs)%Z -> inbetween mrs y ->
  inbetween (shr_1 mrs) (y * (1#2)) /\ (0 <= shr_m (shr_1 mrs))%Z.
Proof.
  destruct mrs as [m r s]. simpl. intros Hm.
  destruct m as [|p|p]; [| |lia].
  - change (inject_Z 0) with 0.
    destruct r, s; unfold inbetween; simpl; change (inject_Z 0) with 0;
      intros H; split; try lia; lra.
  - destruct p as [p|p|]; destruct r, s; unfold inbetween; simpl;
      rewrite ?inject_xO, ?inject_xI;
      change (inject_Z 0) with 0; change (inject_Z 1) with 1;
      intros H; split; try lia; lra.
Qed.

End ShiftStep.

Section Shifts.
Local Open Scope Q_scope.

Lemma inbetween_compat mrs y y' : y == y' -> inbetween mrs y -> inbetween mrs y'.
Proof.
  destruct mrs as [m [|] [|]]; unfold inbetween; simpl; intros E H; lra.
Qed.

Lemma inbetween_bounds mrs y :
  inbetween mrs y -> inject_Z (shr_m mrs) <= y /\ y < inject_Z (shr_m mrs) + 1.
Proof.
  destruct mrs as [m [|] [|]]; unfold inbetween; simpl; intros H; lra.
Qed.

Lemma pow2_m1 : pow2 (-1) == 1 # 2.
Proof. reflexivity. Qed.

Lemma iter_pos_inbetween n : forall mrs y,
  (0 <= shr_m mrs)%Z -> inbetween mrs y ->
  inbetween (iter_pos shr_1 n mrs) (y * pow2 (- Z.pos n))
  /\ (0 <= shr_m (iter_pos shr_1 n mrs))%Z.
Proof.
  induction n as [n IH|n IH|]; intros mrs y Hm Hy; cbn [iter_pos].
  - destruct (shr_1_inbetween mrs y Hm Hy) as [H1 Hm1].
    destruct (IH _ _ Hm1 H1) as [H2 Hm2].
    destruct (IH _ _ Hm2 H2) as [H3 Hm3].
    split; [|exact Hm3].
    eapply inbetween_compat; [|exact H3].
    replace (- Z.pos n~1)%Z with (-1 + (- Z.pos n + - Z.pos n))%Z by lia.
    rewrite !pow2_add, pow2_m1. ring.
  - destruct (IH _ _ Hm Hy) as [H2 Hm2].
    destruct (IH _ _ Hm2 H2) as [H3 Hm3].
    split; [|exact Hm3].
    eapply inbetween_compat; [|exact H3].
    replace (- Z.pos n~0)%Z with (- Z.pos n + - Z.pos n)%Z by lia.
    rewrite !pow2_add. ring.
  - destruct (shr_1_inbetween mrs y Hm Hy) as [H1 Hm1].
    split; [|exact Hm1].
    eapply inbetween_compat; [|exact H1].
    change (- Z.pos 1)%Z with (Z.neg 1). rewrite pow2_m1. reflexivity.
Qed.

Lemma shr_inbetween mrs e n y :
  (0 <= shr_m mrs)%Z -> inbetween mrs y ->
  inbetween (fst (shr mrs e n)) (y * pow2 (- Z.max n 0))
  /\ (0 <= shr_m (fst (shr mrs e n)))%Z
  /\ snd (shr mrs e n) = (e + Z.max n 0)%Z.
Proof.
  intros Hm Hy. destruct n as [|p|p]; simpl.
  - split; [|split; [exact Hm | lia]].
    eapply inbetween_compat; [|exact Hy]. rewrite pow2_0. ring.
  - destruct (iter_pos_inbetween p mrs y Hm Hy) as [H1 H2].
    split; [exact H1 | split; [exact H2 | reflexivity]].
  - split; [|split; [exact Hm | lia]].
    eapply inbetween_compat; [|exact Hy]. rewrite pow2_0. ring.
Qed.

Lemma inbetween_of_loc_exact m : inbetween (shr_record_of_loc m loc_Exact) (inject_Z m).
Proof. unfold inbetween. simpl. reflexivity. Qed.

(** Rounding to nearest even moves by at most one half. *)
Lemma round_nearest_even_spec mrs y :
  inbetween mrs y ->
  let m' := round_nearest_even (shr_m mrs) (loc_of_shr_record mrs) in
  (shr_m mrs <= m' <= shr_m mrs + 1)%Z
  /\ inject_Z m' - (1#2) <= y /\ y <= inject_Z m' + (1#2).
Proof.
  destruct mrs as [m [|] [|]]; unfold inbetween; simpl; intros H.
  - rewrite inject_Z_plus. change (inject_Z 1) with 1. split; [lia|lra].
  - destruct (Z.even m); [|rewrite inject_Z_plus; change (inject_Z 1) with 1];
      (split; [lia|lra]).
  - split; [lia|lra].
  - split; [lia|lra].
Qed.

End Shifts.

Section Digits.

Lemma digits2_size p : digits2_pos p = Pos.size p.
Proof. induction p; simpl; congruence. Qed.

Lemma digits2_bounds p :
  2 ^ (Z.pos (digits2_pos p) - 1) <= Z.pos p < 2 ^ Z.pos (digits2_pos p).
Proof.
  rewrite digits2_size.
  pose proof (Pos.size_gt p) as Hgt. pose proof (Pos.size_le p) as Hle.
  assert (Hgt' : Z.pos p < 2 ^ Z.pos (Pos.size p)).
  { rewrite <- Pos2Z.inj_pow. lia. }
  assert (Hle' : 2 ^ Z.pos (Pos.size p) <= 2 * Z.pos p).
  { rewrite <- Pos2Z.inj_pow. change (2 * Z.pos p) with (Z.pos p~0). lia. }
  split; [|exact Hgt'].
  replace (Z.pos (Pos.size p)) with (Z.pos (Pos.size p) - 1 + 1) in Hle' by lia.
  rewrite Z.pow_add_r in Hle' by lia. lia.
Qed.

Lemma digits2_unique p d :
  2 ^ (d - 1) <= Z.pos p < 2 ^ d -> 0 < d -> Z.pos (digits2_pos p) = d.
Proof.
  intros [Hlo Hhi] Hd. pose proof (digits2_bounds p) as [Hlo' Hhi'].
  assert (H1 : d - 1 < Z.pos (digits2_pos p)).
  { apply (Z.pow_lt_mono_r_iff 2); lia. }
  assert (H2 : Z.pos (digits2_pos p) - 1 < d).
  { apply (Z.pow_lt_mono_r_iff 2); lia. }
  lia.
Qed.

End Digits.

Section Round.
Local Open Scope Q_scope.

Lemma fexp_normal k : (-1021 <= k)%Z -> fexp 53 1024 k = (k - 53)%Z.
Proof. unfold fexp, emin. lia. Qed.

Lemma pow2_mul_eq a b c : (a + b = c)%Z -> pow2 a * pow2 b == pow2 c.
Proof. intros <-. now rewrite pow2_add. Qed.

Lemma shr_m_of_loc m l : shr_m (shr_record_of_loc m l) = m.
Proof. destruct l as [|[]]; reflexivity. Qed.

Lemma pow2_inject k : (0 <= k)%Z -> inject_Z (2 ^ k) == pow2 k.
Proof. intros H. now rewrite pow2_Z. Qed.

Lemma round_aux_correct (m : positive) (e : Z) (l : location) (x : Q) :
  inbetween (shr_record_of_loc (Z.pos m) l) (x * pow2 (- e)) ->
  (53 <= Z.pos (digits2_pos m))%Z ->
  (-1021 <= Z.pos (digits2_pos m) + e <= 1023)%Z ->
  exists m' e',
    binary_round_aux 53 1024 false (Z.pos m) e l = S754_finite false m' e'
    /\ Z.pos (digits2_pos m') = 53%Z
    /\ (Z.pos (digits2_pos m) + e - 53 <= e' <= Z.pos (digits2_pos m) + e - 52)%Z
    /\ inject_Z (Z.pos m') * pow2 e' - pow2 (Z.pos (digits2_pos m) + e - 54) <= x
    /\ x <= inject_Z (Z.pos m') * pow2 e' + pow2 (Z.pos (digits2_pos m) + e - 54)
    /\ pow2 (Z.pos (digits2_pos m) + e - 1) <= x.
Proof.
  intros Hin Hd Hrange.
  pose proof (digits2_bounds m) as [Hmlo Hmhi].
  set (d := Z.pos (digits2_pos m)) in *.
  (* bounds on the scaled value *)
  pose proof (inbetween_bounds _ _ Hin) as [Hylo Hyhi].
  rewrite shr_m_of_loc in Hylo, Hyhi.
  assert (Hmlo' : pow2 (d - 1) <= inject_Z (Z.pos m)).
  { rewrite <- pow2_inject by lia. now rewrite <- Zle_Qle. }
  assert (Hmhi' : inject_Z (Z.pos m) + 1 <= pow2 d).
  { rewrite <- pow2_inject by lia. change 1 with (inject_Z 1).
    rewrite <- inject_Z_plus, <- Zle_Qle. lia. }
  (* first shift *)
  unfold binary_round_aux, shr_fexp.
  change (Zdigits2 (Z.pos m)) with d.
  rewrite fexp_normal by lia.
  pose proof (shr_inbetween (shr_record_of_loc (Z.pos m) l) e (d + e - 53 - e)
                            (x * pow2 (- e))) as Hshr.
  rewrite shr_m_of_loc in Hshr. specialize (Hshr ltac:(lia) Hin).
  destruct (shr (shr_record_of_loc (Z.pos m) l) e (d + e - 53 - e))
    as [mrs1 e1] eqn:E1.
  cbn [fst snd] in Hshr. destruct Hshr as (H1 & Hm1 & He1).
  replace (Z.max (d + e - 53 - e) 0) with (d - 53)%Z in * by lia.
  replace (e + (d - 53))%Z with (d + e - 53)%Z in He1 by lia.
  subst e1.
  set (y1 := x * pow2 (- e) * pow2 (- (d - 53))) in *.
  set (P := pow2 (d + e - 53)).
  assert (HP : 0 < P) by apply pow2_pos.
  assert (Hx : x == y1 * P).
  { unfold y1, P. rewrite <- !Qmult_assoc.
    rewrite (pow2_mul_eq (- (d - 53)) (d + e - 53) e) by lia.
    rewrite (pow2_mul_eq (- e) e 0) by lia. rewrite pow2_0. ring. }
  assert (Hy1lo : pow2 52 <= y1).
  { unfold y1. rewrite <- (pow2_mul_eq (d - 1) (- (d - 53)) 52) by lia.
    apply Qmult_le_compat_r; [lra | apply Qlt_le_weak, pow2_pos]. }
  assert (Hy1hi : y1 < pow2 53).
  { unfold y1. rewrite <- (pow2_mul_eq d (- (d - 53)) 53) by lia.
    apply Qlt_le_trans with ((inject_Z (Z.pos m) + 1) * pow2 (- (d - 53))).
    - apply Qmult_lt_compat_r; [apply pow2_pos | lra].
    - apply Qmult_le_compat_r; [lra | apply Qlt_le_weak, pow2_pos]. }
  pose proof (inbetween_bounds _ _ H1) as [Hm1lo Hm1hi].
  pose proof (round_nearest_even_spec _ _ H1) as Hrne.
  cbv zeta in Hrne. destruct Hrne as (Hm' & Hlo' & Hhi').
  set (m' := round_nearest_even (shr_m mrs1) (loc_of_shr_record mrs1)) in *.
  assert (Hm1int : (2 ^ 52 <= shr_m mrs1 < 2 ^ 53)%Z).
  { rewrite <- (pow2_inject 52) in Hy1lo by lia.
    rewrite <- (pow2_inject 53) in Hy1hi by lia.
    split.
    - assert (H : inject_Z (2 ^ 52) < inject_Z (shr_m mrs1 + 1)).
      { rewrite inject_Z_plus. change (inject_Z 1) with 1. lra. }
      rewrite <- Zlt_Qlt in H. lia.
    - rewrite Zlt_Qlt. lra. }
  assert (Hxlo : pow2 (d + e - 1) <= x).
  { rewrite Hx. rewrite <- (pow2_mul_eq 52 (d + e - 53) (d + e - 1)) by lia.
    apply Qmult_le_compat_r; [exact Hy1lo | apply Qlt_le_weak, HP]. }
  assert (Hhalf : pow2 (d + e - 54) == (1#2) * P).
  { unfold P. rewrite <- pow2_m1. apply Qeq_sym, pow2_mul_eq. lia. }
  assert (Herr : inject_Z m' * P - pow2 (d + e - 54) <= x
                 /\ x <= inject_Z m' * P + pow2 (d + e - 54)).
  { rewrite Hhalf, Hx. split.
    - setoid_replace (inject_Z m' * P - (1 # 2) * P)
        with ((inject_Z m' - (1#2)) * P) by ring.
      apply Qmult_le_compat_r; [exact Hlo' | apply Qlt_le_weak, HP].
    - setoid_replace (inject_Z m' * P + (1 # 2) * P)
        with ((inject_Z m' + (1#2)) * P) by ring.
      apply Qmult_le_compat_r; [exact Hhi' | apply Qlt_le_weak, HP]. }
  (* second shift *)
  destruct (Z.eq_dec m' (2 ^ 53)) as [Hcarry|Hnocarry].
  - rewrite Hcarry in *. change (Zdigits2 (2 ^ 53)) with 54%Z.
    rewrite fexp_normal by lia.
    replace (54 + (d + e - 53) - 53 - (d + e - 53))%Z with 1%Z by lia.
    cbn [shr shr_record_of_loc iter_pos shr_1 Z.pow Z.pow_pos Pos.iter Z.mul
         Pos.mul shr_m fst snd].
    replace (d + e - 53 + 1 <=? 1024 - 53)%Z with true
      by (symmetry; apply Z.leb_le; lia).
    exists 4503599627370496%positive, (d + e - 53 + 1)%Z.
    split; [reflexivity|]. split; [reflexivity|]. split; [lia|].
    assert (Hv : inject_Z 4503599627370496 * pow2 (d + e - 53 + 1)
                 == inject_Z (2 ^ 53) * P).
    { rewrite pow2_succ. unfold P. change (inject_Z (2 ^ 53)) with
        (inject_Z 9007199254740992).
      change (inject_Z 9007199254740992) with (2 * inject_Z 4503599627370496).
      ring. }
    rewrite Hv. tauto.
  - destruct m' as [|p|p] eqn:Em'; [lia| |lia].
    assert (Hp : Z.pos (digits2_pos p) = 53%Z).
    { apply digits2_unique; lia. }
    change (Zdigits2 (Z.pos p)) with (Z.pos (digits2_pos p)). rewrite Hp.
    rewrite fexp_normal by lia.
    replace (53 + (d + e - 53) - 53 - (d + e - 53))%Z with 0%Z by lia.
    cbn [shr shr_record_of_loc shr_m fst snd].
    replace (d + e - 53 <=? 1024 - 53)%Z with true
      by (symmetry; apply Z.leb_le; lia).
    exists p, (d + e - 53)%Z.
    split; [reflexivity|]. split; [exact Hp|]. split; [lia|].
    fold P. tauto.
Qed.

End Round.

Section RoundToFormat.
Local Open Scope Q_scope.

Lemma pow2_le_inv a b : pow2 a <= pow2 b -> (a <= b)%Z.
Proof.
  intros H. destruct (Z.le_gt_cases a b) as [Hle|Hgt]; [exact Hle|].
  apply pow2_lt in Hgt. lra.
Qed.

Lemma mant_bounds m e :
  Z.pos (digits2_pos m) = 53%Z ->
  pow2 (52 + e) <= inject_Z (Z.pos m) * pow2 e
  /\ inject_Z (Z.pos m) * pow2 e < pow2 (53 + e).
Proof.
  intros Hd. pose proof (digits2_bounds m) as [Hlo Hhi]. rewrite Hd in Hlo, Hhi.
  rewrite <- (pow2_mul_eq 52 e (52 + e)), <- (pow2_mul_eq 53 e (53 + e)) by lia.
  rewrite <- (pow2_inject 52), <- (pow2_inject 53) by lia.
  split.
  - apply Qmult_le_compat_r; [|apply Qlt_le_weak, pow2_pos].
    rewrite <- Zle_Qle. exact Hlo.
  - apply Qmult_lt_compat_r; [apply pow2_pos|].
    rewrite <- Zlt_Qlt. exact Hhi.
Qed.

(** The exponent of a normal float follows from bounds on its value. *)
Lemma exp_of_value m e v lo hi :
  Z.pos (digits2_pos m) = 53%Z ->
  v == inject_Z (Z.pos m) * pow2 e ->
  pow2 lo <= v -> v <= pow2 hi ->
  (lo - 53 < e <= hi - 52)%Z.
Proof.
  intros Hd Hv Hlo Hhi. destruct (mant_bounds m e Hd) as [H1 H2].
  rewrite <- Hv in H1, H2. split.
  - assert (H : pow2 lo < pow2 (53 + e)) by lra.
    apply pow2_lt_inv in H. lia.
  - assert (H : pow2 (52 + e) <= pow2 hi) by lra.
    apply pow2_le_inv in H. lia.
Qed.

Lemma near_of_abs X v k :
  pow2 (k - 1) <= X ->
  v - pow2 (k - 54) <= X -> X <= v + pow2 (k - 54) ->
  near X v.
Proof.
  intros HX H1 H2. unfold near, ulp_rel.
  assert (E : pow2 (k - 54) == pow2 (k - 1) * pow2 (-53)).
  { apply Qeq_sym, pow2_mul_eq. lia. }
  assert (Hu : 0 < pow2 (-53)) by apply pow2_pos.
  assert (Hle : pow2 (k - 54) <= X * pow2 (-53)).
  { rewrite E. apply Qmult_le_compat_r; [exact HX | lra]. }
  split; lra.
Qed.

Lemma round_aux_exact m e :
  Z.pos (digits2_pos m) = 53%Z -> (-1021 <= 53 + e <= 1024)%Z ->
  binary_round_aux 53 1024 false (Z.pos m) e loc_Exact = S754_finite false m e.
Proof.
  intros Hd He. unfold binary_round_aux, shr_fexp.
  change (Zdigits2 (Z.pos m)) with (Z.pos (digits2_pos m)). rewrite Hd.
  rewrite fexp_normal by lia.
  replace (53 + e - 53 - e)%Z with 0%Z by lia.
  cbn [shr shr_record_of_loc shr_m loc_of_shr_record shr_r shr_s
       round_nearest_even].
  change (Zdigits2 (Z.pos m)) with (Z.pos (digits2_pos m)). rewrite Hd.
  rewrite fexp_normal by lia.
  replace (53 + e - 53 - e)%Z with 0%Z by lia.
  cbn [shr shr_record_of_loc shr_m].
  replace (e <=? 1024 - 53)%Z with true by (symmetry; apply Z.leb_le; lia).
  reflexivity.
Qed.

Lemma iter_xO_value m k :
  Z.pos (Pos.iter xO m k) = (Z.pos m * 2 ^ Z.pos k)%Z.
Proof.
  change (Pos.iter xO m k) with (Zpower.shift_pos k m).
  rewrite Zpower.shift_pos_correct, Zpower.Zpower_pos_nat.
  rewrite Zpower.Zpower_nat_Z, positive_nat_Z. lia.
Qed.

Lemma digits_shift m k :
  Z.pos (digits2_pos (Pos.iter xO m k)) = (Z.pos (digits2_pos m) + Z.pos k)%Z.
Proof.
  apply digits2_unique; [|lia].
  rewrite iter_xO_value. pose proof (digits2_bounds m) as [Hlo Hhi].
  replace (Z.pos (digits2_pos m) + Z.pos k - 1)%Z
    with (Z.pos (digits2_pos m) - 1 + Z.pos k)%Z by lia.
  rewrite !Z.pow_add_r by lia.
  assert (0 < 2 ^ Z.pos k)%Z by (apply Z.pow_pos_nonneg; lia).
  split; nia.
Qed.

(** [binary_round] of an integer mantissa: one rounding, exact when the
    mantissa fits in 53 bits. *)
Lemma binary_round_correct (m : positive) (e : Z) :
  let d := Z.pos (digits2_pos m) in
  (-1021 <= d + e <= 1023)%Z ->
  exists m' e',
    binary_round 53 1024 false m e = S754_finite false m' e'
    /\ Z.pos (digits2_pos m') = 53%Z
    /\ near (inject_Z (Z.pos m) * pow2 e) (inject_Z (Z.pos m') * pow2 e')
    /\ ((d <= 53)%Z -> inject_Z (Z.pos m') * pow2 e' == inject_Z (Z.pos m) * pow2 e).
Proof.
  intros d Hrange. unfold binary_round.
  fold d. rewrite fexp_normal by lia. unfold shl_align.
  destruct (d + e - 53 - e)%Z as [|k|k] eqn:Ek.
  - (* exactly 53 digits *)
    assert (Hd : d = 53%Z) by lia.
    exists m, e. rewrite round_aux_exact by (fold d; lia).
    split; [reflexivity|]. split; [exact Hd|]. split; [|reflexivity].
    unfold near, ulp_rel.
    assert (0 < pow2 (-53)) by apply pow2_pos.
    assert (0 < inject_Z (Z.pos m) * pow2 e).
    { apply Qmult_lt_0_compat; [reflexivity | apply pow2_pos]. }
    split; nra.
  - (* more than 53 digits: one rounding *)
    destruct (round_aux_correct m e loc_Exact (inject_Z (Z.pos m) * pow2 e))
      as (m' & e' & Hr & Hd' & He' & Hlo & Hhi & Hx).
    + eapply inbetween_compat; [|apply inbetween_of_loc_exact].
      rewrite <- Qmult_assoc, (pow2_mul_eq e (- e) 0) by lia.
      rewrite pow2_0. ring.
    + fold d. lia.
    + fold d. lia.
    + exists m', e'. split; [exact Hr|]. split; [exact Hd'|]. split.
      * apply (near_of_abs _ _ (d + e)); assumption.
      * intros Hle. lia.
  - (* fewer than 53 digits: padded, exact *)
    assert (Hk : Z.pos k = (53 - d)%Z) by lia.
    assert (Hd' : Z.pos (digits2_pos (Pos.iter xO m k)) = 53%Z).
    { rewrite digits_shift. fold d. lia. }
    exists (Pos.iter xO m k), (d + e - 53)%Z.
    rewrite round_aux_exact by (try exact Hd'; lia).
    assert (Hv : inject_Z (Z.pos (Pos.iter xO m k)) * pow2 (d + e - 53)
                 == inject_Z (Z.pos m) * pow2 e).
    { rewrite iter_xO_value, inject_Z_mult, pow2_inject by lia.
      rewrite <- Qmult_assoc, (pow2_mul_eq (Z.pos k) (d + e - 53) e) by lia.
      reflexivity. }
    split; [reflexivity|]. split; [exact Hd'|]. split; [|intros _; exact Hv].
    unfold near, ulp_rel. rewrite Hv.
    assert (0 < pow2 (-53)) by apply pow2_pos.
    assert (0 < inject_Z (Z.pos m) * pow2 e).
    { apply Qmult_lt_0_compat; [reflexivity | apply pow2_pos]. }
    split; nra.
Qed.

End RoundToFormat.

Section Multiplication.
Local Open Scope Q_scope.
Import PyFloat.

Lemma ulp_rel_value : ulp_rel == 1 # 9007199254740992.
Proof. reflexivity. Qed.

Lemma pow2_m63 : pow2 (-63) == 1 # 9223372036854775808.
Proof. reflexivity. Qed.
Lemma pow2_m64 : pow2 (-64) == 1 # 18446744073709551616.
Proof. reflexivity. Qed.
Lemma pow2_63 : pow2 63 == 9223372036854775808.
Proof. reflexivity. Qed.
Lemma pow2_64 : pow2 64 == 18446744073709551616.
Proof. reflexivity. Qed.

Lemma near_inwin X v :
  pow2 (-63) <= X -> X <= pow2 63 -> near X v -> inwin v.
Proof.
  unfold near, inwin. rewrite ulp_rel_value, pow2_m63, pow2_m64, pow2_63, pow2_64.
  intros H1 H2 [H3 H4]. split; lra.
Qed.

Lemma near_zero X : X == 0 -> near X 0.
Proof. unfold near. intros ->. split; lra. Qed.

Lemma near_refl X : 0 <= X -> near X X.
Proof.
  unfold near. rewrite ulp_rel_value. intros H. split; lra.
Qed.

Lemma near_compat X X' v v' : X == X' -> v == v' -> near X v -> near X' v'.
Proof. unfold near. intros -> ->. tauto. Qed.

Lemma fin_pos x v : fin x v -> 0 < v.
Proof.
  intros (m & e & _ & _ & ->).
  apply Qmult_lt_0_compat; [reflexivity | apply pow2_pos].
Qed.

Lemma rep_nonneg x v : rep x v -> 0 <= v.
Proof.
  intros [[_ ->]|[H _]]; [lra | apply Qlt_le_weak, (fin_pos _ _ H)].
Qed.

Lemma fin_exp_window x v :
  fin x v -> inwin v ->
  exists m e, x = S754_finite false m e /\ Z.pos (digits2_pos m) = 53%Z
              /\ v == inject_Z (Z.pos m) * pow2 e /\ (-117 < e <= 12)%Z.
Proof.
  intros (m & e & -> & Hd & Hv) [Hlo Hhi].
  exists m, e. repeat split; try assumption;
    pose proof (exp_of_value m e v (-64) 64 Hd Hv Hlo Hhi); lia.
Qed.

Lemma mant_bounds_gen m e :
  pow2 (Z.pos (digits2_pos m) - 1 + e) <= inject_Z (Z.pos m) * pow2 e
  /\ inject_Z (Z.pos m) * pow2 e < pow2 (Z.pos (digits2_pos m) + e).
Proof.
  pose proof (digits2_bounds m) as [Hlo Hhi].
  set (d := Z.pos (digits2_pos m)) in *.
  rewrite <- (pow2_mul_eq (d - 1) e (d - 1 + e)), <- (pow2_mul_eq d e (d + e))
    by lia.
  rewrite <- (pow2_inject (d - 1)), <- (pow2_inject d) by lia.
  split.
  - apply Qmult_le_compat_r; [|apply Qlt_le_weak, pow2_pos].
    rewrite <- Zle_Qle. exact Hlo.
  - apply Qmult_lt_compat_r; [apply pow2_pos|].
    rewrite <- Zlt_Qlt. exact Hhi.
Qed.

(** The digits and exponent of a positive integer mantissa stay in range
    when its value lies in the window. *)
Lemma digits_range m e :
  pow2 (-63) <= inject_Z (Z.pos m) * pow2 e ->
  inject_Z (Z.pos m) * pow2 e <= pow2 63 ->
  (-1021 <= Z.pos (digits2_pos m) + e <= 1023)%Z.
Proof.
  intros Hlo Hhi. destruct (mant_bounds_gen m e) as [H1 H2].
  assert (Ha : pow2 (-63) < pow2 (Z.pos (digits2_pos m) + e)) by lra.
  assert (Hb : pow2 (Z.pos (digits2_pos m) - 1 + e) <= pow2 63) by lra.
  apply pow2_lt_inv in Ha. apply pow2_le_inv in Hb. lia.
Qed.

Lemma binary_round_rep m e :
  pow2 (-63) <= inject_Z (Z.pos m) * pow2 e ->
  inject_Z (Z.pos m) * pow2 e <= pow2 63 ->
  exists v, fin (binary_round 53 1024 false m e) v /\ inwin v
            /\ near (inject_Z (Z.pos m) * pow2 e) v
            /\ ((Z.pos (digits2_pos m) <= 53)%Z
                -> v == inject_Z (Z.pos m) * pow2 e).
Proof.
  intros Hlo Hhi.
  destruct (binary_round_correct m e (digits_range m e Hlo Hhi))
    as (m' & e' & Hr & Hd & Hnear & Hex).
  exists (inject_Z (Z.pos m') * pow2 e'). split; [|split; [|split]].
  - exists m', e'. split; [exact Hr|]. split; [exact Hd | reflexivity].
  - eapply near_inwin; eassumption.
  - exact Hnear.
  - exact Hex.
Qed.

Lemma of_int_rep z :
  (0 <= z < 2 ^ 53)%Z -> rep (of_int z) (inject_Z z).
Proof.
  intros Hz. unfold of_int, prec, emax, binary_normalize.
  destruct z as [|m|m]; [left; split; reflexivity | | lia].
  right.
  assert (Hv : inject_Z (Z.pos m) * pow2 0 == inject_Z (Z.pos m)).
  { rewrite pow2_0. ring. }
  assert (Hm1 : 1 <= inject_Z (Z.pos m)).
  { change 1 with (inject_Z 1). rewrite <- Zle_Qle. lia. }
  assert (Hm2 : inject_Z (Z.pos m) <= 9007199254740992).
  { change 9007199254740992 with (inject_Z (2 ^ 53)). rewrite <- Zle_Qle. lia. }
  assert (Hd : (Z.pos (digits2_pos m) <= 53)%Z).
  { pose proof (digits2_bounds m) as [Hlo _].
    assert (H : (Z.pos (digits2_pos m) - 1 < 53)%Z).
    { apply (Z.pow_lt_mono_r_iff 2); lia. }
    lia. }
  destruct (binary_round_rep m 0) as (v & Hfin & Hwin & _ & Hex).
  - rewrite Hv, pow2_m63. lra.
  - rewrite Hv, pow2_63. lra.
  - specialize (Hex Hd). rewrite Hv in Hex.
    destruct Hfin as (m' & e' & E & Hd' & Hv').
    split.
    + exists m', e'. split; [exact E|]. split; [exact Hd'|].
      now rewrite <- Hv', Hex.
    + unfold inwin in *. rewrite <- Hex. exact Hwin.
Qed.

Lemma mul_rep x y vx vy :
  rep x vx -> rep y vy ->
  (vx * vy == 0 \/ (pow2 (-63) <= vx * vy /\ vx * vy <= pow2 63)) ->
  exists v, rep (mul x y) v /\ near (vx * vy) v.
Proof.
  intros Hx Hy Hwin.
  destruct Hx as [[-> Hvx]|[Hfx Hwx]].
  { exists 0. split.
    - left. split; [|reflexivity].
      destruct Hy as [[-> _]|[(m & e & -> & _) _]]; reflexivity.
    - apply near_zero. rewrite Hvx. ring. }
  destruct Hy as [[-> Hvy]|[Hfy Hwy]].
  { exists 0. split.
    - left. split; [|reflexivity].
      destruct Hfx as (m & e & -> & _). reflexivity.
    - apply near_zero. rewrite Hvy. ring. }
  pose proof (fin_pos _ _ Hfx) as Hpx. pose proof (fin_pos _ _ Hfy) as Hpy.
  destruct Hwin as [H0|[Hlo Hhi]].
  { assert (0 < vx * vy) by (apply Qmult_lt_0_compat; assumption). lra. }
  destruct (fin_exp_window _ _ Hfx Hwx) as (mx & ex & -> & Hdx & Hvx & Hex).
  destruct (fin_exp_window _ _ Hfy Hwy) as (my & ey & -> & Hdy & Hvy & Hey).
  assert (HX : vx * vy == inject_Z (Z.pos (mx * my)) * pow2 (ex + ey)).
  { rewrite Hvx, Hvy, Pos2Z.inj_mul, inject_Z_mult, pow2_add. ring. }
  assert (Hd : (105 <= Z.pos (digits2_pos (mx * my)) <= 106)%Z).
  { pose proof (digits2_bounds mx) as [Hxlo Hxhi].
    pose proof (digits2_bounds my) as [Hylo Hyhi].
    pose proof (digits2_bounds (mx * my)) as [Hplo Hphi].
    rewrite Hdx in *. rewrite Hdy in *. rewrite Pos2Z.inj_mul in *.
    assert (H1 : (2 ^ 104 <= Z.pos mx * Z.pos my)%Z).
    { change (2 ^ 104)%Z with (2 ^ (53 - 1) * 2 ^ (53 - 1))%Z. nia. }
    assert (H2 : (Z.pos mx * Z.pos my < 2 ^ 106)%Z).
    { change (2 ^ 106)%Z with (2 ^ 53 * 2 ^ 53)%Z. nia. }
    assert (H3 : (104 < Z.pos (digits2_pos (mx * my)))%Z).
    { apply (Z.pow_lt_mono_r_iff 2); lia. }
    assert (H4 : (Z.pos (digits2_pos (mx * my)) - 1 < 106)%Z).
    { apply (Z.pow_lt_mono_r_iff 2); lia. }
    lia. }
  destruct (round_aux_correct (mx * my) (ex + ey) loc_Exact (vx * vy))
    as (m' & e' & Hr & Hd' & He' & Hvlo & Hvhi & Hxlo).
  - eapply inbetween_compat; [|apply inbetween_of_loc_exact].
    rewrite HX, <- Qmult_assoc, (pow2_mul_eq (ex + ey) (- (ex + ey)) 0) by lia.
    rewrite pow2_0. ring.
  - lia.
  - lia.
  - exists (inject_Z (Z.pos m') * pow2 e').
    assert (Hnear : near (vx * vy) (inject_Z (Z.pos m') * pow2 e')).
    { apply (near_of_abs _ _ (Z.pos (digits2_pos (mx * my)) + (ex + ey)));
        assumption. }
    split; [|exact Hnear]. right. split.
    + exists m', e'. split; [exact Hr|]. split; [exact Hd' | reflexivity].
    + eapply near_inwin; eassumption.
Qed.

End Multiplication.

Section AdditionSubtraction.
Local Open Scope Q_scope.
Import PyFloat.

Lemma shl_align_value m ex ez :
  (ez <= ex)%Z ->
  inject_Z (Z.pos (fst (shl_align m ex ez))) * pow2 ez
  == inject_Z (Z.pos m) * pow2 ex.
Proof.
  intros Hle. unfold shl_align.
  destruct (ez - ex)%Z as [|k|k] eqn:Ek; cbn [fst].
  - replace ez with ex by lia. reflexivity.
  - lia.
  - rewrite iter_xO_value, inject_Z_mult, pow2_inject by lia.
    rewrite <- Qmult_assoc, (pow2_mul_eq (Z.pos k) ez ex) by lia.
    reflexivity.
Qed.

Lemma add_rep x y vx vy :
  rep x vx -> rep y vy ->
  (vx + vy == 0 \/ (pow2 (-63) <= vx + vy /\ vx + vy <= pow2 63)) ->
  exists v, rep (add x y) v /\ near (vx + vy) v.
Proof.
  intros Hx Hy Hwin.
  pose proof (rep_nonneg _ _ Hx) as Hnx. pose proof (rep_nonneg _ _ Hy) as Hny.
  destruct Hx as [[-> Hvx]|[Hfx Hwx]].
  { exists vy. split.
    - destruct Hy as [[-> Hvy]|[Hfy Hwy]].
      + left. split; [reflexivity | exact Hvy].
      + right. destruct Hfy as (m & e & -> & Hd & Hv).
        split; [|exact Hwy]. exists m, e. auto.
    - eapply near_compat; [| reflexivity | apply near_refl; exact Hny].
      rewrite Hvx. ring. }
  destruct Hy as [[-> Hvy]|[Hfy Hwy]].
  { exists vx. split.
    - right. destruct Hfx as (m & e & -> & Hd & Hv).
      split; [|exact Hwx]. exists m, e. auto.
    - eapply near_compat; [| reflexivity | apply near_refl; exact Hnx].
      rewrite Hvy. ring. }
  pose proof (fin_pos _ _ Hfx) as Hpx. pose proof (fin_pos _ _ Hfy) as Hpy.
  destruct Hwin as [H0|[Hlo Hhi]]; [lra|].
  destruct Hfx as (mx & ex & -> & Hdx & Hvx).
  destruct Hfy as (my & ey & -> & Hdy & Hvy).
  set (ez := Z.min ex ey).
  set (a := fst (shl_align mx ex ez)). set (b := fst (shl_align my ey ez)).
  assert (Ha : inject_Z (Z.pos a) * pow2 ez == vx).
  { unfold a. rewrite shl_align_value by lia. now rewrite Hvx. }
  assert (Hb : inject_Z (Z.pos b) * pow2 ez == vy).
  { unfold b. rewrite shl_align_value by lia. now rewrite Hvy. }
  assert (HX : inject_Z (Z.pos (a + b)) * pow2 ez == vx + vy).
  { rewrite Pos2Z.inj_add, inject_Z_plus, <- Ha, <- Hb. ring. }
  change (add (S754_finite false mx ex) (S754_finite false my ey))
    with (binary_round 53 1024 false (a + b) ez).
  destruct (binary_round_rep (a + b) ez) as (v & Hfin & Hw & Hnear & _).
  - now rewrite HX.
  - now rewrite HX.
  - exists v. split; [right; split; assumption|].
    eapply near_compat; [exact HX | reflexivity | exact Hnear].
Qed.

(** Subtraction with a positive difference. *)
Lemma sub_rep x y vx vy :
  rep x vx -> rep y vy ->
  pow2 (-63) <= vx - vy -> vx - vy <= pow2 63 ->
  exists v, rep (sub x y) v /\ near (vx - vy) v.
Proof.
  intros Hx Hy Hlo Hhi.
  pose proof (rep_nonneg _ _ Hx) as Hnx. pose proof (rep_nonneg _ _ Hy) as Hny.
  assert (Hpos : 0 < pow2 (-63)) by apply pow2_pos.
  destruct Hx as [[-> Hvx]|[Hfx Hwx]]; [lra|].
  destruct Hy as [[-> Hvy]|[Hfy Hwy]].
  { exists vx. split.
    - right. destruct Hfx as (m & e & -> & Hd & Hv).
      split; [|exact Hwx]. exists m, e. auto.
    - eapply near_compat; [| reflexivity | apply near_refl; exact Hnx].
      rewrite Hvy. ring. }
  destruct Hfx as (mx & ex & -> & Hdx & Hvx).
  destruct Hfy as (my & ey & -> & Hdy & Hvy).
  set (ez := Z.min ex ey).
  set (a := fst (shl_align mx ex ez)). set (b := fst (shl_align my ey ez)).
  assert (Ha : inject_Z (Z.pos a) * pow2 ez == vx).
  { unfold a. rewrite shl_align_value by lia. now rewrite Hvx. }
  assert (Hb : inject_Z (Z.pos b) * pow2 ez == vy).
  { unfold b. rewrite shl_align_value by lia. now rewrite Hvy. }
  assert (Hab : (Z.pos b < Z.pos a)%Z).
  { rewrite Zlt_Qlt. apply Qmult_lt_r with (pow2 ez); [apply pow2_pos | lra]. }
  change (sub (S754_finite false mx ex) (S754_finite false my ey))
    with (binary_normalize 53 1024 (Z.pos a - Z.pos b) ez false).
  destruct (Z.pos a - Z.pos b)%Z as [|p|p] eqn:Ep; [lia| |lia].
  assert (HX : inject_Z (Z.pos p) * pow2 ez == vx - vy).
  { rewrite <- Ep. unfold Z.sub. rewrite inject_Z_plus, inject_Z_opp.
    rewrite <- Ha, <- Hb. ring. }
  cbn [binary_normalize].
  destruct (binary_round_rep p ez) as (v & Hfin & Hw & Hnear & _).
  - now rewrite HX.
  - now rewrite HX.
  - exists v. split; [right; split; assumption|].
    eapply near_compat; [exact HX | reflexivity | exact Hnear].
Qed.

Lemma to_int_rep x v :
  rep x v ->
  exists z, to_int x = Some z /\ inject_Z z <= v /\ v < inject_Z z + 1.
Proof.
  intros [[-> Hv]|[(m & e & -> & Hd & Hv) _]].
  - exists 0%Z. split; [reflexivity|]. rewrite Hv.
    change (inject_Z 0) with 0. lra.
  - cbn [to_int]. destruct e as [|p|p].
    + exists (Z.pos m). split; [reflexivity|]. rewrite Hv, pow2_0. lra.
    + exists (Z.shiftl (Z.pos m) (Z.pos p)). split; [reflexivity|].
      rewrite Z.shiftl_mul_pow2 by lia.
      rewrite Hv, inject_Z_mult, pow2_inject by lia. lra.
    + exists (Z.shiftr (Z.pos m) (Z.pos p)). split; [reflexivity|].
      rewrite Z.shiftr_div_pow2 by lia.
      set (P := (2 ^ Z.pos p)%Z).
      assert (HP : (0 < P)%Z) by (apply Z.pow_pos_nonneg; lia).
      pose proof (Z.div_mod (Z.pos m) P ltac:(lia)) as Hdm.
      pose proof (Z.mod_pos_bound (Z.pos m) P HP) as Hmod.
      set (z := (Z.pos m / P)%Z) in *.
      assert (Hinv : pow2 (Z.neg p) * inject_Z P == 1).
      { unfold P. rewrite pow2_inject by lia.
        apply (pow2_mul_eq (Z.neg p) (Z.pos p) 0). lia. }
      assert (HPq : 0 < inject_Z P).
      { change 0 with (inject_Z 0). rewrite <- Zlt_Qlt. exact HP. }
      assert (Hm : inject_Z (Z.pos m) == inject_Z z * inject_Z P
                                         + inject_Z (Z.pos m mod P)).
      { rewrite <- inject_Z_mult, <- inject_Z_plus. rewrite Hdm at 1.
        rewrite (Z.mul_comm P z). reflexivity. }
      assert (Hr0 : 0 <= inject_Z (Z.pos m mod P)).
      { change 0 with (inject_Z 0). rewrite <- Zle_Qle. lia. }
      assert (Hr1 : inject_Z (Z.pos m mod P) < inject_Z P).
      { rewrite <- Zlt_Qlt. lia. }
      assert (Hp2 : 0 < pow2 (Z.neg p)) by apply pow2_pos.
      rewrite Hv, Hm. split.
      * setoid_replace (inject_Z z) with (inject_Z z * inject_Z P * pow2 (Z.neg p))
          at 1 by (rewrite <- Qmult_assoc, (Qmult_comm (inject_Z P)), Hinv; ring).
        apply Qmult_le_compat_r; [lra | lra].
      * setoid_replace (inject_Z z + 1)
          with ((inject_Z z * inject_Z P + inject_Z P) * pow2 (Z.neg p))
          by (rewrite Qmult_plus_distr_l, <- Qmult_assoc,
              (Qmult_comm (inject_Z P)), Hinv; ring).
        apply Qmult_lt_compat_r; [exact Hp2 | lra].
Qed.

End AdditionSubtraction.

Section Division.
Local Open Scope Q_scope.
Import PyFloat.

Lemma ratio_cases (k nb : Z) :
  (0 < nb)%Z ->
  let rho := inject_Z k / inject_Z nb in
  ((2 * k < nb)%Z -> rho < 1 # 2)
  /\ ((2 * k = nb)%Z -> rho == 1 # 2)
  /\ ((nb < 2 * k)%Z -> (1 # 2) < rho)
  /\ ((0 < k)%Z -> 0 < rho)
  /\ ((k < nb)%Z -> rho < 1)
  /\ ((k = 0)%Z -> rho == 0).
Proof.
  intros Hnb rho.
  assert (Hq : 0 < inject_Z nb).
  { change 0 with (inject_Z 0). now rewrite <- Zlt_Qlt. }
  assert (Hrho : rho * inject_Z nb == inject_Z k).
  { unfold rho. field. lra. }
  repeat split; intros H.
  - apply (Qmult_lt_r _ _ (inject_Z nb) Hq). rewrite Hrho.
    assert (2 * inject_Z k < inject_Z nb).
    { change 2 with (inject_Z 2). rewrite <- inject_Z_mult, <- Zlt_Qlt. lia. }
    lra.
  - apply (Qmult_inj_r _ _ (inject_Z nb)); [lra|]. rewrite Hrho.
    rewrite <- H, inject_Z_mult. change (inject_Z 2) with 2. ring.
  - apply (Qmult_lt_r _ _ (inject_Z nb) Hq). rewrite Hrho.
    assert (inject_Z nb < 2 * inject_Z k).
    { change 2 with (inject_Z 2). rewrite <- inject_Z_mult, <- Zlt_Qlt. lia. }
    lra.
  - apply (Qmult_lt_r _ _ (inject_Z nb) Hq). rewrite Hrho, Qmult_0_l.
    change 0 with (inject_Z 0). rewrite <- Zlt_Qlt. exact H.
  - apply (Qmult_lt_r _ _ (inject_Z nb) Hq). rewrite Hrho, Qmult_1_l.
    rewrite <- Zlt_Qlt. exact H.
  - apply (Qmult_inj_r _ _ (inject_Z nb)); [lra|]. rewrite Hrho, H.
    change (inject_Z 0) with 0. ring.
Qed.

Lemma new_location_inbetween nb k q :
  (0 < nb)%Z -> (0 <= k < nb)%Z ->
  inbetween (shr_record_of_loc q (new_location nb k))
            (inject_Z q + inject_Z k / inject_Z nb).
Proof.
  intros Hnb Hk.
  destruct (ratio_cases k nb Hnb) as (Hlt & Heq & Hgt & Hpos & Hone & Hzero).
  cbv zeta in *. set (rho := inject_Z k / inject_Z nb) in *.
  unfold new_location, new_location_even, new_location_odd.
  destruct (Z.even nb) eqn:Eev.
  - destruct (Z.eqb_spec k 0) as [E0|N0].
    + unfold inbetween. simpl. rewrite (Hzero E0). ring.
    + destruct (Z.compare_spec (2 * k) nb) as [E|L|G];
        unfold inbetween; simpl.
      * rewrite (Heq E). reflexivity.
      * specialize (Hlt L). specialize (Hpos ltac:(lia)). lra.
      * specialize (Hgt G). specialize (Hone ltac:(lia)). lra.
  - destruct (Z.eqb_spec k 0) as [E0|N0].
    + unfold inbetween. simpl. rewrite (Hzero E0). ring.
    + assert (Hodd : (nb <> 2 * k)%Z).
      { intros E. rewrite E, Z.even_mul in Eev. discriminate. }
      destruct (Z.compare_spec (2 * k + 1) nb) as [E|L|G];
        unfold inbetween; simpl.
      * specialize (Hlt ltac:(lia)). specialize (Hpos ltac:(lia)). lra.
      * specialize (Hlt ltac:(lia)). specialize (Hpos ltac:(lia)). lra.
      * specialize (Hgt ltac:(lia)). specialize (Hone ltac:(lia)). lra.
Qed.

Lemma div_core m1 e1 m2 e2 :
  Z.pos (digits2_pos m1) = 53%Z -> Z.pos (digits2_pos m2) = 53%Z ->
  (-1021 <= e1 - e2)%Z ->
  SFdiv_core_binary 53 1024 (Z.pos m1) e1 (Z.pos m2) e2
  = ((Z.pos m1 * 2 ^ 53) / Z.pos m2, e1 - e2 - 53,
     new_location (Z.pos m2) ((Z.pos m1 * 2 ^ 53) mod Z.pos m2))%Z.
Proof.
  intros H1 H2 He. unfold SFdiv_core_binary.
  change (Zdigits2 (Z.pos m1)) with (Z.pos (digits2_pos m1)).
  change (Zdigits2 (Z.pos m2)) with (Z.pos (digits2_pos m2)).
  rewrite H1, H2. rewrite fexp_normal by lia.
  replace (Z.min (53 + e1 - (53 + e2) - 53) (e1 - e2))%Z
    with (e1 - e2 - 53)%Z by lia.
  replace (e1 - e2 - (e1 - e2 - 53))%Z with 53%Z by lia.
  cbv iota beta. rewrite Z.shiftl_mul_pow2 by lia.
  unfold Z.div, Z.modulo.
  destruct (Z.div_eucl (Z.pos m1 * 2 ^ 53) (Z.pos m2)) as [q r]. reflexivity.
Qed.

Lemma div_rep x y vx vy :
  rep x vx -> fin y vy -> inwin vy ->
  (vx == 0 \/ (pow2 (-63) <= vx / vy /\ vx / vy <= pow2 63)) ->
  exists v, rep (div x y) v /\ near (vx / vy) v.
Proof.
  intros Hx Hfy Hwy Hwin.
  pose proof (fin_pos _ _ Hfy) as Hpy.
  destruct Hx as [[-> Hvx]|[Hfx Hwx]].
  { exists 0. split.
    - left. split; [|reflexivity].
      destruct Hfy as (m & e & -> & _). reflexivity.
    - apply near_zero. rewrite Hvx. unfold Qdiv. ring. }
  pose proof (fin_pos _ _ Hfx) as Hpx.
  destruct Hwin as [H0|[Hlo Hhi]]; [lra|].
  destruct (fin_exp_window _ _ Hfx Hwx) as (mx & ex & -> & Hdx & Hvx & Hex).
  destruct (fin_exp_window _ _ Hfy Hwy) as (my & ey & -> & Hdy & Hvy & Hey).
  change (div (S754_finite false mx ex) (S754_finite false my ey))
    with (let '(mz, ez, lz) := SFdiv_core_binary 53 1024 (Z.pos mx) ex (Z.pos my) ey
          in binary_round_aux 53 1024 false mz ez lz).
  rewrite div_core by (assumption || lia).
  set (N := (Z.pos mx * 2 ^ 53)%Z).
  pose proof (digits2_bounds mx) as [Hxlo Hxhi].
  pose proof (digits2_bounds my) as [Hylo Hyhi].
  rewrite Hdx in Hxlo, Hxhi. rewrite Hdy in Hylo, Hyhi.
  pose proof (Z.div_mod N (Z.pos my) ltac:(lia)) as Hdm.
  pose proof (Z.mod_pos_bound N (Z.pos my) ltac:(lia)) as Hmod.
  assert (Hq : (2 ^ 52 <= N / Z.pos my < 2 ^ 54)%Z).
  { split.
    - apply Z.div_le_lower_bound; [lia|]. unfold N.
      change (2 ^ (53 - 1))%Z with (2 ^ 52)%Z in *.
      change (2 ^ 53)%Z with 9007199254740992%Z in *.
      change (2 ^ 52)%Z with 4503599627370496%Z in *. nia.
    - apply Z.div_lt_upper_bound; [lia|]. unfold N.
      change (2 ^ (53 - 1))%Z with (2 ^ 52)%Z in *.
      change (2 ^ 54)%Z with 18014398509481984%Z.
      change (2 ^ 53)%Z with 9007199254740992%Z in *.
      change (2 ^ 52)%Z with 4503599627370496%Z in *. nia. }
  destruct (N / Z.pos my)%Z as [|q|q] eqn:Eq; [lia| |lia].
  assert (Hdq : (53 <= Z.pos (digits2_pos q) <= 54)%Z).
  { pose proof (digits2_bounds q) as [Hqlo Hqhi].
    assert (H3 : (52 < Z.pos (digits2_pos q))%Z).
    { apply (Z.pow_lt_mono_r_iff 2); lia. }
    assert (H4 : (Z.pos (digits2_pos q) - 1 < 54)%Z).
    { apply (Z.pow_lt_mono_r_iff 2); lia. }
    lia. }
  assert (Hmy : 0 < inject_Z (Z.pos my)) by reflexivity.
  assert (HX : vx / vy * pow2 (- (ex - ey - 53))
               == inject_Z (Z.pos q) + inject_Z (N mod Z.pos my) / inject_Z (Z.pos my)).
  { assert (HN : inject_Z N == (inject_Z (Z.pos q) * inject_Z (Z.pos my)
                                + inject_Z (N mod Z.pos my))).
    { rewrite <- inject_Z_mult, <- inject_Z_plus. rewrite Hdm at 1.
      rewrite (Z.mul_comm (Z.pos my)). reflexivity. }
    assert (HN' : inject_Z N == inject_Z (Z.pos mx) * pow2 53).
    { unfold N. rewrite inject_Z_mult, pow2_inject by lia. reflexivity. }
    assert (Hne : ~ pow2 ey == 0).
    { pose proof (pow2_pos ey). lra. }
    assert (Hxx : pow2 ex * pow2 (- ex) == 1).
    { apply (pow2_mul_eq ex (- ex) 0). lia. }
    assert (Hyy : pow2 ey * pow2 (- ey) == 1).
    { apply (pow2_mul_eq ey (- ey) 0). lia. }
    assert (Hp : pow2 (- (ex - ey - 53)) == pow2 53 * pow2 (- ex) * pow2 ey).
    { rewrite <- !pow2_add. replace (53 + - ex + ey)%Z with (- (ex - ey - 53))%Z by lia.
      reflexivity. }
    rewrite Hvx, Hvy, Hp.
    setoid_replace (inject_Z (Z.pos mx) * pow2 ex / (inject_Z (Z.pos my) * pow2 ey)
                    * (pow2 53 * pow2 (- ex) * pow2 ey))
      with ((inject_Z (Z.pos mx) * pow2 53) * (pow2 ex * pow2 (- ex))
            / inject_Z (Z.pos my))
      by (field; split; [lra | exact Hne]).
    rewrite Hxx, <- HN', HN. field. lra. }
  destruct (round_aux_correct q (ex - ey - 53)
              (new_location (Z.pos my) (N mod Z.pos my)) (vx / vy))
    as (m' & e' & Hr & Hd' & He' & Hvlo & Hvhi & HXlo).
  - eapply inbetween_compat; [|apply new_location_inbetween; lia].
    now rewrite HX.
  - lia.
  - lia.
  - exists (inject_Z (Z.pos m') * pow2 e').
    assert (Hnear : near (vx / vy) (inject_Z (Z.pos m') * pow2 e')).
    { apply (near_of_abs _ _ (Z.pos (digits2_pos q) + (ex - ey - 53)));
        assumption. }
    split; [|exact Hnear]. right. split.
    + exists m', e'. split; [exact Hr|]. split; [exact Hd' | reflexivity].
    + eapply near_inwin; eassumption.
Qed.

End Division.

(** ** One channel of the gradient *)

Section ChannelError.
Local Open Scope Q_scope.
Import PyFloat.

Lemma scale_bound A x y dl :
  0 <= A -> A <= 255 -> y - dl <= x -> x <= y + dl ->
  A * y - 255 * dl <= A * x /\ A * x <= A * y + 255 * dl.
Proof. intros. split; nra. Qed.

Lemma scale_range A x c :
  0 <= A -> A <= 255 -> 0 <= x -> x <= c -> 0 <= A * x /\ A * x <= 255 * c.
Proof. intros. split; nra. Qed.

Lemma scale_lower A x c :
  1 <= A -> 0 <= c -> c <= x -> c <= A * x.
Proof. intros. nra. Qed.

Lemma inv_lower w N c :
  1 <= w * N -> 0 < N -> N * c <= 1 -> 0 < c -> c <= w.
Proof.
  intros H1 H2 H3 H4.
  destruct (Qlt_le_dec w c) as [Hlt|Hle]; [|exact Hle].
  assert (w * N < c * N) by (apply Qmult_lt_compat_r; assumption).
  lra.
Qed.

Lemma near_zero_inv v : near 0 v -> v == 0.
Proof. unfold near. intros [H1 H2]. lra. Qed.


Lemma inject_Z_range z lo hi :
  (lo <= z <= hi)%Z -> inject_Z lo <= inject_Z z /\ inject_Z z <= inject_Z hi.
Proof. intros [H1 H2]. rewrite <- !Zle_Qle. auto. Qed.

Lemma rep_pos_fin x v : rep x v -> 0 < v -> fin x v /\ inwin v.
Proof. intros [[_ H]|H] Hv; [lra | exact H]. Qed.

Lemma channel_float a b i n :
  (0 <= a <= 255)%Z -> (0 <= b <= 255)%Z -> (0 <= i < n)%Z ->
  (n < 2 ^ 31)%Z ->
  let rho := inject_Z i / inject_Z n in
  let E := inject_Z a * (1 - rho) + inject_Z b * rho in
  exists v,
    rep (add (mul (of_int a) (sub (of_int 1) (int_truediv i n)))
             (mul (of_int b) (int_truediv i n))) v
    /\ E - eps <= v /\ v <= E + eps.
Proof.
  intros Ha Hb Hi Hn rho E.
  pose proof (of_int_rep a ltac:(lia)) as Ra.
  pose proof (of_int_rep b ltac:(lia)) as Rb.
  pose proof (of_int_rep i ltac:(lia)) as Ri.
  pose proof (of_int_rep n ltac:(lia)) as Rn.
  pose proof (of_int_rep 1 ltac:(lia)) as R1. change (inject_Z 1) with 1 in R1.
  destruct (inject_Z_range a 0 255 Ha) as [HA0 HA1].
  destruct (inject_Z_range b 0 255 Hb) as [HB0 HB1].
  destruct (inject_Z_range i 0 i ltac:(lia)) as [HI0 _].
  destruct (inject_Z_range n 1 2147483648 ltac:(lia)) as [HN0 HN1].
  assert (HI1 : inject_Z i + 1 <= inject_Z n).
  { change 1 with (inject_Z 1). rewrite <- inject_Z_plus, <- Zle_Qle. lia. }
  assert (HAz : (a = 0)%Z -> inject_Z a == 0) by (intros ->; reflexivity).
  assert (HBz : (b = 0)%Z -> inject_Z b == 0) by (intros ->; reflexivity).
  assert (HIz : (i = 0)%Z -> inject_Z i == 0) by (intros ->; reflexivity).
  assert (HAp : (a <> 0)%Z -> 1 <= inject_Z a).
  { intros H. change 1 with (inject_Z 1). rewrite <- Zle_Qle. lia. }
  assert (HBp : (b <> 0)%Z -> 1 <= inject_Z b).
  { intros H. change 1 with (inject_Z 1). rewrite <- Zle_Qle. lia. }
  assert (HIp : (i <> 0)%Z -> 1 <= inject_Z i).
  { intros H. change 1 with (inject_Z 1). rewrite <- Zle_Qle. lia. }
  change (inject_Z 0) with 0 in *. change (inject_Z 1) with 1 in *.
  change (inject_Z 255) with 255 in *.
  change (inject_Z 2147483648) with 2147483648 in *.
  unfold int_truediv.
  set (fa := of_int a) in *. set (fb := of_int b) in *.
  set (fi := of_int i) in *. set (fn := of_int n) in *.
  set (f1 := of_int 1) in *.
  set (A := inject_Z a) in *. set (B := inject_Z b) in *.
  set (I := inject_Z i) in *. set (Nq := inject_Z n) in *.
  clearbody fa fb fi fn f1 A B I Nq.
  assert (Hrho : rho * Nq == I).
  { unfold rho. field. intros E0. lra. }
  assert (Hrho0 : 0 <= rho) by nra.
  assert (Hrho1 : rho <= 1 - (1 # 2147483648)).
  { assert (H : (1 # 2147483648) <= 1 - rho).
    { apply (inv_lower _ Nq); [nra | lra | lra | reflexivity]. }
    lra. }
  assert (Hrho2 : (i <> 0)%Z -> (1 # 2147483648) <= rho).
  { intros Hne. specialize (HIp Hne).
    apply (inv_lower _ Nq); [nra | lra | lra | reflexivity]. }
  assert (Hrho3 : (i = 0)%Z -> rho == 0).
  { intros H0. specialize (HIz H0). unfold rho, Qdiv. rewrite HIz. ring. }
  destruct (rep_pos_fin _ _ Rn ltac:(lra)) as [Fn Wn].
  (* ratio *)
  destruct (div_rep fi fn I Nq Ri Fn Wn) as (vr & Rr & Nr).
  { destruct (Z.eq_dec i 0) as [E0|N0].
    - left. auto.
    - right. fold rho. specialize (Hrho2 N0).
      rewrite pow2_m63, pow2_63. split; lra. }
  fold rho in Nr. set (r := div fi fn) in *. clearbody r.
  unfold near in Nr. rewrite ulp_rel_value in Nr. destruct Nr as [Nr1 Nr2].
  (* 1 - ratio *)
  destruct (sub_rep f1 r 1 vr R1 Rr) as (vs & Rs & Ns).
  { rewrite pow2_m63. lra. }
  { rewrite pow2_63. lra. }
  set (s := sub f1 r) in *. clearbody s.
  unfold near in Ns. rewrite ulp_rel_value in Ns. destruct Ns as [Ns1 Ns2].
  (* c1 * (1 - ratio) *)
  destruct (scale_range A vs 2 HA0 HA1 ltac:(lra) ltac:(lra)) as [Hp0 Hp1].
  destruct (mul_rep fa s A vs Ra Rs) as (vp & Rp & Np).
  { destruct (Z.eq_dec a 0) as [E0|N0].
    - left. rewrite (HAz E0). ring.
    - right. rewrite pow2_m63, pow2_63. split; [|lra].
      apply scale_lower; [exact (HAp N0) | lra | lra]. }
  set (p := mul fa s) in *. clearbody p.
  assert (Hp : vp == 0 \/ (1 # 17179869184) <= vp).
  { destruct (Z.eq_dec a 0) as [E0|N0].
    - left. apply near_zero_inv. eapply near_compat; [|reflexivity|exact Np].
      rewrite (HAz E0). ring.
    - right. unfold near in Np. rewrite ulp_rel_value in Np.
      assert (H2 : (1 # 8589934592) <= A * vs).
      { apply scale_lower; [exact (HAp N0) | lra | lra]. }
      lra. }
  unfold near in Np. rewrite ulp_rel_value in Np. destruct Np as [Np1 Np2].
  (* c2 * ratio *)
  destruct (scale_range B vr 2 HB0 HB1 ltac:(lra) ltac:(lra)) as [Hq0 Hq1].
  assert (Hzero : (b = 0 \/ i = 0)%Z -> B * vr == 0).
  { intros [E0|E0].
    - rewrite (HBz E0). ring.
    - specialize (Hrho3 E0). assert (H : vr == 0) by lra. rewrite H. ring. }
  assert (Hnz : (b <> 0 /\ i <> 0)%Z -> (1 # 8589934592) <= B * vr).
  { intros [Nb Ni]. specialize (Hrho2 Ni).
    apply scale_lower; [exact (HBp Nb) | lra | lra]. }
  destruct (mul_rep fb r B vr Rb Rr) as (vq & Rq & Nq').
  { destruct (Z.eq_dec b 0) as [E0|N0]; [left; apply Hzero; auto|].
    destruct (Z.eq_dec i 0) as [E1|N1]; [left; apply Hzero; auto|].
    right. specialize (Hnz (conj N0 N1)).
    rewrite pow2_m63, pow2_63. split; lra. }
  set (q := mul fb r) in *. clearbody q.
  assert (Hq : vq == 0 \/ (1 # 17179869184) <= vq).
  { destruct (Z.eq_dec b 0) as [E0|N0];
      [left; apply near_zero_inv; eapply near_compat;
       [apply Hzero; auto | reflexivity | exact Nq']|].
    destruct (Z.eq_dec i 0) as [E1|N1];
      [left; apply near_zero_inv; eapply near_compat;
       [apply Hzero; auto | reflexivity | exact Nq']|].
    right. specialize (Hnz (conj N0 N1)).
    unfold near in Nq'. rewrite ulp_rel_value in Nq'. lra. }
  unfold near in Nq'. rewrite ulp_rel_value in Nq'. destruct Nq' as [Nq1 Nq2].
  (* the sum *)
  pose proof (rep_nonneg _ _ Rp) as Hvp0. pose proof (rep_nonneg _ _ Rq) as Hvq0.
  destruct (add_rep p q vp vq Rp Rq) as (vv & Rv & Nv).
  { rewrite pow2_m63, pow2_63.
    destruct Hp as [Hp|Hp], Hq as [Hq|Hq]; [left; lra | right | right | right];
      split; lra. }
  exists vv. split; [exact Rv|].
  unfold near in Nv. rewrite ulp_rel_value in Nv. destruct Nv as [Nv1 Nv2].
  (* error budget *)
  destruct (scale_bound A vs (1 - rho) (2 # 9007199254740992) HA0 HA1
              ltac:(lra) ltac:(lra)) as [Sa1 Sa2].
  destruct (scale_bound B vr rho (1 # 9007199254740992) HB0 HB1
              ltac:(lra) ltac:(lra)) as [Sb1 Sb2].
  unfold E, eps. split; lra.
Qed.

End ChannelError.

Section ChannelValue.
Import PyFloat.

Lemma channel_value a b i n :
  0 <= a <= 255 -> 0 <= b <= 255 -> 0 <= i < n -> n < 2 ^ 31 ->
  exists z,
    Gradient.channel a b (int_truediv i n) = Some z
    /\ lerp_num a b i n / n - 1 <= z <= lerp_num a b i n / n
    /\ (lerp_num a b i n mod n <> 0 -> z = lerp_num a b i n / n)
    /\ 0 <= z.
Proof.
  intros Ha Hb Hi Hn.
  destruct (channel_float a b i n Ha Hb Hi Hn) as (v & Rv & Hlo & Hhi).
  cbv zeta in Hlo, Hhi.
  destruct (to_int_rep _ _ Rv) as (z & Hz & Hz1 & Hz2).
  pose proof (rep_nonneg _ _ Rv) as Hv0.
  exists z. split; [exact Hz|].
  set (N := lerp_num a b i n).
  pose proof (Z.div_mod N n ltac:(lia)) as Hdm.
  pose proof (Z.mod_pos_bound N n ltac:(lia)) as Hmod.
  set (k := N / n) in *. set (t := N mod n) in *.
  (* the exact value is k + t / n *)
  set (rho := (inject_Z i / inject_Z n)%Q) in *.
  set (E := (inject_Z a * (1 - rho) + inject_Z b * rho)%Q) in *.
  assert (HN0 : (0 < inject_Z n)%Q).
  { change 0%Q with (inject_Z 0). rewrite <- Zlt_Qlt. lia. }
  assert (HN1 : (inject_Z n <= 2147483648)%Q).
  { change 2147483648%Q with (inject_Z 2147483648). rewrite <- Zle_Qle. lia. }
  assert (HE : ((E - inject_Z k) * inject_Z n == inject_Z t)%Q).
  { assert (Hrho : (rho * inject_Z n == inject_Z i)%Q).
    { unfold rho. field. intros E0. rewrite E0 in HN0. discriminate. }
    assert (HNq : (inject_Z N == inject_Z a * (inject_Z n - inject_Z i)
                               + inject_Z b * inject_Z i)%Q).
    { unfold N, lerp_num. unfold Z.sub.
      rewrite inject_Z_plus, !inject_Z_mult, inject_Z_plus, inject_Z_opp.
      ring. }
    assert (Hk : (inject_Z N == inject_Z n * inject_Z k + inject_Z t)%Q).
    { rewrite <- inject_Z_mult, <- inject_Z_plus. now rewrite <- Hdm. }
    unfold E.
    setoid_replace ((inject_Z a * (1 - rho) + inject_Z b * rho - inject_Z k)
                    * inject_Z n)%Q
      with (inject_Z a * (inject_Z n - rho * inject_Z n)
            + inject_Z b * (rho * inject_Z n) - inject_Z n * inject_Z k)%Q by ring.
    rewrite Hrho, <- HNq, Hk. ring. }
  assert (Hz0 : 0 <= z).
  { assert (H : (inject_Z 0 < inject_Z (z + 1))%Q).
    { rewrite inject_Z_plus. change (inject_Z 0) with 0%Q.
      change (inject_Z 1) with 1%Q. lra. }
    rewrite <- Zlt_Qlt in H. lia. }
  unfold eps in *.
  destruct (Z.eq_dec t 0) as [Et|Nt].
  - (* the exact value is the integer k *)
    assert (HEk : (E == inject_Z k)%Q).
    { rewrite Et in HE. change (inject_Z 0) with 0%Q in HE.
      assert (H : ((E - inject_Z k) * inject_Z n == 0 * inject_Z n)%Q)
        by (rewrite HE; ring).
      apply Qmult_inj_r in H; [lra|]. intros E0. rewrite E0 in HN0. discriminate. }
    split; [|split; [intros H; contradiction | exact Hz0]].
    assert (H1 : (inject_Z z < inject_Z (k + 1))%Q).
    { rewrite inject_Z_plus. change (inject_Z 1) with 1%Q. lra. }
    assert (H2 : (inject_Z k < inject_Z (z + 2))%Q).
    { rewrite inject_Z_plus. change (inject_Z 2) with 2%Q. lra. }
    rewrite <- Zlt_Qlt in H1, H2. lia.
  - (* the exact value is at least 1/n away from any integer *)
    assert (Ht1 : (1 <= inject_Z t)%Q).
    { change 1%Q with (inject_Z 1). rewrite <- Zle_Qle. lia. }
    assert (Ht2 : (inject_Z t + 1 <= inject_Z n)%Q).
    { change 1%Q with (inject_Z 1). rewrite <- inject_Z_plus, <- Zle_Qle. lia. }
    assert (Hw1 : ((1 # 2147483648) <= E - inject_Z k)%Q).
    { apply (inv_lower _ (inject_Z n)); [lra | lra | lra | reflexivity]. }
    assert (Hw2 : ((1 # 2147483648) <= 1 - (E - inject_Z k))%Q).
    { apply (inv_lower _ (inject_Z n)); [|lra | lra | reflexivity].
      setoid_replace ((1 - (E - inject_Z k)) * inject_Z n)%Q
        with (inject_Z n - (E - inject_Z k) * inject_Z n)%Q by ring.
      lra. }
    assert (H1 : (inject_Z z < inject_Z (k + 1))%Q).
    { rewrite inject_Z_plus. change (inject_Z 1) with 1%Q. lra. }
    assert (H2 : (inject_Z k < inject_Z (z + 1))%Q).
    { rewrite inject_Z_plus. change (inject_Z 1) with 1%Q. lra. }
    rewrite <- Zlt_Qlt in H1, H2.
    split; [lia|]. split; [intros _; lia | exact Hz0].
Qed.

(** The exact interpolation lies between the two channels. *)
Lemma lerp_floor_between a b i n :
  0 <= i < n ->
  Z.min a b <= lerp_num a b i n / n <= Z.max a b.
Proof.
  intros Hi. unfold lerp_num. split.
  - apply Z.div_le_lower_bound; [lia|]. nia.
  - apply Z.div_le_upper_bound; [lia|]. nia.
Qed.

End ChannelValue.

Section ChannelEnds.
Import PyFloat.

(** At ratio 0.0 the first colour comes out exactly. *)
Lemma mul_zero_r b :
  0 <= b <= 255 -> mul (of_int b) (S754_zero false) = S754_zero false.
Proof.
  intros Hb. destruct (of_int_rep b ltac:(lia)) as [[-> _]|[(m & e & -> & _) _]];
    reflexivity.
Qed.

Lemma channel_at_zero a b :
  0 <= a <= 255 -> 0 <= b <= 255 ->
  Gradient.channel a b (S754_zero false) = Some a.
Proof.
  intros Ha Hb. unfold Gradient.channel. rewrite mul_zero_r by exact Hb.
  assert (Hall :
    forallb (fun a =>
               match to_int (add (mul (of_int a)
                                      (sub (of_int 1) (S754_zero false)))
                                 (S754_zero false)) with
               | Some z => z =? a
               | None => false
               end) (Gradient.range 256) = true)
    by (vm_compute; reflexivity).
  rewrite forallb_forall in Hall.
  specialize (Hall a ltac:(apply range_In; lia)).
  cbv beta in Hall.
  destruct (to_int _) as [z|]; [|discriminate].
  apply Z.eqb_eq in Hall. now subst.
Qed.

Lemma int_truediv_zero n :
  1 <= n < 2 ^ 53 -> int_truediv 0 n = S754_zero false.
Proof.
  intros Hn. unfold int_truediv.
  pose proof (of_int_rep n ltac:(lia)) as Rn.
  destruct Rn as [[_ H0]|[(m & e & -> & _) _]].
  - exfalso. assert (H : (inject_Z 1 <= inject_Z n)%Q) by (rewrite <- Zle_Qle; lia).
    change (inject_Z 1) with 1%Q in H. lra.
  - reflexivity.
Qed.

(** Unless the two channels are equal the result is not below their
    minimum. *)
Lemma channel_ge_min a b i n z :
  0 <= a <= 255 -> 0 <= b <= 255 -> 0 <= i < n -> n < 2 ^ 31 ->
  Gradient.channel a b (int_truediv i n) = Some z ->
  a <> b -> Z.min a b <= z.
Proof.
  intros Ha Hb Hi Hn Hz Hab.
  destruct (Z.eq_dec i 0) as [E0|N0].
  - subst i. rewrite int_truediv_zero in Hz by lia.
    rewrite channel_at_zero in Hz by assumption.
    injection Hz as <-. lia.
  - destruct (channel_value a b i n Ha Hb Hi Hn) as (z' & Hz' & Hk & Hex & _).
    rewrite Hz in Hz'. injection Hz' as <-.
    pose proof (lerp_floor_between a b i n Hi) as [Hmin _].
    destruct (Z.eq_dec (lerp_num a b i n mod n) 0) as [Et|Nt];
      [|specialize (Hex Nt); lia].
    destruct (Z.eq_dec (lerp_num a b i n / n) (Z.min a b)) as [Ek|Nk]; [|lia].
    exfalso.
    pose proof (Z.div_mod (lerp_num a b i n) n ltac:(lia)) as Hdm.
    rewrite Et, Ek in Hdm. unfold lerp_num in Hdm. nia.
Qed.

End ChannelEnds.

(** ** The canvas of [create_gradient] *)

Section GradientCanvas.
Import Pillow Gradient.

Lemma truncated_lerp_exists a b i n :
  0 <= a <= 255 -> 0 <= b <= 255 -> 0 <= i < n -> n < 2 ^ 31 ->
  exists z, truncated_lerp a b i n z.
Proof.
  intros Ha Hb Hi Hn.
  destruct (channel_value a b i n Ha Hb Hi Hn) as (z & Hz & Hk & Hex & Hz0).
  pose proof (lerp_floor_between a b i n Hi) as [Hmin Hmax].
  exists z. unfold truncated_lerp.
  split; [exact Hz|]. split; [exact Hk|]. split; [exact Hex|].
  split; [lia|]. split; [lia|].
  intros Hab. eapply channel_ge_min; eassumption.
Qed.

Lemma row_color_spec c1 c2 i n :
  byte_color c1 -> byte_color c2 -> 0 <= i < n -> n < 2 ^ 31 ->
  let '(r1, g1, b1) := c1 in
  let '(r2, g2, b2) := c2 in
  exists r g b,
    row_color c1 c2 i n = (r, g, b)
    /\ truncated_lerp r1 r2 i n r
    /\ truncated_lerp g1 g2 i n g
    /\ truncated_lerp b1 b2 i n b.
Proof.
  destruct c1 as [[r1 g1] b1], c2 as [[r2 g2] b2].
  intros (Hr1 & Hg1 & Hb1) (Hr2 & Hg2 & Hb2) Hi Hn.
  destruct (truncated_lerp_exists r1 r2 i n Hr1 Hr2 Hi Hn) as (r & Hr).
  destruct (truncated_lerp_exists g1 g2 i n Hg1 Hg2 Hi Hn) as (g & Hg).
  destruct (truncated_lerp_exists b1 b2 i n Hb1 Hb2 Hi Hn) as (b & Hb).
  exists r, g, b. split; [|auto].
  unfold row_color.
  pose proof Hr as [Er _]. pose proof Hg as [Eg _]. pose proof Hb as [Eb _].
  rewrite Er, Eg, Eb.
  reflexivity.
Qed.

Lemma gradient_row_eq (w h : Z) (c1 c2 : RGB) (vertical : bool)
      (img : Image RGB) (i : Z) :
  byte_color c1 -> byte_color c2 ->
  0 <= i < (if vertical then h else w) -> (if vertical then h else w) < 2 ^ 31 ->
  gradient_row w h c1 c2 vertical img i
  = Some (if vertical
          then line_h img i 0 w (row_color c1 c2 i (if vertical then h else w))
          else line_v img i 0 h (row_color c1 c2 i (if vertical then h else w))).
Proof.
  intros H1 H2 Hi Hn.
  pose proof (row_color_spec c1 c2 i _ H1 H2 Hi Hn) as Hrow.
  destruct c1 as [[r1 g1] b1], c2 as [[r2 g2] b2].
  destruct Hrow as (r & g & b & Hrc & Hr & Hg & Hb).
  rewrite Hrc. unfold gradient_row.
  pose proof Hr as [Er _]. pose proof Hg as [Eg _]. pose proof Hb as [Eb _].
  rewrite Er, Eg, Eb.
  destruct vertical; reflexivity.
Qed.

Lemma clip8_byte v : 0 <= v <= 255 -> clip8 v = v.
Proof. unfold clip8. lia. Qed.

Lemma ink_row_color c1 c2 i n :
  byte_color c1 -> byte_color c2 -> 0 <= i < n -> n < 2 ^ 31 ->
  ink (row_color c1 c2 i n) = row_color c1 c2 i n.
Proof.
  intros H1 H2 Hi Hn.
  pose proof (row_color_spec c1 c2 i n H1 H2 Hi Hn) as Hrow.
  destruct c1 as [[r1 g1] b1], c2 as [[r2 g2] b2].
  destruct Hrow as (r & g & b & -> & Hr & Hg & Hb).
  unfold truncated_lerp in *. unfold ink.
  rewrite !clip8_byte by tauto. reflexivity.
Qed.

Lemma range_succ (k : nat) :
  range (Z.of_nat (S k)) = range (Z.of_nat k) ++ [Z.of_nat k].
Proof.
  unfold range. rewrite !Nat2Z.id, seq_S, map_app. reflexivity.
Qed.

(** The canvas after the first [k] iterations of the loop. *)
Lemma gradient_prefix (w h : Z) (c1 c2 : RGB) (vertical : bool) (k : nat) :
  byte_color c1 -> byte_color c2 ->
  0 <= w -> 0 <= h ->
  Z.of_nat k <= (if vertical then h else w) ->
  (if vertical then h else w) < 2 ^ 31 ->
  exists img,
    fold_left
      (fun acc i =>
         match acc with
         | Some img => gradient_row w h c1 c2 vertical img i
         | None => None
         end)
      (range (Z.of_nat k)) (Some (new w h (0, 0, 0)))
    = Some img
    /\ im_width img = w /\ im_height img = h
    /\ forall x y, 0 <= x < w -> 0 <= y < h ->
         im_px img x y
         = if (if vertical then y else x) <? Z.of_nat k
           then row_color c1 c2 (if vertical then y else x)
                          (if vertical then h else w)
           else (0, 0, 0).
Proof.
  intros H1 H2 Hw Hh Hk Hn.
  induction k as [|k IH].
  - exists (new w h (0, 0, 0)). split; [reflexivity|].
    split; [reflexivity|]. split; [reflexivity|].
    intros x y Hx Hy. simpl.
    destruct ((if vertical then y else x) <? 0) eqn:E; [|reflexivity].
    apply Z.ltb_lt in E. destruct vertical; lia.
  - destruct (IH ltac:(lia)) as (img & Hfold & Hiw & Hih & Hpx).
    rewrite range_succ, fold_left_app, Hfold. cbn [fold_left].
    rewrite gradient_row_eq by (assumption || lia).
    eexists. split; [reflexivity|].
    destruct vertical.
    + split; [exact Hiw|]. split; [exact Hih|].
      intros x y Hx Hy. unfold line_h, paint. cbn [im_px].
      unfold in_bounds. rewrite Hiw, Hih.
      rewrite (ink_row_color c1 c2 (Z.of_nat k) h) by (assumption || lia).
      rewrite (Hpx x y Hx Hy).
      destruct (Z.eqb_spec y (Z.of_nat k)) as [->|Hne].
      * replace (Z.of_nat k <? Z.of_nat (S k)) with true
          by (symmetry; apply Z.ltb_lt; lia).
        replace ((0 <=? x) && (x <? w) && (0 <=? Z.of_nat k)
                 && (Z.of_nat k <? h)
                 && (true && (Z.min 0 w <=? x) && (x <=? Z.max 0 w)))
          with true; [reflexivity|].
        symmetry. rewrite !andb_true_iff.
        rewrite !Z.leb_le, !Z.ltb_lt. lia.
      * cbn [andb]. rewrite ?andb_false_r.
        destruct (y <? Z.of_nat k) eqn:E1, (y <? Z.of_nat (S k)) eqn:E2;
          try reflexivity;
          [apply Z.ltb_lt in E1; apply Z.ltb_ge in E2
          |apply Z.ltb_ge in E1; apply Z.ltb_lt in E2]; lia.
    + split; [exact Hiw|]. split; [exact Hih|].
      intros x y Hx Hy. unfold line_v, paint. cbn [im_px].
      unfold in_bounds. rewrite Hiw, Hih.
      rewrite (ink_row_color c1 c2 (Z.of_nat k) w) by (assumption || lia).
      rewrite (Hpx x y Hx Hy).
      destruct (Z.eqb_spec x (Z.of_nat k)) as [->|Hne].
      * replace (Z.of_nat k <? Z.of_nat (S k)) with true
          by (symmetry; apply Z.ltb_lt; lia).
        replace ((0 <=? Z.of_nat k) && (Z.of_nat k <? w) && (0 <=? y)
                 && (y <? h)
                 && (true && (Z.min 0 h <=? y) && (y <=? Z.max 0 h)))
          with true; [reflexivity|].
        symmetry. rewrite !andb_true_iff.
        rewrite !Z.leb_le, !Z.ltb_lt. lia.
      * cbn [andb]. rewrite ?andb_false_r.
        destruct (x <? Z.of_nat k) eqn:E1, (x <? Z.of_nat (S k)) eqn:E2;
          try reflexivity;
          [apply Z.ltb_lt in E1; apply Z.ltb_ge in E2
          |apply Z.ltb_ge in E1; apply Z.ltb_lt in E2]; lia.
Qed.

End GradientCanvas.

Section GradientTheorems.
Import Pillow Gradient.

(** The canvas [create_gradient] returns, pixel by pixel. *)
Lemma create_gradient_pixels (w h : Z) (c1 c2 : RGB) (vertical : bool) :
  1 <= w < 2 ^ 31 -> 1 <= h < 2 ^ 31 -> byte_color c1 -> byte_color c2 ->
  exists img,
    create_gradient w h c1 c2 vertical = Some img
    /\ im_width img = w /\ im_height img = h
    /\ forall x y, 0 <= x < w -> 0 <= y < h ->
         im_px img x y = row_color c1 c2 (if vertical then y else x)
                                   (if vertical then h else w).
Proof.
  intros Hw Hh H1 H2. unfold create_gradient.
  replace ((w <? 0) || (h <? 0)) with false
    by (symmetry; apply orb_false_iff; split; apply Z.ltb_ge; lia).
  set (extent := if vertical then h else w).
  assert (Hext : 1 <= extent < 2 ^ 31) by (unfold extent; destruct vertical; lia).
  destruct (gradient_prefix w h c1 c2 vertical (Z.to_nat extent) H1 H2)
    as (img & Hfold & Hiw & Hih & Hpx); try (fold extent; lia).
  rewrite Z2Nat.id in Hfold, Hpx by lia.
  exists img. split; [exact Hfold|]. split; [exact Hiw|]. split; [exact Hih|].
  intros x y Hx Hy. rewrite (Hpx x y Hx Hy). fold extent.
  replace ((if vertical then y else x) <? extent) with true; [reflexivity|].
  symmetry. apply Z.ltb_lt. unfold extent. destruct vertical; lia.
Qed.

End GradientTheorems.

(** C1, as stated, fails: in a 1 x 4 vertical gradient from black to white,
    row 1 interpolates to 63.75, which rounds to 64, and the code paints
    63. *)
Lemma gradient_rounding_counterexample :
  exists img,
    Gradient.create_gradient 1 4 (0, 0, 0) (255, 255, 255) true = Some img
    /\ Pillow.im_px img 0 1 = (63, 63, 63)
    /\ rounded_lerp 0 255 1 4 = 64.
Proof.
  eexists. split; [vm_compute; reflexivity|].
  split; vm_compute; reflexivity.
Qed.

(** C1, amended: for sizes from 1 up to Pillow's limit and colours with
    8-bit channels, [create_gradient] returns a canvas of that size in
    which each channel of every pixel of row (column) [i] is
    [int(c1 * (1 - t) + c2 * t)], [t = i / extent], computed in binary64 and
    truncated, not rounded: it is the floor of the exact interpolation
    [(c1 * (extent - i) + c2 * i) / extent], or one less where that
    interpolation is an integer, and it lies in [[0, 255]], so the clamp
    never applies. *)
Theorem create_gradient_truncates (w h : Z) (c1 c2 : Pillow.RGB)
        (vertical : bool) :
  1 <= w < 2 ^ 31 -> 1 <= h < 2 ^ 31 -> byte_color c1 -> byte_color c2 ->
  exists img,
    Gradient.create_gradient w h c1 c2 vertical = Some img
    /\ Pillow.im_width img = w /\ Pillow.im_height img = h
    /\ forall x y, 0 <= x < w -> 0 <= y < h ->
         let i := if vertical then y else x in
         let extent := if vertical then h else w in
         let '(r1, g1, b1) := c1 in
         let '(r2, g2, b2) := c2 in
         exists r g b,
           Pillow.im_px img x y = (r, g, b)
           /\ truncated_lerp r1 r2 i extent r
           /\ truncated_lerp g1 g2 i extent g
           /\ truncated_lerp b1 b2 i extent b.
Proof.
  intros Hw Hh H1 H2.
  destruct (create_gradient_pixels w h c1 c2 vertical Hw Hh H1 H2)
    as (img & Hc & Hiw & Hih & Hpx).
  exists img. split; [exact Hc|]. split; [exact Hiw|]. split; [exact Hih|].
  intros x y Hx Hy i extent.
  assert (Hi : 0 <= i < extent) by (unfold i, extent; destruct vertical; lia).
  assert (Hn : extent < 2 ^ 31) by (unfold extent; destruct vertical; lia).
  pose proof (row_color_spec c1 c2 i extent H1 H2 Hi Hn) as Hrow.
  destruct c1 as [[r1 g1] b1], c2 as [[r2 g2] b2].
  destruct Hrow as (r & g & b & Hrc & Hr & Hg & Hb).
  exists r, g, b. rewrite (Hpx x y Hx Hy). fold i extent. auto.
Qed.

Lemma create_gradient_truncates_witness :
  (1 <= 1 < 2 ^ 31 /\ 1 <= 4 < 2 ^ 31
   /\ byte_color (0, 0, 0) /\ byte_color (255, 255, 255))
  /\ exists img,
       Gradient.create_gradient 1 4 (0, 0, 0) (255, 255, 255) true = Some img
       /\ Pillow.im_width img = 1 /\ Pillow.im_height img = 4
       /\ forall x y, 0 <= x < 1 -> 0 <= y < 4 ->
            exists r g b,
              Pillow.im_px img x y = (r, g, b)
              /\ truncated_lerp 0 255 y 4 r
              /\ truncated_lerp 0 255 y 4 g
              /\ truncated_lerp 0 255 y 4 b.
Proof.
  assert (Hw : 1 <= 1 < 2 ^ 31) by (split; [lia | reflexivity]).
  assert (Hh : 1 <= 4 < 2 ^ 31) by (split; [lia | reflexivity]).
  assert (H1 : byte_color (0, 0, 0)) by (simpl; lia).
  assert (H2 : byte_color (255, 255, 255)) by (simpl; lia).
  split; [auto|].
  exact (create_gradient_truncates 1 4 (0, 0, 0) (255, 255, 255) true
                                   Hw Hh H1 H2).
Defined.

(** C9, as stated, fails: between two equal colours (255, 255, 255) on a
    canvas 7 rows high, row 3 is painted (254, 254, 254), below the
    channel-wise minimum 255. *)
Lemma gradient_below_min_counterexample :
  exists img,
    Gradient.create_gradient 1 7 (255, 255, 255) (255, 255, 255) true = Some img
    /\ Pillow.im_px img 0 3 = (254, 254, 254)
    /\ Z.min 255 255 = 255.
Proof.
  eexists. split; [vm_compute; reflexivity|].
  split; vm_compute; reflexivity.
Qed.

(** C9, amended: for colours with channels in [[0, 255]] (and sizes from 1
    up to Pillow's limit), every channel of every pixel produced by
    [create_gradient] lies between the channel-wise minimum of the two
    colours minus one and their maximum, and in [[0, 255]], so no clamping
    is ever needed; where the two input channels differ it is not below
    their minimum. *)
Theorem create_gradient_channel_bounds (w h : Z) (c1 c2 : Pillow.RGB)
        (vertical : bool) :
  1 <= w < 2 ^ 31 -> 1 <= h < 2 ^ 31 -> byte_color c1 -> byte_color c2 ->
  exists img,
    Gradient.create_gradient w h c1 c2 vertical = Some img
    /\ forall x y, 0 <= x < w -> 0 <= y < h ->
         let '(r1, g1, b1) := c1 in
         let '(r2, g2, b2) := c2 in
         let '(r, g, b) := Pillow.im_px img x y in
         let bounded c1 c2 z :=
           Z.min c1 c2 - 1 <= z <= Z.max c1 c2 /\ 0 <= z <= 255
           /\ (c1 <> c2 -> Z.min c1 c2 <= z) in
         bounded r1 r2 r /\ bounded g1 g2 g /\ bounded b1 b2 b.
Proof.
  intros Hw Hh H1 H2.
  destruct (create_gradient_pixels w h c1 c2 vertical Hw Hh H1 H2)
    as (img & Hc & Hiw & Hih & Hpx).
  exists img. split; [exact Hc|].
  intros x y Hx Hy.
  set (i := if vertical then y else x).
  set (extent := if vertical then h else w).
  assert (Hi : 0 <= i < extent) by (unfold i, extent; destruct vertical; lia).
  assert (Hn : extent < 2 ^ 31) by (unfold extent; destruct vertical; lia).
  pose proof (row_color_spec c1 c2 i extent H1 H2 Hi Hn) as Hrow.
  destruct c1 as [[r1 g1] b1], c2 as [[r2 g2] b2].
  destruct Hrow as (r & g & b & Hrc & Hr & Hg & Hb).
  rewrite (Hpx x y Hx Hy). fold i extent. rewrite Hrc.
  unfold truncated_lerp in Hr, Hg, Hb. cbv zeta. tauto.
Qed.

Lemma create_gradient_channel_bounds_witness :
  (1 <= 512 < 2 ^ 31 /\ 1 <= 512 < 2 ^ 31
   /\ byte_color (15, 23, 42) /\ byte_color (30, 41, 59))
  /\ exists img,
       Gradient.create_gradient 512 512 (15, 23, 42) (30, 41, 59) true = Some img
       /\ forall x y, 0 <= x < 512 -> 0 <= y < 512 ->
            let '(r, g, b) := Pillow.im_px img x y in
            let bounded c1 c2 z :=
              Z.min c1 c2 - 1 <= z <= Z.max c1 c2 /\ 0 <= z <= 255
              /\ (c1 <> c2 -> Z.min c1 c2 <= z) in
            bounded 15 30 r /\ bounded 23 41 g /\ bounded 42 59 b.
Proof.
  assert (Hw : 1 <= 512 < 2 ^ 31) by (split; [lia | reflexivity]).
  assert (H1 : byte_color (15, 23, 42)) by (simpl; lia).
  assert (H2 : byte_color (30, 41, 59)) by (simpl; lia).
  split; [auto|].
  exact (create_gradient_channel_bounds 512 512 (15, 23, 42) (30, 41, 59) true
                                        Hw Hw H1 H2).
Defined.

(** ** The glow loop *)

(** C10: for every radius of [range(220, 150, -10)] the value
    [30 - (220 - radius) // 10] lies in [[23, 30]], so [max(5, ...)] returns
    it and never the floor 5. *)
Theorem glow_alpha_floor_unreachable (radius : Z) :
  In radius Icon.glow_radii ->
  23 <= 30 - (220 - radius) / 10 <= 30 /\
  Icon.glow_alpha radius = 30 - (220 - radius) / 10.
Proof.
  intros Hin. unfold Icon.glow_alpha.
  assert (H : 23 <= 30 - (220 - radius) / 10 <= 30).
  { vm_compute in Hin.
    repeat (destruct Hin as [<- | Hin]; [vm_compute; split; discriminate|]).
    contradiction. }
  split; [exact H|]. lia.
Qed.

Lemma glow_alpha_floor_unreachable_witness :
  In 160 Icon.glow_radii /\
  (23 <= 30 - (220 - 160) / 10 <= 30 /\
   Icon.glow_alpha 160 = 30 - (220 - 160) / 10).
Proof.
  assert (Hin : In 160 Icon.glow_radii) by (vm_compute; tauto).
  split; [exact Hin | exact (glow_alpha_floor_unreachable 160 Hin)].
Defined.

Lemma glow_alpha_values :
  map Icon.glow_alpha Icon.glow_radii = [30; 29; 28; 27; 26; 25; 24].
Proof. reflexivity. Qed.

(** C2, as stated, fails: the first and largest circle (radius 220) has
    alpha 30, the last and smallest (radius 160) has alpha 24. *)
Lemma glow_order_counterexample :
  In 220 Icon.glow_radii /\ In 160 Icon.glow_radii /\
  Icon.glow_alpha 220 = 30 /\ Icon.glow_alpha 160 = 24 /\
  ~ Spec.smallest_radius_most_opaque.
Proof.
  repeat split; try (vm_compute; tauto).
  intros H. specialize (H 220). vm_compute in H.
  apply H; [tauto | reflexivity].
Qed.

Section GlowLoop.

Import Pillow.

Lemma glow_loop_snoc (radii : list Z) (last : Z) (bg : Image RGB) :
  Icon.glow_loop (radii ++ [last]) bg
  = Icon.glow_step (Icon.glow_loop radii bg) last.
Proof. unfold Icon.glow_loop. now rewrite fold_left_app. Qed.

(** The centre of the bounding box lies in the ellipse. *)
Lemma in_ellipse_centre (cx cy radius : Z) :
  in_ellipse (cx - radius) (cy - radius) (cx + radius) (cy + radius) cx cy
  = true.
Proof.
  unfold in_ellipse. apply Z.leb_le.
  replace (2 * cx - (cx - radius + (cx + radius))) with 0 by lia.
  replace (2 * cy - (cy - radius + (cy + radius))) with 0 by lia.
  rewrite !Z.mul_0_l. apply Z.square_nonneg.
Qed.

(** At the centre, one step blends the circle's colour over the pixel
    below. *)
Lemma glow_step_centre (bg : Image RGB) (radius : Z) :
  im_px (Icon.glow_step bg radius) Icon.center_x Icon.center_y
  = to_rgb_px (blend_px (to_rgba_px (im_px bg Icon.center_x Icon.center_y))
                        (Icon.glow_fill radius)).
Proof.
  unfold Icon.glow_step, Icon.glow_overlay, convert_rgb, alpha_composite,
    convert_rgba, ellipse, paint.
  cbn [im_px im_width im_height].
  rewrite in_ellipse_centre.
  replace (in_bounds _ _ _) with true by reflexivity.
  reflexivity.
Qed.

End GlowLoop.

(** C2, amended: the circles are composited largest and most opaque first
    (radius 220, alpha 30) down to smallest and faintest last (radius 160,
    alpha 24), and after the loop the centre pixel (256, 256) is the blend
    of that last, smallest layer over the canvas accumulated from the six
    layers before it. *)
Theorem glow_last_layer_on_top (bg : Pillow.Image Pillow.RGB) :
  map (fun r => (r, Icon.glow_alpha r)) Icon.glow_radii
  = [(220, 30); (210, 29); (200, 28); (190, 27); (180, 26); (170, 25); (160, 24)]
  /\ Pillow.im_px (Icon.glow bg) 256 256
     = Pillow.to_rgb_px
         (Pillow.blend_px
            (Pillow.to_rgba_px
               (Pillow.im_px
                  (Icon.glow_loop [220; 210; 200; 190; 180; 170] bg) 256 256))
            (59, 130, 246, 24)).
Proof.
  split; [reflexivity|].
  unfold Icon.glow.
  change Icon.glow_radii with ([220; 210; 200; 190; 180; 170] ++ [160]).
  rewrite glow_loop_snoc.
  change 256 with Icon.center_x at 1 3.
  change 256 with Icon.center_y.
  rewrite glow_step_centre. reflexivity.
Qed.

(** On the script's own background the centre ends up at this colour. *)
Example glow_centre_value :
  option_map (fun bg => Pillow.im_px (Icon.glow bg) 256 256) Icon.background
  = Some (42, 85, 156).
Proof. vm_compute. reflexivity. Qed.

(** ** The bridge arc *)

Section BridgeArc.

Import PyFloat Icon.

Lemma bridge_points_map : bridge_points = map bridge_point (range 101).
Proof. unfold bridge_points. now rewrite append_loop_map. Qed.

Lemma bridge_points_nth (i : Z) :
  0 <= i <= 100 ->
  nth_error bridge_points (Z.to_nat i) = Some (bridge_point i).
Proof.
  intros Hi. rewrite bridge_points_map, nth_error_map.
  rewrite range_nth_error by lia. reflexivity.
Qed.

(** The parabola is even in [t], whatever float [t] is. *)
Lemma bridge_curve_y_even (t : float) :
  bridge_curve_y (SFopp t) = bridge_curve_y t.
Proof.
  unfold bridge_curve_y. f_equal. f_equal. f_equal.
  destruct t as [[|]|[|]| |[|] m e]; reflexivity.
Qed.

End BridgeArc.

(** C6: [bridge_points] holds exactly 101 samples; sample [i] is
    [(book_x - 40 + i * (book_width + 80) / 100, bridge_y - 30 * (1 - t * t))]
    with [t = (i - 50) / 50], which runs from -1.0 at [i = 0] to 1.0 at
    [i = 100]; each computed sample lies within [2^-40] of the exact point
    of the parabola [y = bridge_y - 30 * (1 - t^2)]. *)
Theorem bridge_curve_samples (i : Z) :
  0 <= i <= 100 ->
  let t := PyFloat.int_truediv (i - 50) 50 in
  List.length Icon.bridge_points = 101%nat
  /\ Icon.bridge_t 0 = PyFloat.of_int (-1)
  /\ Icon.bridge_t 100 = PyFloat.of_int 1
  /\ nth_error Icon.bridge_points (Z.to_nat i)
     = Some ((PyFloat.of_int (Icon.book_x - 40)
              + PyFloat.int_truediv (i * (Icon.book_width + 80)) 100)%py,
             (PyFloat.of_int Icon.bridge_y
              - PyFloat.of_int 30 * (PyFloat.of_int 1 - t * t))%py)
  /\ Spec.close t (Spec.sample_t i) = true
  /\ Spec.close (fst (Icon.bridge_point i)) (Spec.sample_x i) = true
  /\ Spec.close (snd (Icon.bridge_point i))
                (Spec.parabola (Spec.sample_t i)) = true.
Proof.
  intros Hi t.
  split; [reflexivity|]. split; [reflexivity|]. split; [reflexivity|].
  split; [apply bridge_points_nth; exact Hi|].
  assert (Hall :
    forallb (fun i =>
               Spec.close (Icon.bridge_t i) (Spec.sample_t i)
               && Spec.close (fst (Icon.bridge_point i)) (Spec.sample_x i)
               && Spec.close (snd (Icon.bridge_point i))
                             (Spec.parabola (Spec.sample_t i)))
            (Icon.range 101) = true) by (vm_compute; reflexivity).
  pose proof (range_forallb 101 _ Hall i ltac:(lia)) as H.
  apply andb_prop in H. destruct H as [H H3].
  apply andb_prop in H. destruct H as [H1 H2].
  repeat split; assumption.
Qed.

Lemma bridge_curve_samples_witness :
  0 <= 25 <= 100 /\
  nth_error Icon.bridge_points 25
  = Some (PyFloat.of_int 191, PyFloat.int_truediv 747 2).
Proof.
  split; [lia|].
  destruct (bridge_curve_samples 25 ltac:(lia)) as [_ [_ [_ [Hnth _]]]].
  exact Hnth.
Defined.

(** C7: the sampled curve is symmetric about its midpoint: samples [i] and
    [100 - i] have the same y-coordinate, bit for bit and under Python's
    [==]; and the parabola takes the same value at [t] and [-t]. *)
Theorem bridge_curve_symmetric (i : Z) :
  0 <= i <= 100 ->
  (exists p q,
      nth_error Icon.bridge_points (Z.to_nat i) = Some p /\
      nth_error Icon.bridge_points (Z.to_nat (100 - i)) = Some q /\
      snd p = snd q /\ PyFloat.eqb (snd p) (snd q) = true)
  /\ forall t, Icon.bridge_curve_y (SFopp t) = Icon.bridge_curve_y t.
Proof.
  intros Hi. split; [|apply bridge_curve_y_even].
  exists (Icon.bridge_point i), (Icon.bridge_point (100 - i)).
  rewrite !bridge_points_nth by lia.
  assert (Hall :
    forallb (fun i =>
               PyFloat.same (snd (Icon.bridge_point i))
                            (snd (Icon.bridge_point (100 - i)))
               && PyFloat.eqb (snd (Icon.bridge_point i))
                              (snd (Icon.bridge_point (100 - i))))
            (Icon.range 101) = true) by (vm_compute; reflexivity).
  pose proof (range_forallb 101 _ Hall i ltac:(lia)) as H.
  apply andb_prop in H. destruct H as [H1 H2].
  repeat split; [apply same_eq; exact H1 | exact H2].
Qed.

Lemma bridge_curve_symmetric_witness :
  0 <= 10 <= 100 /\
  exists p q,
    nth_error Icon.bridge_points 10 = Some p /\
    nth_error Icon.bridge_points 90 = Some q /\
    snd p = snd q /\ PyFloat.eqb (snd p) (snd q) = true.
Proof.
  split; [lia|].
  exact (proj1 (bridge_curve_symmetric 10 ltac:(lia))).
Defined.

(** C3 (the code departs from it): the two struts start at x = 191 and
    x = 321 and end on the baseline y = 426, but their top y-coordinates are
    328.5 and 388.5, while the curve at those positions, [t = 2 * (p - 0.5)],
    is at y = 373.5, as are samples 25 and 75 of the arc. *)
Theorem support_struts_off_curve :
  Icon.support_struts
  = [((PyFloat.of_int 191, PyFloat.int_truediv 657 2),
      (PyFloat.of_int 191, PyFloat.of_int 426));
     ((PyFloat.of_int 321, PyFloat.int_truediv 777 2),
      (PyFloat.of_int 321, PyFloat.of_int 426))]
  /\ map (fun p => Icon.bridge_curve_y
                     (PyFloat.of_int 2 * (p - Icon.lit_0_5))%py)
         Icon.support_positions
     = [PyFloat.int_truediv 747 2; PyFloat.int_truediv 747 2]
  /\ Icon.bridge_point 25 = (PyFloat.of_int 191, PyFloat.int_truediv 747 2)
  /\ Icon.bridge_point 75 = (PyFloat.of_int 321, PyFloat.int_truediv 747 2).
Proof. vm_compute. repeat split; reflexivity. Qed.

(** ** Fonts, failures and outputs of the routines *)

Section Routines.

Import Script Effects.
Local Open Scope script_scope.




(** *** Computations determined by the host *)















(** *** Computations that never end with [OSError] *)

Lemma ne_ret {A} (a : A) : never_oserror (ret a).
Proof. intros w. discriminate. Qed.

Lemma ne_bind {A B} (m : M A) (k : A -> M B) :
  never_oserror m -> (forall a, never_oserror (k a)) ->
  never_oserror (bind m k).
Proof.
  intros Hm Hk w. unfold bind. specialize (Hm w).
  destruct (m w) as [[a|e] w1]; [apply Hk|].
  cbn [fst] in *. intros E. apply Hm. injection E as ->. reflexivity.
Qed.

(** A bare [except] stops every exception of the body. *)
Lemma ne_try_except {A} (body handler : M A) :
  never_oserror handler -> never_oserror (try_except body handler).
Proof.
  intros Hh w. unfold try_except.
  destruct (body w) as [[a|e] w1]; [discriminate | apply Hh].
Qed.

Lemma ne_of_option {A} (o : option A) : never_oserror (of_option ValueError o).
Proof. intros w. destruct o; discriminate. Qed.

Lemma ne_textbbox (text : string) (font : Font) :
  never_oserror (textbbox text font).
Proof.
  intros w. unfold textbbox.
  destruct (text_bbox (host w) font text); discriminate.
Qed.

Lemma ne_sin (x : PyFloat.float) : never_oserror (sin x).
Proof. intros w. discriminate. Qed.

Lemma ne_for_each {A S} (xs : list A) (body : S -> A -> M S) (s : S) :
  (forall s x, never_oserror (body s x)) ->
  never_oserror (for_each xs body s).
Proof.
  intros Hbody. revert s. induction xs as [|x xs IH]; intros s; cbn [for_each].
  - apply ne_ret.
  - apply ne_bind; [apply Hbody | intros s'; apply IH].
Qed.

Lemma ne_bridge_thickness (i : Z) : never_oserror (bridge_thickness i).
Proof.
  unfold bridge_thickness.
  apply ne_bind; [apply ne_sin | intros s; apply ne_of_option].
Qed.

(** *** Computations that leave the world alone *)

Lemma silent_ret {A} (a : A) : silent (ret a).
Proof. intros w. reflexivity. Qed.

Lemma silent_bind {A B} (m : M A) (k : A -> M B) :
  silent m -> (forall a, silent (k a)) -> silent (bind m k).
Proof.
  intros Hm Hk w. unfold bind. specialize (Hm w).
  destruct (m w) as [[a|e] w1]; cbn [snd] in *; subst w1;
    [apply Hk | reflexivity].
Qed.

Lemma silent_try_except {A} (body handler : M A) :
  silent body -> silent handler -> silent (try_except body handler).
Proof.
  intros Hb Hh w. unfold try_except. specialize (Hb w).
  destruct (body w) as [[a|e] w1]; cbn [snd] in *; subst w1;
    [reflexivity | apply Hh].
Qed.

Lemma silent_of_option {A} (e : exn) (o : option A) : silent (of_option e o).
Proof. intros w. destruct o; reflexivity. Qed.

Lemma silent_truetype (path : string) (size : Z) : silent (truetype path size).
Proof.
  intros w. unfold truetype. destruct (font_file (host w) path); reflexivity.
Qed.

Lemma silent_textbbox (text : string) (font : Font) :
  silent (textbbox text font).
Proof.
  intros w. unfold textbbox.
  destruct (text_bbox (host w) font text); reflexivity.
Qed.

Lemma silent_sin (x : PyFloat.float) : silent (sin x).
Proof. intros w. reflexivity. Qed.

Lemma silent_for_each {A S} (xs : list A) (body : S -> A -> M S) (s : S) :
  (forall s x, silent (body s x)) -> silent (for_each xs body s).
Proof.
  intros Hbody. revert s. induction xs as [|x xs IH]; intros s; cbn [for_each].
  - apply silent_ret.
  - apply silent_bind; [apply Hbody | intros s'; apply IH].
Qed.

Lemma silent_bridge_thickness (i : Z) : silent (bridge_thickness i).
Proof.
  unfold bridge_thickness.
  apply silent_bind; [apply silent_sin | intros s; apply silent_of_option].
Qed.

(** *** Running a routine step by step *)

Lemma bind_ok {A B} (m : M A) (k : A -> M B) (w : World) (b : B) (w' : World) :
  bind m k w = (Ok b, w') ->
  exists a w1, m w = (Ok a, w1) /\ k a w1 = (Ok b, w').
Proof.
  unfold bind. destruct (m w) as [[a|e] w1]; intros H; [eauto | discriminate].
Qed.

(** A step that is silent and never ends with [OSError] either hands a
    value on in the same world or ends the run with [ValueError]. *)
Lemma bind_step {A B} (m : M A) (k : A -> M B) (w : World)
      (P : result B * World -> Prop) :
  silent m -> never_oserror m ->
  P (Raise ValueError, w) ->
  (forall a, m w = (Ok a, w) -> P (k a w)) ->
  P (bind m k w).
Proof.
  intros Hs Hn Hraise Hok. unfold bind.
  specialize (Hs w). specialize (Hn w).
  destruct (m w) as [[a|e] w1]; cbn [fst snd] in *; subst w1.
  - apply Hok. reflexivity.
  - destruct e; [exfalso; apply Hn; reflexivity | exact Hraise].
Qed.

Lemma save_then_print (o : Output) (name line : string) (w : World) :
  (save o name ;;; print line) w
  = if can_save (host w) name
    then (Ok tt, extend w [mkFile name "PNG" 95 o] [line])
    else (Raise OSError, w).
Proof.
  unfold bind, save, print, extend.
  destruct (can_save (host w) name); reflexivity.
Qed.

(** *** The size of a picture through drawing *)

Lemma picture_size_draw (p : Picture) (op : DrawOp) :
  picture_size (draw p op) = picture_size p.
Proof. reflexivity. Qed.

Lemma picture_size_fold {A} (f : Picture -> A -> Picture) (xs : list A) :
  (forall p x, picture_size (f p x) = picture_size p) ->
  forall p, picture_size (fold_left f xs p) = picture_size p.
Proof.
  intros Hf. induction xs as [|x xs IH]; intros p; cbn [fold_left].
  - reflexivity.
  - rewrite IH. apply Hf.
Qed.

Lemma picture_size_for_each {A} (xs : list A) (body : Picture -> A -> M Picture) :
  (forall p x w p' w', body p x w = (Ok p', w') ->
                       picture_size p' = picture_size p) ->
  forall p w p' w', for_each xs body p w = (Ok p', w') ->
                    picture_size p' = picture_size p.
Proof.
  intros Hbody. induction xs as [|x xs IH]; intros p w p' w' E;
    cbn [for_each] in E.
  - injection E as <- _. reflexivity.
  - apply bind_ok in E as (p1 & w1 & E1 & E).
    rewrite (IH _ _ _ _ E). eapply Hbody. exact E1.
Qed.

Lemma glow_loop_size (radii : list Z) (bg : Pillow.Image Pillow.RGB) :
  Pillow.im_width (Icon.glow_loop radii bg) = Pillow.im_width bg
  /\ Pillow.im_height (Icon.glow_loop radii bg) = Pillow.im_height bg.
Proof.
  revert bg. unfold Icon.glow_loop.
  induction radii as [|r radii IH]; intros bg; cbn [fold_left].
  - split; reflexivity.
  - destruct (IH (Icon.glow_step bg r)) as [-> ->]. split; reflexivity.
Qed.

Lemma background_size (bg : Pillow.Image Pillow.RGB) :
  Icon.background = Some bg ->
  Pillow.im_width bg = 512 /\ Pillow.im_height bg = 512.
Proof.
  unfold Icon.background.
  change Icon.dark_slate with (Some (15, 23, 42)).
  change Icon.dark_blue with (Some (30, 41, 59)).
  change Icon.size with 512. cbv iota beta.
  assert (Hw : 1 <= 512 < 2 ^ 31) by (split; [lia | reflexivity]).
  destruct (create_gradient_pixels 512 512 (15, 23, 42) (30, 41, 59) true
              Hw Hw ltac:(simpl; lia) ltac:(simpl; lia))
    as (img & -> & Hiw & Hih & _).
  intros E. injection E as <-. auto.
Qed.

(** *** The three routines *)

(** Every run of [create_beautiful_app_icon] ends in one of three ways:
    the picture is saved; a [ValueError] came up before the save; the
    host refused the save. *)
Lemma icon_run (w : World) :
  saved_or_failed "beautiful_app_icon_512x512.png"
                  "Created beautiful_app_icon_512x512.png" (512, 512) w
                  (create_beautiful_app_icon w).
Proof.
  unfold create_beautiful_app_icon. cbv zeta.
  apply bind_step;
    [apply silent_of_option | apply ne_of_option
     | right; left; reflexivity | intros bg Hbg].
  assert (Hsize : Pillow.im_width bg = 512 /\ Pillow.im_height bg = 512).
  { apply background_size. destruct Icon.background as [bg0|];
      [injection Hbg as ->; reflexivity | discriminate]. }
  destruct Hsize as [Hbw Hbh]. clear Hbg.
  apply bind_step; [| | right; left; reflexivity | intros img1 E1].
  { apply silent_for_each. intros img [i [[x1 y1] [x2 y2]]].
    apply silent_bind; [apply silent_bridge_thickness|].
    intros th; apply silent_ret. }
  { apply ne_for_each. intros img [i [[x1 y1] [x2 y2]]].
    apply ne_bind; [apply ne_bridge_thickness|].
    intros th; apply ne_ret. }
  apply picture_size_for_each in E1.
  2:{ intros p [i [[x1 y1] [x2 y2]]] v p' v' Eb.
      apply bind_ok in Eb as (th & v1 & _ & Eb).
      injection Eb as <- _. reflexivity. }
  rewrite picture_size_fold in E1 by (intros; reflexivity).
  rewrite !picture_size_draw in E1.
  apply bind_step; [| | right; left; reflexivity | intros [font small_font] _].
  { apply silent_try_except.
    - apply silent_bind; [apply silent_truetype | intros f1].
      apply silent_bind; [apply silent_truetype | intros f2].
      apply silent_ret.
    - apply silent_bind; [apply silent_ret | intros f1].
      apply silent_bind; [apply silent_ret | intros f2].
      apply silent_ret. }
  { apply ne_try_except.
    apply ne_bind; [apply ne_ret | intros f1].
    apply ne_bind; [apply ne_ret | intros f2]. apply ne_ret. }
  apply bind_step;
    [apply silent_textbbox | apply ne_textbbox
     | right; left; reflexivity | intros [[[l t] r] b] _].
  apply bind_step;
    [apply silent_textbbox | apply ne_textbbox
     | right; left; reflexivity | intros [[[l' t'] r'] b'] _].
  rewrite save_then_print.
  destruct (can_save (host w) "beautiful_app_icon_512x512.png") eqn:Hsave.
  - left. eexists. split; [reflexivity|]. split; [|exact Hsave].
    cbn [output_size].
    rewrite picture_size_fold by (intros p [x y]; reflexivity).
    rewrite !picture_size_draw.
    rewrite picture_size_fold by (intros; reflexivity).
    etransitivity; [exact E1|].
    destruct (glow_loop_size Icon.glow_radii bg) as [Hgw Hgh].
    unfold picture_size, Icon.glow. cbn [base].
    rewrite Hgw, Hgh, Hbw, Hbh. reflexivity.
  - right. right. split; [reflexivity | exact Hsave].
Qed.

(** Without the Helvetica file, [create_feature_graphic] meets the
    unguarded [ImageFont.truetype] of its feature loop. *)
Lemma feature_graphic_without_font (w : World) :
  font_file (host w) helvetica = false ->
  create_feature_graphic w = (Raise OSError, w).
Proof.
  intros Hfont. unfold create_feature_graphic.
  unfold bind, try_except, truetype, load_default, ret. rewrite Hfont.
  unfold features, for_each, bind, truetype. rewrite Hfont. reflexivity.
Qed.

(** With it, and where the file can be written, the routine saves one
    1024 x 500 picture. *)
Lemma feature_graphic_with_font (w : World) :
  font_file (host w) helvetica = true ->
  can_save (host w) "feature_graphic_1024x500.png" = true ->
  exists img,
    create_feature_graphic w
    = (Ok tt, extend w [mkFile "feature_graphic_1024x500.png" "PNG" 95 img]
                     ["Created feature_graphic_1024x500.png"%string])
    /\ output_size img = (1024, 500).
Proof.
  intros Hfont Hsave. unfold create_feature_graphic.
  unfold bind, try_except, truetype, load_default, ret. rewrite Hfont.
  unfold features, for_each, bind, truetype, ret, save, print, extend.
  repeat (progress (rewrite ?Hfont, ?Hsave; cbv beta iota zeta)).
  cbn [host clock entropy files stdout].
  eexists. split; [reflexivity|]. reflexivity.
Qed.

(** The font [create_app_icon] ends up with. *)
Lemma app_icon_font (w : World) :
  try_except (truetype helvetica 120) load_default w
  = (Ok (if font_file (host w) helvetica then TrueType helvetica 120
         else DefaultFont), w).
Proof.
  unfold try_except, truetype, load_default, ret.
  destruct (font_file (host w) helvetica); reflexivity.
Qed.

(** Where the text can be measured and the file written,
    [create_app_icon] saves one 512 x 512 picture, with or without the
    Helvetica file. *)
Lemma app_icon_saves (w : World) :
  text_bbox (host w)
            (if font_file (host w) helvetica then TrueType helvetica 120
             else DefaultFont) "BB" <> None ->
  can_save (host w) "app_icon_512x512.png" = true ->
  exists img,
    create_app_icon w
    = (Ok tt, extend w [mkFile "app_icon_512x512.png" "PNG" 95 img]
                     ["Created app_icon_512x512.png"%string])
    /\ output_size img = (512, 512).
Proof.
  intros Hbbox Hsave. unfold create_app_icon. cbv zeta.
  unfold bind at 1. rewrite app_icon_font.
  unfold bind at 1, textbbox.
  destruct (text_bbox (host w) _ "BB") as [[[[l t] r] b]|];
    [|exfalso; apply Hbbox; reflexivity].
  rewrite save_then_print, Hsave.
  eexists. split; [reflexivity|]. reflexivity.
Qed.

End Routines.

(** *** When the icon routine ends normally *)

Section Thickness.
Local Open Scope Q_scope.
Import PyFloat.

Lemma pow2_m116 : pow2 (-116) == 1 # 83076749736557242056487941267521536.
Proof. reflexivity. Qed.
Lemma pow2_m53 : pow2 (-53) == 1 # 9007199254740992.
Proof. reflexivity. Qed.
Lemma pow2_m52 : pow2 (-52) == 1 # 4503599627370496.
Proof. reflexivity. Qed.

(** A float of the unit interval has a value there. *)
Lemma unit_interval_rep (x : float) :
  Script.unit_interval x = true -> exists v, rep x v /\ v <= 1.
Proof.
  destruct x as [[|]| | |[|] m e]; try discriminate; cbn [Script.unit_interval].
  - intros _. exists 0. split; [left; split; reflexivity | lra].
  - intros H. apply andb_prop in H. destruct H as [H He2].
    apply andb_prop in H. destruct H as [Hd He1].
    apply Z.eqb_eq in Hd. apply Z.leb_le in He1.
    exists (inject_Z (Z.pos m) * pow2 e).
    pose proof (digits2_bounds m) as [Hlo Hhi]. rewrite Hd in Hlo, Hhi.
    change (2 ^ (53 - 1))%Z with 4503599627370496%Z in Hlo.
    change (2 ^ 53)%Z with 9007199254740992%Z in Hhi.
    assert (HM : 4503599627370496 <= inject_Z (Z.pos m)
                 /\ inject_Z (Z.pos m) + 1 <= 9007199254740992).
    { split.
      - change 4503599627370496 with (inject_Z 4503599627370496).
        rewrite <- Zle_Qle. exact Hlo.
      - change 1 with (inject_Z 1).
        change 9007199254740992 with (inject_Z 9007199254740992).
        rewrite <- inject_Z_plus, <- Zle_Qle. lia. }
    pose proof (pow2_le _ _ He1) as Hp1. rewrite pow2_m116 in Hp1.
    pose proof (pow2_pos e) as Hp0.
    assert (Hv1 : inject_Z (Z.pos m) * pow2 e <= 1).
    { apply orb_prop in He2. destruct He2 as [He2|He2].
      - apply Z.leb_le in He2. pose proof (pow2_le _ _ He2) as Hp2.
        rewrite pow2_m53 in Hp2.
        set (M := inject_Z (Z.pos m)) in *. set (P := pow2 e) in *.
        clearbody M P. nra.
      - apply andb_prop in He2. destruct He2 as [Hm He].
        apply Z.eqb_eq in Hm. apply Z.eqb_eq in He. subst e.
        rewrite Hm, pow2_m52. apply Qle_bool_imp_le. reflexivity. }
    split; [|exact Hv1]. right. split.
    + exists m, e. split; [reflexivity|]. split; [exact Hd | reflexivity].
    + unfold inwin. rewrite pow2_m64, pow2_64.
      set (M := inject_Z (Z.pos m)) in *. set (P := pow2 e) in *.
      clearbody M P. split; nra.
Qed.

(** [int(8 + 4 * s)] is defined for [s] of the unit interval. *)
Lemma thickness_defined (s : float) :
  Script.unit_interval s = true ->
  exists z, to_int (add (of_int 8) (mul (of_int 4) s)) = Some z.
Proof.
  intros Hs. destruct (unit_interval_rep s Hs) as (vs & Rs & Hs1).
  pose proof (rep_nonneg _ _ Rs) as Hs0.
  assert (Hlow : vs == 0 \/ pow2 (-64) <= vs).
  { destruct Rs as [[_ H]|[_ [H _]]]; [left; exact H | right; exact H]. }
  rewrite pow2_m64 in Hlow.
  pose proof (of_int_rep 4 ltac:(lia)) as R4.
  pose proof (of_int_rep 8 ltac:(lia)) as R8.
  change (inject_Z 4) with 4 in R4. change (inject_Z 8) with 8 in R8.
  set (f4 := of_int 4) in *. set (f8 := of_int 8) in *. clearbody f4 f8.
  destruct (mul_rep f4 s 4 vs R4 Rs) as (v1 & R1 & N1).
  { destruct Hlow as [H0|H0].
    - left. rewrite H0. ring.
    - right. rewrite pow2_m63, pow2_63. split; lra. }
  set (p := mul f4 s) in *. clearbody p.
  pose proof (rep_nonneg _ _ R1) as Hv10.
  unfold near in N1. rewrite ulp_rel_value in N1. destruct N1 as [N11 N12].
  destruct (add_rep f8 p 8 v1 R8 R1) as (v2 & R2 & _).
  { right. rewrite pow2_m63, pow2_63. split; lra. }
  destruct (to_int_rep (add f8 p) v2 R2) as (z & Ez & _).
  exists z. exact Ez.
Qed.

End Thickness.

Section NormalEnd.
Import Script Effects.
Local Open Scope script_scope.

Lemma bind_run {A B} (m : M A) (k : A -> M B) (w : World) (a : A)
      (P : result B * World -> Prop) :
  m w = (Ok a, w) -> P (k a w) -> P (bind m k w).
Proof. intros E H. unfold bind. rewrite E. exact H. Qed.

(** A loop whose body succeeds on every element, leaving the world alone,
    does so as a whole. *)
Lemma for_each_runs {A S} (xs : list A) (body : S -> A -> M S) (w : World) :
  (forall s x, In x xs -> exists s', body s x w = (Ok s', w)) ->
  forall s, exists s', for_each xs body s w = (Ok s', w).
Proof.
  induction xs as [|x xs IH]; intros Hbody s; cbn [for_each].
  - exists s. reflexivity.
  - destruct (Hbody s x (or_introl eq_refl)) as [s1 E1].
    destruct (IH (fun s x H => Hbody s x (or_intror H)) s1) as [s' E].
    exists s'. unfold bind. rewrite E1. exact E.
Qed.

Lemma bridge_segment_index (i : Z) seg :
  In (i, seg) bridge_segments -> 0 <= i < 100.
Proof.
  unfold bridge_segments. intros H. apply in_combine_l in H.
  assert (Hlen : Z.of_nat (List.length Icon.bridge_points) - 1 = 100)
    by (vm_compute; reflexivity).
  rewrite Hlen in H. apply range_In. exact H.
Qed.

Lemma bridge_thickness_runs (i : Z) (w : World) :
  unit_interval (libm_sin (host w) (bridge_angle i)) = true ->
  exists z, bridge_thickness i w = (Ok z, w).
Proof.
  intros Hs. destruct (thickness_defined _ Hs) as [z Ez].
  exists z. unfold bridge_thickness, bind, sin.
  fold (bridge_angle i). rewrite Ez. reflexivity.
Qed.

Lemma background_defined : exists bg, Icon.background = Some bg.
Proof.
  unfold Icon.background.
  change Icon.dark_slate with (Some (15, 23, 42)).
  change Icon.dark_blue with (Some (30, 41, 59)).
  change Icon.size with 512. cbv iota beta.
  assert (Hw : 1 <= 512 < 2 ^ 31) by (split; [lia | reflexivity]).
  destruct (create_gradient_pixels 512 512 (15, 23, 42) (30, 41, 59) true
              Hw Hw ltac:(simpl; lia) ltac:(simpl; lia))
    as (img & -> & _).
  exists img. reflexivity.
Qed.

Lemma icon_fonts_run (w : World) :
  try_except
    (font <- truetype helvetica 32 ;;
     small_font <- truetype helvetica 18 ;;
     ret (font, small_font))
    (font <- load_default ;;
     small_font <- load_default ;;
     ret (font, small_font)) w
  = (Ok (icon_fonts (host w)), w).
Proof.
  unfold try_except, bind, truetype, load_default, ret, icon_fonts.
  destruct (font_file (host w) helvetica) eqn:E;
    cbv beta iota; rewrite ?E; reflexivity.
Qed.

(** On a host that is [icon_host_ok] the routine ends normally. *)
Lemma icon_ends_normally (w : World) :
  icon_host_ok (host w) -> fst (create_beautiful_app_icon w) = Ok tt.
Proof.
  intros (Hsin & Hbox1 & Hbox2 & Hsave).
  unfold create_beautiful_app_icon. cbv zeta.
  destruct background_defined as [bg Hbg].
  apply (bind_run _ _ _ bg (fun rw => fst rw = Ok tt));
    [rewrite Hbg; reflexivity | cbv beta].
  match goal with
  | |- context [bind (for_each ?xs ?body ?s0) _ w] =>
      assert (Hloop : exists img1, for_each xs body s0 w = (Ok img1, w))
  end.
  { apply for_each_runs.
    intros img [i [[x1 y1] [x2 y2]]] Hin.
    apply bridge_segment_index in Hin.
    destruct (bridge_thickness_runs i w (Hsin i Hin)) as [z Ez].
    eexists. unfold bind. rewrite Ez. reflexivity. }
  destruct Hloop as [img1 E1].
  apply (bind_run _ _ _ img1 (fun rw => fst rw = Ok tt) E1). cbv beta.
  apply (bind_run _ _ _ (icon_fonts (host w)) (fun rw => fst rw = Ok tt)
                  (icon_fonts_run w)). cbv beta.
  destruct (icon_fonts (host w)) as [font small_font].
  cbn [fst snd] in Hbox1, Hbox2.
  destruct (text_bbox (host w) font "BookBridge")
    as [[[[l t] r] b]|] eqn:Eb1; [|exfalso; apply Hbox1; reflexivity].
  destruct (text_bbox (host w) small_font "Learn • Listen • Explore")
    as [[[[l' t'] r'] b']|] eqn:Eb2; [|exfalso; apply Hbox2; reflexivity].
  apply (bind_run _ _ _ (l, t, r, b) (fun rw => fst rw = Ok tt));
    [unfold textbbox; rewrite Eb1; reflexivity | cbv beta].
  apply (bind_run _ _ _ (l', t', r', b') (fun rw => fst rw = Ok tt));
    [unfold textbbox; rewrite Eb2; reflexivity | cbv beta].
  rewrite save_then_print, Hsave. reflexivity.
Qed.

(** The first example host is such a host. *)
Lemma linux_host_ok : icon_host_ok linux_host.
Proof.
  split; [|split; [|split]].
  - intros i Hi.
    assert (Hall : forallb (fun i => unit_interval
                                       (libm_sin linux_host (bridge_angle i)))
                           (Gradient.range 100) = true)
      by (vm_compute; reflexivity).
    rewrite forallb_forall in Hall. apply Hall. apply range_In. lia.
  - discriminate.
  - discriminate.
  - reflexivity.
Qed.

End NormalEnd.

(** C4 (the code departs from it): on a host without the Helvetica file,
    [create_feature_graphic] does not fall back: the exception of the font
    load in its feature loop leaves the routine, and the save step is never
    reached. *)
Theorem feature_graphic_font_failure_escapes (w : Script.World) :
  Script.font_file (Script.host w) Script.helvetica = false ->
  fst (Script.create_feature_graphic w) = Script.Raise Script.OSError.
Proof.
  intros Hfont. now rewrite feature_graphic_without_font.
Qed.

Lemma feature_graphic_font_failure_escapes_witness :
  Script.font_file (Script.host (Script.fresh_world Script.linux_host))
                   Script.helvetica = false /\
  fst (Script.create_feature_graphic (Script.fresh_world Script.linux_host))
  = Script.Raise Script.OSError.
Proof.
  split; [reflexivity|].
  apply (feature_graphic_font_failure_escapes
           (Script.fresh_world Script.linux_host)).
  reflexivity.
Defined.

(** C5 (the code departs from it): on a host without the Helvetica file,
    running [create_feature_graphic] produces no image at all, of any
    size: the files of the world are unchanged. *)
Theorem feature_graphic_no_output_without_font (w : Script.World) :
  Script.font_file (Script.host w) Script.helvetica = false ->
  Script.new_files w (snd (Script.create_feature_graphic w)) = [].
Proof.
  intros Hfont. rewrite feature_graphic_without_font by exact Hfont.
  unfold Script.new_files. simpl. apply skipn_all.
Qed.

Lemma feature_graphic_no_output_without_font_witness :
  Script.font_file (Script.host (Script.used_world Script.linux_host))
                   Script.helvetica = false /\
  Script.new_files
    (Script.used_world Script.linux_host)
    (snd (Script.create_feature_graphic (Script.used_world Script.linux_host)))
  = [].
Proof.
  split; [reflexivity|].
  apply (feature_graphic_no_output_without_font
           (Script.used_world Script.linux_host)).
  reflexivity.
Defined.



(** On the example host the icon routine ends normally, with one file of
    512 x 512 pixels, which starts with the PNG signature. *)
Example beautiful_icon_on_linux :
  let run := Script.create_beautiful_app_icon
               (Script.fresh_world Script.linux_host) in
  fst run = Script.Ok tt /\
  map (fun f => (Script.file_name f, Script.output_size (Script.file_image f),
                 Script.file_bytes Script.linux_host f))
      (Script.files (snd run))
  = [("beautiful_app_icon_512x512.png"%string, (512, 512),
      [137; 80; 78; 71; 13; 10; 26; 10; 2; 0; 2; 0])].
Proof. vm_compute. split; reflexivity. Qed.

(** * Further properties of the code *)

(** ** More on [create_gradient] *)

Section GradientShape.
Import Pillow Gradient.

Lemma row_color_zero (c1 c2 : RGB) (n : Z) :
  byte_color c1 -> byte_color c2 -> 1 <= n < 2 ^ 31 ->
  row_color c1 c2 0 n = c1.
Proof.
  destruct c1 as [[r1 g1] b1], c2 as [[r2 g2] b2].
  intros (Hr1 & Hg1 & Hb1) (Hr2 & Hg2 & Hb2) Hn.
  assert (H53 : 1 <= n < 2 ^ 53).
  { split; [lia|]. apply Z.lt_trans with (2 ^ 31); [lia | reflexivity]. }
  unfold row_color. rewrite int_truediv_zero by exact H53.
  rewrite !channel_at_zero by assumption. reflexivity.
Qed.

(** Two neighbouring indices of one channel. *)
Lemma channel_step a b i n z z' :
  0 <= a <= 255 -> 0 <= b <= 255 -> 0 <= i -> i + 1 < n -> n < 2 ^ 31 ->
  channel a b (PyFloat.int_truediv i n) = Some z ->
  channel a b (PyFloat.int_truediv (i + 1) n) = Some z' ->
  (a < b -> z <= z') /\ (b < a -> z' <= z).
Proof.
  intros Ha Hb Hi Hi1 Hn Hz Hz'.
  destruct (channel_value a b i n Ha Hb ltac:(lia) Hn) as (u & Hu & Hk & Hex & _).
  destruct (channel_value a b (i + 1) n Ha Hb ltac:(lia) Hn)
    as (u' & Hu' & Hk' & Hex' & _).
  rewrite Hz in Hu. injection Hu as <-.
  rewrite Hz' in Hu'. injection Hu' as <-.
  set (N := lerp_num a b i n) in *. set (N' := lerp_num a b (i + 1) n) in *.
  assert (HN : N' = N + (b - a)) by (unfold N, N', lerp_num; ring).
  pose proof (Z.div_mod N n ltac:(lia)) as Hdm.
  pose proof (Z.div_mod N' n ltac:(lia)) as Hdm'.
  pose proof (Z.mod_pos_bound N n ltac:(lia)) as Hm.
  pose proof (Z.mod_pos_bound N' n ltac:(lia)) as Hm'.
  split; intros Hab.
  - assert (Hle : N / n <= N' / n) by (apply Z.div_le_mono; lia).
    destruct (Z.eq_dec (N' mod n) 0) as [E0|N0].
    + assert (N / n < N' / n); [|lia].
      apply Z.div_lt_upper_bound; [lia|]. rewrite E0 in Hdm'. lia.
    + specialize (Hex' N0). lia.
  - assert (Hle : N' / n <= N / n) by (apply Z.div_le_mono; lia).
    destruct (Z.eq_dec (N mod n) 0) as [E0|N0].
    + assert (N' / n < N / n); [|lia].
      apply Z.div_lt_upper_bound; [lia|]. rewrite E0 in Hdm. lia.
    + specialize (Hex N0). lia.
Qed.

(** An ascending channel stays below its end value. *)
Lemma channel_below_end a b i n z :
  0 <= a <= 255 -> 0 <= b <= 255 -> 0 <= i < n -> n < 2 ^ 31 ->
  channel a b (PyFloat.int_truediv i n) = Some z ->
  a < b -> z < b.
Proof.
  intros Ha Hb Hi Hn Hz Hab.
  destruct (channel_value a b i n Ha Hb Hi Hn) as (u & Hu & Hk & _).
  rewrite Hz in Hu. injection Hu as <-.
  assert (lerp_num a b i n / n < b); [|lia].
  apply Z.div_lt_upper_bound; [lia|]. unfold lerp_num. nia.
Qed.

End GradientShape.

(** X1: the gradient starts exactly on [color1]: every pixel of row 0
    (column 0 for a horizontal gradient) is [color1]. *)
Theorem gradient_starts_at_color1 (w h : Z) (c1 c2 : Pillow.RGB)
        (vertical : bool) :
  1 <= w < 2 ^ 31 -> 1 <= h < 2 ^ 31 -> byte_color c1 -> byte_color c2 ->
  exists img,
    Gradient.create_gradient w h c1 c2 vertical = Some img
    /\ forall x y, 0 <= x < w -> 0 <= y < h ->
         (if vertical then y else x) = 0 ->
         Pillow.im_px img x y = c1.
Proof.
  intros Hw Hh H1 H2.
  destruct (create_gradient_pixels w h c1 c2 vertical Hw Hh H1 H2)
    as (img & Hc & _ & _ & Hpx).
  exists img. split; [exact Hc|].
  intros x y Hx Hy H0. rewrite (Hpx x y Hx Hy), H0.
  apply row_color_zero; try assumption. destruct vertical; lia.
Qed.

Lemma gradient_starts_at_color1_witness :
  (1 <= 3 < 2 ^ 31 /\ 1 <= 7 < 2 ^ 31
   /\ byte_color (15, 23, 42) /\ byte_color (30, 41, 59))
  /\ exists img,
       Gradient.create_gradient 3 7 (15, 23, 42) (30, 41, 59) false = Some img
       /\ forall x y, 0 <= x < 3 -> 0 <= y < 7 -> x = 0 ->
            Pillow.im_px img x y = (15, 23, 42).
Proof.
  assert (Hw : 1 <= 3 < 2 ^ 31) by (split; [lia | reflexivity]).
  assert (Hh : 1 <= 7 < 2 ^ 31) by (split; [lia | reflexivity]).
  assert (H1 : byte_color (15, 23, 42)) by (simpl; lia).
  assert (H2 : byte_color (30, 41, 59)) by (simpl; lia).
  split; [auto|].
  exact (gradient_starts_at_color1 3 7 (15, 23, 42) (30, 41, 59) false
                                   Hw Hh H1 H2).
Defined.

(** X2: along the gradient's axis a channel whose two end values differ
    never steps back: from one row (column) to the next it does not
    decrease when [color1 < color2] and does not increase when
    [color1 > color2]. *)
Theorem gradient_monotone (w h : Z) (c1 c2 : Pillow.RGB) (vertical : bool) :
  1 <= w < 2 ^ 31 -> 1 <= h < 2 ^ 31 -> byte_color c1 -> byte_color c2 ->
  exists img,
    Gradient.create_gradient w h c1 c2 vertical = Some img
    /\ forall x y x' y',
         0 <= x < w -> 0 <= y < h -> 0 <= x' < w -> 0 <= y' < h ->
         (if vertical then y' else x') = (if vertical then y else x) + 1 ->
         let '(r1, g1, b1) := c1 in
         let '(r2, g2, b2) := c2 in
         let '(r, g, b) := Pillow.im_px img x y in
         let '(r', g', b') := Pillow.im_px img x' y' in
         let mono c1 c2 z z' := (c1 < c2 -> z <= z') /\ (c2 < c1 -> z' <= z) in
         mono r1 r2 r r' /\ mono g1 g2 g g' /\ mono b1 b2 b b'.
Proof.
  intros Hw Hh H1 H2.
  destruct (create_gradient_pixels w h c1 c2 vertical Hw Hh H1 H2)
    as (img & Hc & _ & _ & Hpx).
  exists img. split; [exact Hc|].
  intros x y x' y' Hx Hy Hx' Hy' Hnext.
  rewrite (Hpx x y Hx Hy), (Hpx x' y' Hx' Hy'), Hnext.
  set (i := if vertical then y else x) in *.
  set (n := if vertical then h else w).
  assert (Hi : 0 <= i) by (unfold i; destruct vertical; lia).
  assert (Hi1 : i + 1 < n).
  { unfold n. rewrite <- Hnext. destruct vertical; lia. }
  assert (Hn : n < 2 ^ 31) by (unfold n; destruct vertical; lia).
  pose proof (row_color_spec c1 c2 i n H1 H2 ltac:(lia) Hn) as Hrow.
  pose proof (row_color_spec c1 c2 (i + 1) n H1 H2 ltac:(lia) Hn) as Hrow'.
  destruct c1 as [[r1 g1] b1], c2 as [[r2 g2] b2].
  destruct H1 as (Hr1 & Hg1 & Hb1), H2 as (Hr2 & Hg2 & Hb2).
  destruct Hrow as (r & g & b & -> & (Er & _) & (Eg & _) & (Eb & _)).
  destruct Hrow' as (r' & g' & b' & -> & (Er' & _) & (Eg' & _) & (Eb' & _)).
  cbv zeta.
  split; [|split].
  - apply (channel_step r1 r2 i n r r'); assumption.
  - apply (channel_step g1 g2 i n g g'); assumption.
  - apply (channel_step b1 b2 i n b b'); assumption.
Qed.

Lemma gradient_monotone_witness :
  (1 <= 3 < 2 ^ 31 /\ 1 <= 7 < 2 ^ 31
   /\ byte_color (15, 200, 42) /\ byte_color (30, 41, 42))
  /\ exists img,
       Gradient.create_gradient 3 7 (15, 200, 42) (30, 41, 42) true = Some img
       /\ forall x y x' y',
            0 <= x < 3 -> 0 <= y < 7 -> 0 <= x' < 3 -> 0 <= y' < 7 ->
            y' = y + 1 ->
            let '(r, g, b) := Pillow.im_px img x y in
            let '(r', g', b') := Pillow.im_px img x' y' in
            let mono c1 c2 z z' := (c1 < c2 -> z <= z') /\ (c2 < c1 -> z' <= z) in
            mono 15 30 r r' /\ mono 200 41 g g' /\ mono 42 42 b b'.
Proof.
  assert (Hw : 1 <= 3 < 2 ^ 31) by (split; [lia | reflexivity]).
  assert (Hh : 1 <= 7 < 2 ^ 31) by (split; [lia | reflexivity]).
  assert (H1 : byte_color (15, 200, 42)) by (simpl; lia).
  assert (H2 : byte_color (30, 41, 42)) by (simpl; lia).
  split; [auto|].
  exact (gradient_monotone 3 7 (15, 200, 42) (30, 41, 42) true Hw Hh H1 H2).
Defined.

(** X3: the gradient stops short of [color2]: on a channel with
    [color1 < color2] every painted value is below [color2], because the
    ratio [i / extent] never reaches 1. *)
Theorem gradient_stops_short_of_color2 (w h : Z) (c1 c2 : Pillow.RGB)
        (vertical : bool) :
  1 <= w < 2 ^ 31 -> 1 <= h < 2 ^ 31 -> byte_color c1 -> byte_color c2 ->
  exists img,
    Gradient.create_gradient w h c1 c2 vertical = Some img
    /\ forall x y, 0 <= x < w -> 0 <= y < h ->
         let '(r1, g1, b1) := c1 in
         let '(r2, g2, b2) := c2 in
         let '(r, g, b) := Pillow.im_px img x y in
         (r1 < r2 -> r1 <= r < r2) /\ (g1 < g2 -> g1 <= g < g2)
         /\ (b1 < b2 -> b1 <= b < b2).
Proof.
  intros Hw Hh H1 H2.
  destruct (create_gradient_pixels w h c1 c2 vertical Hw Hh H1 H2)
    as (img & Hc & _ & _ & Hpx).
  exists img. split; [exact Hc|].
  intros x y Hx Hy. rewrite (Hpx x y Hx Hy).
  set (i := if vertical then y else x).
  set (n := if vertical then h else w).
  assert (Hi : 0 <= i < n) by (unfold i, n; destruct vertical; lia).
  assert (Hn : n < 2 ^ 31) by (unfold n; destruct vertical; lia).
  pose proof (row_color_spec c1 c2 i n H1 H2 Hi Hn) as Hrow.
  destruct c1 as [[r1 g1] b1], c2 as [[r2 g2] b2].
  destruct H1 as (Hr1 & Hg1 & Hb1), H2 as (Hr2 & Hg2 & Hb2).
  destruct Hrow as (r & g & b & -> & Tr & Tg & Tb).
  unfold truncated_lerp in Tr, Tg, Tb.
  destruct Tr as (Er & _ & _ & _ & _ & Mr).
  destruct Tg as (Eg & _ & _ & _ & _ & Mg).
  destruct Tb as (Eb & _ & _ & _ & _ & Mb).
  split; [|split]; intros Hlt.
  - split; [specialize (Mr ltac:(lia)); lia|].
    apply (channel_below_end r1 r2 i n r); assumption.
  - split; [specialize (Mg ltac:(lia)); lia|].
    apply (channel_below_end g1 g2 i n g); assumption.
  - split; [specialize (Mb ltac:(lia)); lia|].
    apply (channel_below_end b1 b2 i n b); assumption.
Qed.

Lemma gradient_stops_short_of_color2_witness :
  (1 <= 512 < 2 ^ 31 /\ 1 <= 512 < 2 ^ 31
   /\ byte_color (15, 23, 42) /\ byte_color (30, 41, 59))
  /\ exists img,
       Gradient.create_gradient 512 512 (15, 23, 42) (30, 41, 59) true = Some img
       /\ forall x y, 0 <= x < 512 -> 0 <= y < 512 ->
            let '(r, g, b) := Pillow.im_px img x y in
            (15 < 30 -> 15 <= r < 30) /\ (23 < 41 -> 23 <= g < 41)
            /\ (42 < 59 -> 42 <= b < 59).
Proof.
  assert (Hw : 1 <= 512 < 2 ^ 31) by (split; [lia | reflexivity]).
  assert (H1 : byte_color (15, 23, 42)) by (simpl; lia).
  assert (H2 : byte_color (30, 41, 59)) by (simpl; lia).
  split; [auto|].
  exact (gradient_stops_short_of_color2 512 512 (15, 23, 42) (30, 41, 59) true
                                        Hw Hw H1 H2).
Defined.

(** X4: a horizontal gradient is the transpose of the vertical gradient
    of the swapped size: pixel [(x, y)] of the one is pixel [(y, x)] of the
    other. *)
Theorem gradient_transpose (w h : Z) (c1 c2 : Pillow.RGB) :
  1 <= w < 2 ^ 31 -> 1 <= h < 2 ^ 31 -> byte_color c1 -> byte_color c2 ->
  exists horizontal vertical,
    Gradient.create_gradient w h c1 c2 false = Some horizontal
    /\ Gradient.create_gradient h w c1 c2 true = Some vertical
    /\ Pillow.im_width vertical = Pillow.im_height horizontal
    /\ Pillow.im_height vertical = Pillow.im_width horizontal
    /\ forall x y, 0 <= x < w -> 0 <= y < h ->
         Pillow.im_px horizontal x y = Pillow.im_px vertical y x.
Proof.
  intros Hw Hh H1 H2.
  destruct (create_gradient_pixels w h c1 c2 false Hw Hh H1 H2)
    as (ih & Hc & Hiw & Hih & Hpx).
  destruct (create_gradient_pixels h w c1 c2 true Hh Hw H1 H2)
    as (iv & Hc' & Hiw' & Hih' & Hpx').
  exists ih, iv. split; [exact Hc|]. split; [exact Hc'|].
  split; [congruence|]. split; [congruence|].
  intros x y Hx Hy. rewrite (Hpx x y Hx Hy), (Hpx' y x Hy Hx). reflexivity.
Qed.

Lemma gradient_transpose_witness :
  (1 <= 3 < 2 ^ 31 /\ 1 <= 7 < 2 ^ 31
   /\ byte_color (15, 23, 42) /\ byte_color (30, 41, 59))
  /\ exists horizontal vertical,
       Gradient.create_gradient 3 7 (15, 23, 42) (30, 41, 59) false
       = Some horizontal
       /\ Gradient.create_gradient 7 3 (15, 23, 42) (30, 41, 59) true
          = Some vertical
       /\ Pillow.im_width vertical = Pillow.im_height horizontal
       /\ Pillow.im_height vertical = Pillow.im_width horizontal
       /\ forall x y, 0 <= x < 3 -> 0 <= y < 7 ->
            Pillow.im_px horizontal x y = Pillow.im_px vertical y x.
Proof.
  assert (Hw : 1 <= 3 < 2 ^ 31) by (split; [lia | reflexivity]).
  assert (Hh : 1 <= 7 < 2 ^ 31) by (split; [lia | reflexivity]).
  assert (H1 : byte_color (15, 23, 42)) by (simpl; lia).
  assert (H2 : byte_color (30, 41, 59)) by (simpl; lia).
  split; [auto|].
  exact (gradient_transpose 3 7 (15, 23, 42) (30, 41, 59) Hw Hh H1 H2).
Defined.

(** ** [hex_to_rgb] *)

Section HexFacts.
Import Gradient HexCodec.

Lemma digit_char_reads (upper : bool) (n : Z) :
  0 <= n <= 15 ->
  hex_digit (digit_char upper n) = Some n
  /\ digit_char upper n <> "#"%char.
Proof.
  intros Hn.
  assert (Hall :
    forallb (fun u => forallb (fun n =>
               match hex_digit (digit_char u n) with
               | Some m => m =? n
               | None => false
               end && negb (Ascii.eqb (digit_char u n) "#"))
             (range 16)) [true; false] = true) by (vm_compute; reflexivity).
  rewrite forallb_forall in Hall.
  specialize (Hall upper ltac:(destruct upper; simpl; tauto)).
  rewrite forallb_forall in Hall.
  specialize (Hall n ltac:(apply range_In; lia)).
  apply andb_prop in Hall. destruct Hall as [H1 H2].
  split.
  - destruct (hex_digit (digit_char upper n)) as [m|]; [|discriminate].
    apply Z.eqb_eq in H1. now subst.
  - intros E. rewrite E in H2. discriminate.
Qed.

Lemma lstrip_hash_other (c : ascii) (rest : string) :
  c <> "#"%char -> lstrip_hash (String c rest) = String c rest.
Proof.
  intros Hc.
  destruct c as [[|] [|] [|] [|] [|] [|] [|] [|]];
    try reflexivity; exfalso; apply Hc; reflexivity.
Qed.

Lemma substring_empty (s : string) : substring 0 0 s = EmptyString.
Proof. destruct s; reflexivity. Qed.

(** Two digits are read as a number: no digit is white space, a sign or
    an underscore, and no digit after a [0] makes a prefix. *)
Lemma int16_two_digits (upper : bool) (hi lo : Z) :
  0 <= hi <= 15 -> 0 <= lo <= 15 ->
  int16 (String (digit_char upper hi)
                (String (digit_char upper lo) EmptyString))
  = Some (16 * hi + lo).
Proof.
  intros Hhi Hlo.
  assert (Hall :
    forallb (fun u => forallb (fun h => forallb (fun l =>
               match int16 (String (digit_char u h)
                                   (String (digit_char u l) EmptyString)) with
               | Some m => m =? 16 * h + l
               | None => false
               end) (range 16)) (range 16)) [true; false] = true)
    by (vm_compute; reflexivity).
  rewrite forallb_forall in Hall.
  specialize (Hall upper ltac:(destruct upper; simpl; tauto)).
  rewrite forallb_forall in Hall.
  specialize (Hall hi ltac:(apply range_In; lia)).
  rewrite forallb_forall in Hall.
  specialize (Hall lo ltac:(apply range_In; lia)).
  destruct (int16 _) as [m|]; [|discriminate].
  apply Z.eqb_eq in Hall. now subst.
Qed.

Lemma hex_pair_byte (upper : bool) (v : Z) (rest : string) :
  0 <= v <= 255 ->
  hex_pair (byte_hex upper v ++ rest) 0 = Some v.
Proof.
  intros Hv. unfold byte_hex, hex_pair. cbn [append substring].
  assert (Hhi : 0 <= v / 16 <= 15).
  { assert (v / 16 < 16) by (apply Z.div_lt_upper_bound; lia).
    assert (0 <= v / 16) by (apply Z.div_pos; lia). lia. }
  pose proof (Z.mod_pos_bound v 16 ltac:(lia)) as Hlo.
  rewrite substring_empty.
  rewrite int16_two_digits by lia.
  f_equal. pose proof (Z.div_mod v 16 ltac:(lia)). lia.
Qed.

Lemma hex_pair_skip (a b : ascii) (s : string) (i : nat) :
  hex_pair (String a (String b s)) (S (S i)) = hex_pair s i.
Proof. reflexivity. Qed.

Lemma lstrip_hash_app (s t : string) :
  lstrip_hash s <> EmptyString ->
  lstrip_hash (s ++ t) = (lstrip_hash s ++ t)%string.
Proof.
  induction s as [|c s IH]; intros Hne.
  - exfalso. apply Hne. reflexivity.
  - destruct (ascii_dec c "#"%char) as [->|Hc].
    + cbn [append]. change (lstrip_hash (String "#" (s ++ t)))
        with (lstrip_hash (s ++ t)).
      change (lstrip_hash (String "#" s)) with (lstrip_hash s) in *.
      apply IH. exact Hne.
    + cbn [append]. rewrite !lstrip_hash_other by exact Hc. reflexivity.
Qed.

(** A slice that ends inside [s] does not see what is appended to [s]. *)
Lemma substring_app (s t : string) (i m : nat) :
  (i + m <= String.length s)%nat ->
  substring i m (s ++ t) = substring i m s.
Proof.
  revert i m. induction s as [|c s IH]; intros i m Hlen; cbn [String.length] in Hlen.
  - assert (i = 0%nat) by lia. assert (m = 0%nat) by lia. subst.
    destruct t; reflexivity.
  - destruct i as [|i]; cbn [append substring].
    + destruct m as [|m]; [reflexivity|]. f_equal. apply IH. lia.
    + apply IH. lia.
Qed.

Lemma hex_pair_app (s t : string) (i : nat) :
  (i + 2 <= String.length s)%nat ->
  hex_pair (s ++ t) i = hex_pair s i.
Proof.
  intros Hi. unfold hex_pair. now rewrite substring_app.
Qed.

End HexFacts.

(** X5: [hex_to_rgb] reads back the usual ["#rrggbb"] rendering of every
    colour with byte channels, written with lower-case or with upper-case
    digits. *)
Theorem hex_to_rgb_round_trip (upper : bool) (c : Pillow.RGB) :
  byte_color c ->
  Gradient.hex_to_rgb (HexCodec.color_hex upper c) = Some c.
Proof.
  destruct c as [[r g] b]. intros (Hr & Hg & Hb).
  unfold Gradient.hex_to_rgb, HexCodec.color_hex.
  change (Gradient.lstrip_hash (String "#" ?s)) with (Gradient.lstrip_hash s).
  assert (Hs : Gradient.lstrip_hash
                 (HexCodec.byte_hex upper r ++ HexCodec.byte_hex upper g
                  ++ HexCodec.byte_hex upper b)
               = (HexCodec.byte_hex upper r ++ HexCodec.byte_hex upper g
                  ++ HexCodec.byte_hex upper b)%string).
  { unfold HexCodec.byte_hex at 1. cbn [append].
    apply lstrip_hash_other.
    apply digit_char_reads.
    assert (r / 16 < 16) by (apply Z.div_lt_upper_bound; lia).
    assert (0 <= r / 16) by (apply Z.div_pos; lia). lia. }
  rewrite Hs.
  assert (H0 : Gradient.hex_pair
                 (HexCodec.byte_hex upper r ++ HexCodec.byte_hex upper g
                  ++ HexCodec.byte_hex upper b) 0 = Some r)
    by (apply hex_pair_byte; exact Hr).
  assert (H2 : Gradient.hex_pair
                 (HexCodec.byte_hex upper r ++ HexCodec.byte_hex upper g
                  ++ HexCodec.byte_hex upper b) 2 = Some g).
  { unfold HexCodec.byte_hex at 1. cbn [append]. rewrite hex_pair_skip.
    apply hex_pair_byte; exact Hg. }
  assert (H4 : Gradient.hex_pair
                 (HexCodec.byte_hex upper r ++ HexCodec.byte_hex upper g
                  ++ HexCodec.byte_hex upper b) 4 = Some b).
  { unfold HexCodec.byte_hex at 1 2. cbn [append]. rewrite !hex_pair_skip.
    apply (hex_pair_byte upper b EmptyString Hb). }
  rewrite H0, H2, H4. reflexivity.
Qed.

Lemma hex_to_rgb_round_trip_witness :
  byte_color (251, 191, 36)
  /\ Gradient.hex_to_rgb (HexCodec.color_hex true (251, 191, 36))
     = Some (251, 191, 36).
Proof.
  assert (H : byte_color (251, 191, 36)) by (simpl; lia).
  split; [exact H|].
  exact (hex_to_rgb_round_trip true (251, 191, 36) H).
Defined.

(** X6: on a string of ASCII characters, [hex_to_rgb] looks at nothing but
    the six characters that follow the leading ['#'] characters: one more
    ['#'] in front and any text behind (an alpha pair, say) do not change
    what it returns, be it a colour, a triple that is no colour (signs
    and blanks are read as [int] reads them) or [ValueError]. *)
Theorem hex_to_rgb_six_characters (s t : string) :
  HexCodec.is_ascii s = true ->
  (6 <= String.length (Gradient.lstrip_hash s))%nat ->
  Gradient.hex_to_rgb (String "#"%char (s ++ t)) = Gradient.hex_to_rgb s.
Proof.
  intros _ Hlen. unfold Gradient.hex_to_rgb.
  change (Gradient.lstrip_hash (String "#" (s ++ t)))
    with (Gradient.lstrip_hash (s ++ t)).
  rewrite lstrip_hash_app.
  - rewrite !hex_pair_app by lia. reflexivity.
  - intros E. rewrite E in Hlen. simpl in Hlen. lia.
Qed.

Lemma hex_to_rgb_six_characters_witness :
  (HexCodec.is_ascii "+f-1 a" = true
   /\ (6 <= String.length (Gradient.lstrip_hash "+f-1 a"))%nat)
  /\ Gradient.hex_to_rgb (String "#"%char ("+f-1 a" ++ "80"))
     = Gradient.hex_to_rgb "+f-1 a"
  /\ Gradient.hex_to_rgb "+f-1 a" = Some (15, -1, 10).
Proof.
  assert (H : (6 <= String.length (Gradient.lstrip_hash "+f-1 a"))%nat)
    by (simpl; lia).
  split; [split; [reflexivity | exact H]|].
  split; [|reflexivity].
  exact (hex_to_rgb_six_characters "+f-1 a" "80" eq_refl H).
Defined.

(** ** More on the glow loop *)

Section GlowShape.
Import Pillow GlowChannel.

Lemma in_ellipse_outside (cx cy radius x y : Z) :
  0 < radius ->
  x < cx - radius \/ cx + radius < x \/ y < cy - radius \/ cy + radius < y ->
  in_ellipse (cx - radius) (cy - radius) (cx + radius) (cy + radius) x y
  = false.
Proof.
  intros Hr Hout. unfold in_ellipse. apply Z.leb_gt.
  replace (cx + radius - (cx - radius)) with (2 * radius) by lia.
  replace (cy + radius - (cy - radius)) with (2 * radius) by lia.
  replace (2 * x - (cx - radius + (cx + radius))) with (2 * (x - cx)) by lia.
  replace (2 * y - (cy - radius + (cy + radius))) with (2 * (y - cy)) by lia.
  assert (H : radius * radius < (x - cx) * (x - cx)
              \/ radius * radius < (y - cy) * (y - cy)).
  { destruct Hout as [H|[H|[H|H]]]; [left|left|right|right].
    - assert (0 < (cx - x - radius) * (cx - x + radius))
        by (apply Z.mul_pos_pos; lia). lia.
    - assert (0 < (x - cx - radius) * (x - cx + radius))
        by (apply Z.mul_pos_pos; lia). lia.
    - assert (0 < (cy - y - radius) * (cy - y + radius))
        by (apply Z.mul_pos_pos; lia). lia.
    - assert (0 < (y - cy - radius) * (y - cy + radius))
        by (apply Z.mul_pos_pos; lia). lia. }
  assert (0 <= (x - cx) * (x - cx)) by apply Z.square_nonneg.
  assert (0 <= (y - cy) * (y - cy)) by apply Z.square_nonneg.
  assert (0 < radius * radius) by (apply Z.mul_pos_pos; lia).
  set (R := radius * radius) in *.
  set (X := (x - cx) * (x - cx)) in *.
  set (Y := (y - cy) * (y - cy)) in *.
  replace (2 * radius * (2 * radius) * (2 * radius * (2 * radius)))
    with (16 * (R * R)) by (unfold R; ring).
  replace (2 * (x - cx) * (2 * radius) * (2 * (x - cx) * (2 * radius))
           + 2 * (y - cy) * (2 * radius) * (2 * (y - cy) * (2 * radius)))
    with (16 * (X * R + Y * R)) by (unfold X, Y, R; ring).
  nia.
Qed.

Lemma rgb_rgba_rgb (c : RGB) : to_rgb_px (to_rgba_px c) = c.
Proof. destruct c as [[r g] b]. reflexivity. Qed.

(** Where the overlay is transparent a step changes nothing. *)
Lemma glow_step_outside (bg : Image RGB) (radius x y : Z) :
  0 < radius ->
  x < Icon.center_x - radius \/ Icon.center_x + radius < x
  \/ y < Icon.center_y - radius \/ Icon.center_y + radius < y ->
  im_px (Icon.glow_step bg radius) x y = im_px bg x y.
Proof.
  intros Hr Hout.
  unfold Icon.glow_step, Icon.glow_overlay, convert_rgb, alpha_composite,
    convert_rgba, ellipse, paint.
  cbn [im_px im_width im_height].
  rewrite (in_ellipse_outside _ _ _ _ _ Hr Hout), andb_false_r.
  destruct (im_px bg x y) as [[r g] b]. reflexivity.
Qed.

Lemma glow_loop_outside (radii : list Z) (x y : Z) :
  Forall (fun radius => 0 < radius <= 220) radii ->
  x < 36 \/ 476 < x \/ y < 36 \/ 476 < y ->
  forall bg, im_px (Icon.glow_loop radii bg) x y = im_px bg x y.
Proof.
  intros Hall Hout. induction Hall as [|radius radii Hr _ IH]; intros bg.
  - reflexivity.
  - unfold Icon.glow_loop in *. cbn [fold_left]. rewrite IH.
    apply glow_step_outside; [lia|].
    change Icon.center_x with 256. change Icon.center_y with 256. lia.
Qed.

(** One channel of Pillow's blend depends on the other channels only
    through the two alphas. *)
Lemma blend_px_channels dr dg db sr sg sb sa :
  sa <> 0 ->
  to_rgb_px (blend_px (dr, dg, db, 255) (sr, sg, sb, sa))
  = (blend_channel dr sr sa, blend_channel dg sg sa, blend_channel db sb sa).
Proof.
  intros Hsa. unfold blend_channel, blend_px.
  destruct (Z.eqb_spec sa 0) as [E|_]; [contradiction|]. reflexivity.
Qed.

Lemma blend_channel_between (d s radius : Z) :
  0 <= d <= 255 -> In radius Icon.glow_radii -> In s [59; 130; 246] ->
  between d s (blend_channel d s (Icon.glow_alpha radius))
  /\ 0 <= blend_channel d s (Icon.glow_alpha radius) <= 255.
Proof.
  intros Hd Hr Hs.
  assert (Hall :
    forallb (fun s => forallb (fun radius => forallb (fun d =>
               let z := blend_channel d s (Icon.glow_alpha radius) in
               (Z.min d s <=? z) && (z <=? Z.max d s)
               && (0 <=? z) && (z <=? 255))
             (Gradient.range 256)) Icon.glow_radii) [59; 130; 246] = true)
    by (vm_compute; reflexivity).
  rewrite forallb_forall in Hall. specialize (Hall s Hs).
  rewrite forallb_forall in Hall. specialize (Hall radius Hr).
  rewrite forallb_forall in Hall.
  specialize (Hall d ltac:(apply range_In; lia)). cbv zeta in Hall.
  rewrite !andb_true_iff, !Z.leb_le in Hall. unfold between. lia.
Qed.

Lemma glow_alpha_nonzero (radius : Z) : Icon.glow_alpha radius <> 0.
Proof. unfold Icon.glow_alpha. lia. Qed.

(** One step moves every channel of a byte pixel toward the glow colour,
    or leaves the pixel alone, whichever pixels the rasteriser sets. *)
Lemma glow_step_on_between (region : Z -> Z -> Z -> bool) (bg : Image RGB)
      (radius x y : Z) :
  In radius Icon.glow_radii -> byte_color (im_px bg x y) ->
  let '(r0, g0, b0) := im_px bg x y in
  let '(r, g, b) := im_px (glow_step_on region bg radius) x y in
  (between r0 59 r /\ between g0 130 g /\ between b0 246 b)
  /\ byte_color (r, g, b).
Proof.
  intros Hr Hb.
  unfold glow_step_on, convert_rgb, alpha_composite, convert_rgba, paint.
  cbn [im_px im_width im_height].
  destruct (im_px bg x y) as [[r0 g0] b0]. destruct Hb as (H1 & H2 & H3).
  destruct (in_bounds _ x y && region radius x y).
  - unfold Icon.glow_fill, to_rgba_px.
    rewrite blend_px_channels by apply glow_alpha_nonzero.
    destruct (blend_channel_between r0 59 radius H1 Hr ltac:(simpl; tauto)).
    destruct (blend_channel_between g0 130 radius H2 Hr ltac:(simpl; tauto)).
    destruct (blend_channel_between b0 246 radius H3 Hr ltac:(simpl; tauto)).
    unfold byte_color. tauto.
  - cbn. unfold between, byte_color. lia.
Qed.

Lemma glow_loop_on_between (region : Z -> Z -> Z -> bool) (radii : list Z)
      (x y : Z) :
  Forall (fun radius => In radius Icon.glow_radii) radii ->
  forall bg, byte_color (im_px bg x y) ->
  let '(r0, g0, b0) := im_px bg x y in
  let '(r, g, b) := im_px (fold_left (glow_step_on region) radii bg) x y in
  between r0 59 r /\ between g0 130 g /\ between b0 246 b.
Proof.
  intros Hall. induction Hall as [|radius radii Hr _ IH]; intros bg Hb.
  - cbn [fold_left].
    destruct (im_px bg x y) as [[r0 g0] b0]. unfold between. lia.
  - cbn [fold_left].
    pose proof (glow_step_on_between region bg radius x y Hr Hb) as Hstep.
    specialize (IH (glow_step_on region bg radius)).
    destruct (im_px bg x y) as [[r0 g0] b0].
    destruct (im_px (glow_step_on region bg radius) x y) as [[r1 g1] b1].
    destruct Hstep as [(Br & Bg & Bb) Hb1]. specialize (IH Hb1).
    destruct (im_px (fold_left (glow_step_on region) radii
                               (glow_step_on region bg radius))
                    x y) as [[r g] b].
    unfold between in *. lia.
Qed.

(** With the exact disc for a rasteriser the loop is [Icon.glow]. *)
Lemma glow_on_disc (bg : Image RGB) : glow_on disc bg = Icon.glow bg.
Proof. reflexivity. Qed.

End GlowShape.

(** X7: the glow loop leaves every pixel outside the bounding box of its
    largest circle (radius 220 around the centre) exactly as it was,
    whatever the 512 x 512 background. *)
Theorem glow_outside_untouched (bg : Pillow.Image Pillow.RGB) (x y : Z) :
  Pillow.im_width bg = 512 -> Pillow.im_height bg = 512 ->
  x < 36 \/ 476 < x \/ y < 36 \/ 476 < y ->
  Pillow.im_px (Icon.glow bg) x y = Pillow.im_px bg x y.
Proof.
  intros _ _ Hout. unfold Icon.glow. apply glow_loop_outside; [|exact Hout].
  unfold Icon.glow_radii. cbn.
  repeat (constructor; [lia|]). constructor.
Qed.

Lemma glow_outside_untouched_witness :
  (Pillow.im_width (Pillow.new 512 512 (15, 23, 42)) = 512
   /\ Pillow.im_height (Pillow.new 512 512 (15, 23, 42)) = 512
   /\ (0 < 36 \/ 476 < 0 \/ 500 < 36 \/ 476 < 500))
  /\ Pillow.im_px (Icon.glow (Pillow.new 512 512 (15, 23, 42))) 0 500
     = Pillow.im_px (Pillow.new 512 512 (15, 23, 42)) 0 500.
Proof.
  assert (H : 0 < 36 \/ 476 < 0 \/ 500 < 36 \/ 476 < 500) by (left; lia).
  split; [split; [reflexivity | split; [reflexivity | exact H]]|].
  exact (glow_outside_untouched (Pillow.new 512 512 (15, 23, 42)) 0 500
                                eq_refl eq_refl H).
Defined.

(** X8: on a pixel with byte channels of a 512 x 512 background, the glow
    loop moves each channel toward the glow colour (59, 130, 246) and never
    past it: the result lies between the background's value and the
    glow's.  This holds whichever pixels the rasteriser of
    [overlay_draw.ellipse] sets for each of the seven circles, so also on
    the border pixels where Pillow differs from the exact disc. *)
Theorem glow_moves_toward_glow_colour (region : Z -> Z -> Z -> bool)
        (bg : Pillow.Image Pillow.RGB) (x y : Z) :
  Pillow.im_width bg = 512 -> Pillow.im_height bg = 512 ->
  byte_color (Pillow.im_px bg x y) ->
  let '(r0, g0, b0) := Pillow.im_px bg x y in
  let '(r, g, b) := Pillow.im_px (GlowChannel.glow_on region bg) x y in
  GlowChannel.between r0 59 r /\ GlowChannel.between g0 130 g
  /\ GlowChannel.between b0 246 b.
Proof.
  intros _ _ Hb. unfold GlowChannel.glow_on.
  apply glow_loop_on_between; [|exact Hb].
  apply Forall_forall. intros radius H. exact H.
Qed.

Lemma glow_moves_toward_glow_colour_witness :
  (Pillow.im_width (Pillow.new 512 512 (15, 23, 42)) = 512
   /\ Pillow.im_height (Pillow.new 512 512 (15, 23, 42)) = 512
   /\ byte_color (Pillow.im_px (Pillow.new 512 512 (15, 23, 42)) 242 36))
  /\ let '(r, g, b) :=
       Pillow.im_px (GlowChannel.glow_on
                       (fun radius x y =>
                          GlowChannel.disc radius x y
                          || ((radius =? 220) && (x =? 242) && (y =? 36)))
                       (Pillow.new 512 512 (15, 23, 42))) 242 36 in
     GlowChannel.between 15 59 r /\ GlowChannel.between 23 130 g
     /\ GlowChannel.between 42 246 b.
Proof.
  assert (H : byte_color (Pillow.im_px (Pillow.new 512 512 (15, 23, 42))
                                       242 36)) by (simpl; lia).
  split; [split; [reflexivity | split; [reflexivity | exact H]]|].
  exact (glow_moves_toward_glow_colour
           (fun radius x y =>
              GlowChannel.disc radius x y
              || ((radius =? 220) && (x =? 242) && (y =? 36)))
           (Pillow.new 512 512 (15, 23, 42)) 242 36 eq_refl eq_refl H).
Defined.

(** ** More on the routines *)

Section RoutineFacts.
Import Script Effects.
Local Open Scope script_scope.

(** [create_app_icon] from the measuring of its text on. *)
Lemma app_icon_run (w : World) (l t r b : Z) :
  let font := if font_file (host w) helvetica then TrueType helvetica 120
              else DefaultFont in
  text_bbox (host w) font "BB" = Some (l, t, r, b) ->
  can_save (host w) "app_icon_512x512.png" = true ->
  exists img,
    create_app_icon w
    = (Ok tt, extend w [mkFile "app_icon_512x512.png" "PNG" 95 (Plain img)]
                     ["Created app_icon_512x512.png"%string])
    /\ picture_size img = (512, 512)
    /\ filter (fun op => match op with Text _ _ _ _ => true | _ => false end)
              (ops img)
       = [Text (156 + (200 - (r - l)) / 2, 106 + (260 - (b - t)) / 2 - 20)
               "BB" WHITE font].
Proof.
  intros font Hbbox Hsave. unfold create_app_icon. cbv zeta.
  unfold bind at 1. rewrite app_icon_font. fold font.
  unfold bind at 1, textbbox. rewrite Hbbox.
  rewrite save_then_print, Hsave.
  eexists. split; [reflexivity|]. split; reflexivity.
Qed.

End RoutineFacts.

(** X9: a missing Helvetica file does not stop [create_app_icon]: it
    draws its text with Helvetica at 120 points where the file opens and
    with the default font where it does not, and either way, on a host
    that measures the text in that font and lets the file be written, it
    ends normally, having saved exactly one picture,
    [app_icon_512x512.png], of 512 x 512 pixels, and printed one line. *)
Theorem app_icon_font_fallback (w : Script.World) (bbox : Z * Z * Z * Z) :
  let font := if Script.font_file (Script.host w) Script.helvetica
              then Script.TrueType Script.helvetica 120
              else Script.DefaultFont in
  Script.text_bbox (Script.host w) font "BB" = Some bbox ->
  Script.can_save (Script.host w) "app_icon_512x512.png" = true ->
  exists img xy,
    Script.create_app_icon w
    = (Script.Ok tt,
       Script.extend w
         [Script.mkFile "app_icon_512x512.png" "PNG" 95 (Script.Plain img)]
         ["Created app_icon_512x512.png"%string])
    /\ Script.picture_size img = (512, 512)
    /\ filter (fun op => match op with Script.Text _ _ _ _ => true | _ => false end)
              (Script.ops img)
       = [Script.Text xy "BB" Script.WHITE font].
Proof.
  destruct bbox as [[[l t] r] b]. intros font Hbbox Hsave.
  destruct (app_icon_run w l t r b Hbbox Hsave) as (img & Erun & Hsize & Hops).
  exists img. eexists. split; [exact Erun|]. split; [exact Hsize|].
  exact Hops.
Qed.

Lemma app_icon_font_fallback_witness :
  (Script.text_bbox (Script.host (Script.used_world Script.linux_host))
                    Script.DefaultFont "BB" = Some (0, 0, 12, 11)
   /\ Script.can_save (Script.host (Script.used_world Script.linux_host))
                      "app_icon_512x512.png" = true)
  /\ exists img xy,
       Script.create_app_icon (Script.used_world Script.linux_host)
       = (Script.Ok tt,
          Script.extend (Script.used_world Script.linux_host)
            [Script.mkFile "app_icon_512x512.png" "PNG" 95 (Script.Plain img)]
            ["Created app_icon_512x512.png"%string])
       /\ Script.picture_size img = (512, 512)
       /\ filter (fun op => match op with
                            | Script.Text _ _ _ _ => true
                            | _ => false
                            end)
                 (Script.ops img)
          = [Script.Text xy "BB" Script.WHITE Script.DefaultFont].
Proof.
  split; [split; reflexivity|].
  exact (app_icon_font_fallback (Script.used_world Script.linux_host)
                                (0, 0, 12, 11) eq_refl eq_refl).
Defined.

(** X10: [create_app_icon] centres the width of the box the font reports
    for ["BB"], not the ink: the box at the origin starts at [l], the text
    is drawn from [text_x], so its ink starts at [text_x + l].  The gap
    from the ink to the right edge of the book minus the gap to the left
    edge is [(200 - (r - l)) mod 2 - 2 * l]: the text is centred to within
    one pixel when [l = 0] and sits [l] pixels to the right of that
    otherwise. *)
Theorem app_icon_text_offset (w : Script.World) (l t r b : Z) :
  let font := if Script.font_file (Script.host w) Script.helvetica
              then Script.TrueType Script.helvetica 120
              else Script.DefaultFont in
  Script.text_bbox (Script.host w) font "BB" = Some (l, t, r, b) ->
  Script.can_save (Script.host w) "app_icon_512x512.png" = true ->
  exists img xy,
    Script.create_app_icon w
    = (Script.Ok tt,
       Script.extend w
         [Script.mkFile "app_icon_512x512.png" "PNG" 95 (Script.Plain img)]
         ["Created app_icon_512x512.png"%string])
    /\ In (Script.Text xy "BB" Script.WHITE font) (Script.ops img)
    /\ let '(ink_left, _, ink_right, _) := Script.ink_box xy (l, t, r, b) in
       let book_left := (512 - 200) / 2 in
       let book_right := book_left + 200 in
       (book_right - ink_right) - (ink_left - book_left)
       = (200 - (r - l)) mod 2 - 2 * l.
Proof.
  intros font Hbbox Hsave.
  destruct (app_icon_run w l t r b Hbbox Hsave) as (img & Erun & _ & Hops).
  exists img, (156 + (200 - (r - l)) / 2, 106 + (260 - (b - t)) / 2 - 20).
  split; [exact Erun|]. split.
  - assert (Hin : In (Script.Text (156 + (200 - (r - l)) / 2,
                                   106 + (260 - (b - t)) / 2 - 20)
                                  "BB" Script.WHITE font)
                     (filter (fun op => match op with
                                        | Script.Text _ _ _ _ => true
                                        | _ => false
                                        end) (Script.ops img)))
      by (rewrite Hops; left; reflexivity).
    apply filter_In in Hin. exact (proj1 Hin).
  - unfold Script.ink_box. cbv zeta.
    change ((512 - 200) / 2) with 156.
    pose proof (Z.div_mod (200 - (r - l)) 2 ltac:(lia)). lia.
Qed.

Lemma app_icon_text_offset_witness :
  (Script.text_bbox (Script.host (Script.fresh_world Script.mac_host))
                    (Script.TrueType Script.helvetica 120) "BB"
   = Some (0, 0, 120, 120)
   /\ Script.can_save (Script.host (Script.fresh_world Script.mac_host))
                      "app_icon_512x512.png" = true)
  /\ exists img xy,
       Script.create_app_icon (Script.fresh_world Script.mac_host)
       = (Script.Ok tt,
          Script.extend (Script.fresh_world Script.mac_host)
            [Script.mkFile "app_icon_512x512.png" "PNG" 95 (Script.Plain img)]
            ["Created app_icon_512x512.png"%string])
       /\ In (Script.Text xy "BB" Script.WHITE
                          (Script.TrueType Script.helvetica 120))
             (Script.ops img)
       /\ let '(ink_left, _, ink_right, _) :=
            Script.ink_box xy (0, 0, 120, 120) in
          let book_left := (512 - 200) / 2 in
          let book_right := book_left + 200 in
          (book_right - ink_right) - (ink_left - book_left)
          = (200 - (120 - 0)) mod 2 - 2 * 0.
Proof.
  split; [split; reflexivity|].
  exact (app_icon_text_offset (Script.fresh_world Script.mac_host)
                              0 0 120 120 eq_refl eq_refl).
Defined.

(** X11: where the Helvetica file can be opened and the file written,
    [create_feature_graphic] ends normally, having saved exactly one
    picture, [feature_graphic_1024x500.png], of 1024 x 500 pixels, and
    printed one line. *)
Theorem feature_graphic_saved_with_font (w : Script.World) :
  Script.font_file (Script.host w) Script.helvetica = true ->
  Script.can_save (Script.host w) "feature_graphic_1024x500.png" = true ->
  exists img,
    Script.create_feature_graphic w
    = (Script.Ok tt,
       Script.extend w
         [Script.mkFile "feature_graphic_1024x500.png" "PNG" 95 img]
         ["Created feature_graphic_1024x500.png"%string])
    /\ Script.output_size img = (1024, 500).
Proof. apply feature_graphic_with_font. Qed.

Lemma feature_graphic_saved_with_font_witness :
  (Script.font_file (Script.host (Script.used_world Script.mac_host))
                    Script.helvetica = true
   /\ Script.can_save (Script.host (Script.used_world Script.mac_host))
                      "feature_graphic_1024x500.png" = true)
  /\ exists img,
       Script.create_feature_graphic (Script.used_world Script.mac_host)
       = (Script.Ok tt,
          Script.extend (Script.used_world Script.mac_host)
            [Script.mkFile "feature_graphic_1024x500.png" "PNG" 95 img]
            ["Created feature_graphic_1024x500.png"%string])
       /\ Script.output_size img = (1024, 500).
Proof.
  split; [split; reflexivity|].
  exact (feature_graphic_saved_with_font (Script.used_world Script.mac_host)
                                         eq_refl eq_refl).
Defined.

(** X12: run as a script on a host without the Helvetica file, which
    measures text in the default font and lets the icon be written,
    [create_app_assets.py] writes the app icon and its message and then
    ends with the [OSError] of the font load in [create_feature_graphic]:
    the feature graphic is not written and neither closing line is
    printed. *)
Theorem app_assets_main_stops_half_way (cwd : string) (w : Script.World)
        (bbox : Z * Z * Z * Z) :
  Script.font_file (Script.host w) Script.helvetica = false ->
  Script.text_bbox (Script.host w) Script.DefaultFont "BB" = Some bbox ->
  Script.can_save (Script.host w) "app_icon_512x512.png" = true ->
  exists img,
    Assets.main cwd w
    = (Script.Raise Script.OSError,
       Script.extend w
         [Script.mkFile "app_icon_512x512.png" "PNG" 95 img]
         ["Created app_icon_512x512.png"%string])
    /\ Script.output_size img = (512, 512).
Proof.
  intros Hfont Hbbox Hsave.
  destruct (app_icon_saves w) as (img & Eicon & Hsize);
    [rewrite Hfont, Hbbox; discriminate | exact Hsave |].
  exists img. split; [|exact Hsize].
  unfold Assets.main. unfold Script.bind at 1. rewrite Eicon.
  unfold Script.bind at 1.
  rewrite feature_graphic_without_font by exact Hfont. reflexivity.
Qed.

Lemma app_assets_main_stops_half_way_witness :
  (Script.font_file (Script.host (Script.fresh_world Script.linux_host))
                    Script.helvetica = false
   /\ Script.text_bbox (Script.host (Script.fresh_world Script.linux_host))
                       Script.DefaultFont "BB" = Some (0, 0, 12, 11)
   /\ Script.can_save (Script.host (Script.fresh_world Script.linux_host))
                      "app_icon_512x512.png" = true)
  /\ exists img,
       Assets.main "/home/user" (Script.fresh_world Script.linux_host)
       = (Script.Raise Script.OSError,
          Script.extend (Script.fresh_world Script.linux_host)
            [Script.mkFile "app_icon_512x512.png" "PNG" 95 img]
            ["Created app_icon_512x512.png"%string])
       /\ Script.output_size img = (512, 512).
Proof.
  split; [split; [|split]; reflexivity|].
  exact (app_assets_main_stops_half_way
           "/home/user" (Script.fresh_world Script.linux_host) (0, 0, 12, 11)
           eq_refl eq_refl eq_refl).
Defined.

(** X13: run as a script on a host with the Helvetica file, which
    measures text in it and lets both files be written,
    [create_app_assets.py] ends normally, having written the 512 x 512 app
    icon and then the 1024 x 500 feature graphic, and printed four lines,
    the last one naming the working directory. *)
Theorem app_assets_main_writes_both (cwd : string) (w : Script.World)
        (bbox : Z * Z * Z * Z) :
  Script.font_file (Script.host w) Script.helvetica = true ->
  Script.text_bbox (Script.host w) (Script.TrueType Script.helvetica 120) "BB"
  = Some bbox ->
  Script.can_save (Script.host w) "app_icon_512x512.png" = true ->
  Script.can_save (Script.host w) "feature_graphic_1024x500.png" = true ->
  exists icon graphic,
    Assets.main cwd w
    = (Script.Ok tt,
       Script.extend w
         [Script.mkFile "app_icon_512x512.png" "PNG" 95 icon;
          Script.mkFile "feature_graphic_1024x500.png" "PNG" 95 graphic]
         ["Created app_icon_512x512.png";
          "Created feature_graphic_1024x500.png";
          Assets.newline ++ "Both assets have been created successfully!";
          "Files saved in: " ++ cwd]%string)
    /\ Script.output_size icon = (512, 512)
    /\ Script.output_size graphic = (1024, 500).
Proof.
  intros Hfont Hbbox Hsave1 Hsave2.
  destruct (app_icon_saves w) as (icon & Eicon & Hsize);
    [rewrite Hfont, Hbbox; discriminate | exact Hsave1 |].
  set (w1 := Script.extend w
               [Script.mkFile "app_icon_512x512.png" "PNG" 95 icon]
               ["Created app_icon_512x512.png"%string]) in *.
  destruct (feature_graphic_with_font w1 Hfont Hsave2)
    as (graphic & Eg & Hsize').
  exists icon, graphic. split; [|split; assumption].
  unfold Assets.main. unfold Script.bind at 1. rewrite Eicon.
  unfold Script.bind at 1. rewrite Eg.
  unfold Script.bind, Script.print, Script.extend, w1.
  cbn [Script.host Script.clock Script.entropy Script.files Script.stdout
       Script.extend].
  rewrite <- !app_assoc. reflexivity.
Qed.

Lemma app_assets_main_writes_both_witness :
  (Script.font_file (Script.host (Script.fresh_world Script.mac_host))
                    Script.helvetica = true
   /\ Script.text_bbox (Script.host (Script.fresh_world Script.mac_host))
                       (Script.TrueType Script.helvetica 120) "BB"
      = Some (0, 0, 120, 120)
   /\ Script.can_save (Script.host (Script.fresh_world Script.mac_host))
                      "app_icon_512x512.png" = true
   /\ Script.can_save (Script.host (Script.fresh_world Script.mac_host))
                      "feature_graphic_1024x500.png" = true)
  /\ exists icon graphic,
       Assets.main "/Users/me" (Script.fresh_world Script.mac_host)
       = (Script.Ok tt,
          Script.extend (Script.fresh_world Script.mac_host)
            [Script.mkFile "app_icon_512x512.png" "PNG" 95 icon;
             Script.mkFile "feature_graphic_1024x500.png" "PNG" 95 graphic]
            ["Created app_icon_512x512.png";
             "Created feature_graphic_1024x500.png";
             Assets.newline ++ "Both assets have been created successfully!";
             "Files saved in: " ++ "/Users/me"]%string)
       /\ Script.output_size icon = (512, 512)
       /\ Script.output_size graphic = (1024, 500).
Proof.
  split; [split; [|split; [|split]]; reflexivity|].
  exact (app_assets_main_writes_both
           "/Users/me" (Script.fresh_world Script.mac_host) (0, 0, 120, 120)
           eq_refl eq_refl eq_refl eq_refl).
Defined.



(** X15: whenever [create_beautiful_app_icon] ends normally it has saved
    exactly one picture, [beautiful_app_icon_512x512.png], of 512 x 512
    pixels, and printed one line; everything else in the world is as it
    was. *)
Theorem beautiful_icon_saves_one_picture (w : Script.World) :
  fst (Script.create_beautiful_app_icon w) = Script.Ok tt ->
  exists img,
    snd (Script.create_beautiful_app_icon w)
    = Script.extend w
        [Script.mkFile "beautiful_app_icon_512x512.png" "PNG" 95 img]
        ["Created beautiful_app_icon_512x512.png"%string]
    /\ Script.output_size img = (512, 512).
Proof.
  intros Hok.
  destruct (icon_run w) as [(img & E & Hsize & _) | [E | [E _]]];
    rewrite E in Hok |- *; clear E; cbn [fst snd] in *.
  - exists img. split; [reflexivity | exact Hsize].
  - discriminate Hok.
  - discriminate Hok.
Qed.

Lemma beautiful_icon_saves_one_picture_witness :
  fst (Script.create_beautiful_app_icon (Script.used_world Script.linux_host))
  = Script.Ok tt
  /\ exists img,
       snd (Script.create_beautiful_app_icon
              (Script.used_world Script.linux_host))
       = Script.extend (Script.used_world Script.linux_host)
           [Script.mkFile "beautiful_app_icon_512x512.png" "PNG" 95 img]
           ["Created beautiful_app_icon_512x512.png"%string]
       /\ Script.output_size img = (512, 512).
Proof.
  assert (H : fst (Script.create_beautiful_app_icon
                     (Script.used_world Script.linux_host)) = Script.Ok tt)
    by (vm_compute; reflexivity).
  split; [exact H|].
  exact (beautiful_icon_saves_one_picture
           (Script.used_world Script.linux_host) H).
Defined.

(** X16: on a host whose sine of each of the hundred angles
    [i * pi / 101] is [+0.0] or lies in [[2^-64, 1]], which measures the
    two texts in the fonts the routine ends up with and lets the file be
    written, [create_beautiful_app_icon] ends normally: no [int()] of a
    stroke width fails, and the 512 x 512 picture is saved and its line
    printed. *)
Theorem beautiful_icon_ends_normally (w : Script.World) :
  Script.icon_host_ok (Script.host w) ->
  exists img,
    Script.create_beautiful_app_icon w
    = (Script.Ok tt,
       Script.extend w
         [Script.mkFile "beautiful_app_icon_512x512.png" "PNG" 95 img]
         ["Created beautiful_app_icon_512x512.png"%string])
    /\ Script.output_size img = (512, 512).
Proof.
  intros Hgood. pose proof (icon_ends_normally w Hgood) as Hend.
  destruct (icon_run w) as [(img & E & Hsize & _) | [E | [E _]]];
    rewrite E in Hend |- *; clear E; cbn [fst] in Hend.
  - exists img. split; [reflexivity | exact Hsize].
  - discriminate Hend.
  - discriminate Hend.
Qed.

Lemma beautiful_icon_ends_normally_witness :
  Script.icon_host_ok (Script.host (Script.used_world Script.linux_host))
  /\ exists img,
       Script.create_beautiful_app_icon (Script.used_world Script.linux_host)
       = (Script.Ok tt,
          Script.extend (Script.used_world Script.linux_host)
            [Script.mkFile "beautiful_app_icon_512x512.png" "PNG" 95 img]
            ["Created beautiful_app_icon_512x512.png"%string])
       /\ Script.output_size img = (512, 512).
Proof.
  split; [exact linux_host_ok|].
  exact (beautiful_icon_ends_normally (Script.used_world Script.linux_host)
                                      linux_host_ok).
Defined.

